(** * object-property-tree: building and rendering a bounded-depth property tree

    A shallow embedding of [src/object-property-tree.ts]: the classification
    of values ([getPropertyType]), the per-member rule ([processChild]), the
    breadth-first work queue of [buildPropertyTree] and the renderer
    ([formatNodeToString], [formatPropertyTreeToString]).

    Modelling conventions.
    - A JavaScript string is the list of its UTF-16 code units ([jsstring]);
      [length], [take 50] and the comparison with a marker are then exactly
      [String.prototype.length], [slice(0, 50)] and [===].
    - A number is an IEEE-754 value ([spec_float] of the Standard Library).
    - The inspected object graph is a heap [loc -> container]; a container
      lists its own enumerable members in enumeration order, each with its
      property descriptor.  Accessors are run by the host: [invoke g w]
      gives the outcome of calling getter [g] in host state [w] and the host
      state after the call.  Accessors may keep state of their own (a
      counter, a clock) but do not restructure the graph under inspection.
    - A reference to a tree node is the path of child indices leading to it
      from the root node; a node that is attached nowhere is a path that
      leads nowhere, and writes through it are not visible from the root.
    - The [while] loop takes [fuel], an upper bound on its rounds, and gives
      [None] when the bound is reached with work left; every call is shown
      to return with enough fuel, and its result not to depend on the fuel.
    - The depth counter of the source is a number that starts at 0 and grows
      by one per level; it is kept as an integer, and compared as such with
      the integer value of [maxDepth] once [maxDepth] has passed the check.
    - Of what the source writes to the console, the text that
      [logPropertyTree] gives to [console.log] is kept; the warning of
      [getPropertyType] ([console.warn], which is never reached) is left
      out.
    - The walk is given twice.  The first model walks ordinary values:
      plain values, arrays and records with data and accessor properties,
      for which nothing but a getter throws; its [catch] blocks push the
      error node, and their report to [console.error] is left out.  The
      second, [Host], walks any value of the host, with the failures of the
      host's own operations: [Array.isArray] throws on a revoked proxy,
      also inside [processChild], which the [try] blocks enclose; reading
      [length] and listing the keys of a proxy may throw, outside of any
      [try]; a key may have lost its descriptor; and [console.error], which
      each [catch] block calls before it pushes the error node, may throw in
      its turn.  A run of [Host] that no error leaves is a run of the first
      model over the same graph, in which a read that ends in a [catch]
      block is the read of a getter that raises ([erase_heap],
      [erase_invoke]).  The statements on failure, on termination, on the
      children of a node and on error nodes are about [Host].

    The file gives the two models first, then the vocabulary of the
    statements, the lemmas, the tests of the repository replayed on the
    model, the claims, further properties of the code, and the statements
    on any host. *)

From Stdlib Require Import ZArith NArith List Lia Ascii String DecimalString.
From Stdlib Require Import Floats.SpecFloat.
From stdpp Require Import base list gmap sorting.

Local Open Scope Z_scope.

(** ** Strings *)

Definition jsstring := list N.

(** The code units of an ASCII literal. *)
Definition str (s : string) : jsstring :=
  map N_of_ascii (list_ascii_of_string s).

Definition LF : N := 10%N.           (* "\n" *)
Definition BACKSLASH : N := 92%N.
Definition DQUOTE : N := 34%N.
Definition BOX_UP_RIGHT : N := 9492%N.    (* U+2514 *)
Definition BOX_HORIZONTAL : N := 9472%N.  (* U+2500 *)
Definition BOX_VERT_RIGHT : N := 9500%N.  (* U+251C *)
Definition BOX_VERTICAL : N := 9474%N.    (* U+2502 *)

(** [Array.prototype.join] with a one-unit separator. *)
Fixpoint join (sep : N) (lines : list jsstring) : jsstring :=
  match lines with
  | [] => []
  | [l] => l
  | l :: rest => l ++ sep :: join sep rest
  end.

(** [s.replace(/\n/g, "\\n")]: every line feed becomes backslash, n. *)
Definition escape_newlines (s : jsstring) : jsstring :=
  flat_map (fun c => if (c =? LF)%N then [BACKSLASH; 110%N] else [c]) s.

Definition decimal_of_nat (n : nat) : jsstring :=
  str (NilEmpty.string_of_uint (Nat.to_uint n)).

Definition decimal_of_Z (z : Z) : jsstring :=
  str (NilEmpty.string_of_int (Z.to_int z)).

(** ** Constants *)

Definition CIRCULAR_REFERENCE_MARKER : jsstring := str "[Circular Reference]".
Definition ACCESS_ERROR_MARKER : jsstring := str "[Access Error]".

(** ** Values and the inspected heap *)

Definition loc := nat.
Definition getter := nat.
Definition number := spec_float.

Inductive JsValue :=
| JsUndefined
| JsNull
| JsBoolean (b : bool)
| JsNumber (n : number)
| JsString (s : jsstring)
| JsSymbol (description : option jsstring)
| JsBigInt (z : Z)
| JsFunction (f : loc)
| JsObject (l : loc).      (* a non-callable object: an array or a record *)

Inductive outcome :=
| Returns (v : JsValue)
| Raises.

(** What [Object.getOwnPropertyDescriptor] reports: a data descriptor with
    its value, or an accessor descriptor with or without a getter. *)
Inductive descriptor :=
| DataProperty (v : JsValue)
| AccessorProperty (get : option getter).

Inductive container :=
| Arr (elements : list descriptor)
| Obj (properties : list (jsstring * descriptor)).

Definition heap := loc -> container.

(** ** Core types *)

Inductive PropertyType :=
| Tobject | Tarray | Tstring | Tnumber | Tboolean | Tfunction
| Tsymbol | Tbigint | Tundefined | Tnull | Terror.

Definition PropertyType_text (t : PropertyType) : jsstring :=
  match t with
  | Tobject => str "object"
  | Tarray => str "array"
  | Tstring => str "string"
  | Tnumber => str "number"
  | Tboolean => str "boolean"
  | Tfunction => str "function"
  | Tsymbol => str "symbol"
  | Tbigint => str "bigint"
  | Tundefined => str "undefined"
  | Tnull => str "null"
  | Terror => str "error"
  end.

Unset Elimination Schemes.
Inductive PropertyTreeNode := mkNode {
  name : jsstring;
  type : PropertyType;
  value : option JsValue;
  children : option (list PropertyTreeNode)
}.
Set Elimination Schemes.

(** A reference to a node of the tree under construction. *)
Definition noderef := list nat.

Module WorkItem.
Record t := mk {
  obj : loc;
  name : jsstring;
  depth : Z;
  parent : noderef;
  visited : gset loc
}.
End WorkItem.

Inductive Error :=
| InvalidDepthError (depth : number).

Inductive completion (A : Type) :=
| Normal (a : A)
| Throw (e : Error).
Arguments Normal {A} a.
Arguments Throw {A} e.

#[global] Instance PropertyType_eq_dec : EqDecision PropertyType.
Proof. solve_decision. Defined.

(** ** Host operations on numbers *)

(** [Number.isInteger]: finite and without fractional part. *)
Definition Number_isInteger (x : number) : bool :=
  match x with
  | S754_zero _ => true
  | S754_finite _ m e =>
      if 0 <=? e then true else (Z.pos m mod 2 ^ (- e) =? 0)
  | S754_infinity _ | S754_nan => false
  end.

Definition number_zero : number := S754_zero false.

(** [x < 0] and [x === 0] on numbers. *)
Definition Number_lt0 (x : number) : bool := SFltb x number_zero.
Definition Number_eq0 (x : number) : bool := SFeqb x number_zero.

(** The mathematical value of an integral number. *)
Definition Number_toZ (x : number) : Z :=
  match x with
  | S754_finite s m e =>
      let a := if 0 <=? e then Z.pos m * 2 ^ e else Z.pos m / 2 ^ (- e) in
      if s then - a else a
  | _ => 0
  end.

(** ** Classification *)

Definition typeof (v : JsValue) : PropertyType :=
  match v with
  | JsUndefined => Tundefined
  | JsNull => Tobject
  | JsBoolean _ => Tboolean
  | JsNumber _ => Tnumber
  | JsString _ => Tstring
  | JsSymbol _ => Tsymbol
  | JsBigInt _ => Tbigint
  | JsFunction _ => Tfunction
  | JsObject _ => Tobject
  end.

Definition is_null (v : JsValue) : bool :=
  match v with JsNull => true | _ => false end.

Definition Array_isArray (h : heap) (v : JsValue) : bool :=
  match v with
  | JsObject l => match h l with Arr _ => true | Obj _ => false end
  | _ => false
  end.

Definition getPropertyType (h : heap) (v : JsValue) : PropertyType :=
  if is_null v then Tnull
  else if Array_isArray h v then Tarray
  else
    match typeof v with
    | Tstring | Tnumber | Tboolean | Tfunction
    | Tsymbol | Tbigint | Tundefined | Tobject => typeof v
    | _ => Terror
    end.

(** The test [t !== "object" && t !== "array" && t !== "function"]. *)
Definition carries_value (t : PropertyType) : bool :=
  negb (bool_decide (t = Tobject)) && negb (bool_decide (t = Tarray))
  && negb (bool_decide (t = Tfunction)).

(** ** Node references *)

Fixpoint node_at (path : noderef) (n : PropertyTreeNode) : option PropertyTreeNode :=
  match path with
  | [] => Some n
  | i :: p =>
      match children n with
      | Some cs => match cs !! i with Some c => node_at p c | None => None end
      | None => None
      end
  end.

Definition with_children (n : PropertyTreeNode) (cs : list PropertyTreeNode) :=
  mkNode (name n) (type n) (value n) (Some cs).

(** [parentNode.children?.push(childNode)] through the reference
    [parentNode]; nothing happens when the parent has no [children]. *)
Fixpoint children_push (parentNode : noderef) (childNode : PropertyTreeNode)
    (root : PropertyTreeNode) : PropertyTreeNode :=
  match parentNode with
  | [] =>
      match children root with
      | Some cs => with_children root (cs ++ [childNode])
      | None => root
      end
  | i :: p =>
      match children root with
      | Some cs => with_children root (alter (children_push p childNode) i cs)
      | None => root
      end
  end.

(** Where the next pushed child of [parentNode] will sit. *)
Definition next_index (parentNode : noderef) (root : PropertyTreeNode) : nat :=
  match node_at parentNode root with
  | Some n => match children n with Some cs => length cs | None => O end
  | None => O
  end.

(** ** Rendering *)

Section Render.

(** [String(x)] for a number and for an object or function: the host's. *)
Variable Number_toString : number -> jsstring.
Variable Object_toString : loc -> jsstring.

(** [String(v)]. *)
Definition String_of (v : JsValue) : jsstring :=
  match v with
  | JsUndefined => str "undefined"
  | JsNull => str "null"
  | JsBoolean b => if b then str "true" else str "false"
  | JsNumber n => Number_toString n
  | JsString s => s
  | JsSymbol d => str "Symbol(" ++ default [] d ++ str ")"
  | JsBigInt z => decimal_of_Z z
  | JsFunction l | JsObject l => Object_toString l
  end.

(** [v === marker] for a marker string. *)
Definition is_string (v : JsValue) (marker : jsstring) : bool :=
  match v with
  | JsString s => bool_decide (s = marker)
  | _ => false
  end.

(** The display of a string value: the two statements of the
    [typeof node.value === "string"] branch. *)
Definition display_text (s : jsstring) : jsstring :=
  let displayValue := take 50 (escape_newlines s) in
  DQUOTE :: displayValue
    ++ (if (50 <? length s)%nat then str "..." else []) ++ [DQUOTE].

(** What [formatNodeToString] appends to the node line after
    [name (type)]. *)
Definition value_suffix (node : PropertyTreeNode) : jsstring :=
  match value node with
  | Some v =>
      if is_string v CIRCULAR_REFERENCE_MARKER || is_string v ACCESS_ERROR_MARKER
      then str ": " ++ String_of v
      else if carries_value (type node) then
        match v with
        | JsString s => str ": " ++ display_text s
        | _ => str ": " ++ String_of v
        end
      else []
  | None => []
  end.

Definition connector (isLast : bool) : jsstring :=
  if isLast then [BOX_UP_RIGHT; BOX_HORIZONTAL] ++ str " "
  else [BOX_VERT_RIGHT; BOX_HORIZONTAL] ++ str " ".

Definition child_indent (isLast : bool) : jsstring :=
  if isLast then str "   " else BOX_VERTICAL :: str "  ".

Definition node_line (node : PropertyTreeNode) (indent : jsstring)
    (isLast : bool) : jsstring :=
  let prefix := indent ++ connector isLast in
  prefix ++ name node ++ str " (" ++ PropertyType_text (type node) ++ str ")"
    ++ value_suffix node.

(** [children.forEach((child, index) => lines.push(f(child, isLastChild)))]:
    the child at hand is the last one exactly when no sibling follows it
    ([index === children.length - 1]). *)
Fixpoint each_child (f : PropertyTreeNode -> bool -> jsstring)
    (cs : list PropertyTreeNode) : list jsstring :=
  match cs with
  | [] => []
  | child :: rest => f child (bool_decide (rest = [])) :: each_child f rest
  end.

Fixpoint formatNodeToString (node : PropertyTreeNode) (indent : jsstring)
    (isLast : bool) : jsstring :=
  let nodeLine := node_line node indent isLast in
  let childIndent := indent ++ child_indent isLast in
  let lines :=
    nodeLine ::
      match children node with
      | Some cs =>
          each_child (fun child isLastChild =>
                        formatNodeToString child childIndent isLastChild) cs
      | None => []
      end in
  join LF lines.

Definition formatPropertyTreeToString (rootNode : PropertyTreeNode) : jsstring :=
  formatNodeToString rootNode [] true.

End Render.

(** ** Building *)

Record state {W : Type} := mkState {
  world : W;
  rootNode : PropertyTreeNode;
  queue : list WorkItem.t
}.
Arguments state W : clear implicits.

Section Build.

Context {W : Type}.
(** Calling a getter: its outcome and the host state it leaves. *)
Variable invoke : getter -> W -> outcome * W.
Variable h : heap.

Definition set_world (w : W) (st : state W) : state W :=
  mkState W w (rootNode st) (queue st).
Definition set_queue (q : list WorkItem.t) (st : state W) : state W :=
  mkState W (world st) (rootNode st) q.

(** [container[key]]: the host's property read. *)
Definition Get (d : descriptor) (w : W) : outcome * W :=
  match d with
  | DataProperty v => (Returns v, w)
  | AccessorProperty (Some g) => invoke g w
  | AccessorProperty None => (Returns JsUndefined, w)
  end.

(** The resolution of a record member from its descriptor: the getter is
    called when there is one, a data descriptor gives its value, and
    anything else reads as [undefined]. *)
Definition resolve_descriptor (d : descriptor) (w : W) : outcome * W :=
  match d with
  | AccessorProperty (Some g) => Get d w
  | DataProperty v => (Returns v, w)
  | AccessorProperty None => (Returns JsUndefined, w)
  end.

Definition attach (parentNode : noderef) (childNode : PropertyTreeNode)
    (st : state W) : state W :=
  mkState W (world st) (children_push parentNode childNode (rootNode st)) (queue st).

(** The child node is written here in its final form: the source creates
    it, pushes it and then sets [value] and [children] through the same
    reference, and nothing reads it in between. *)
Definition processChild (parentNode : noderef) (keyOrIndex : jsstring)
    (v : JsValue) (currentDepth maxDepth : Z) (visited : gset loc)
    (st : state W) : state W :=
  let childName := keyOrIndex in
  let childType := getPropertyType h v in
  let childRef := parentNode ++ [next_index parentNode (rootNode st)] in
  let childValue := if carries_value childType then Some v else None in
  if (currentDepth + 1 <? maxDepth)
     && (bool_decide (childType = Tobject) || bool_decide (childType = Tarray))
     && negb (is_null v)
  then
    match v with
    | JsObject valueAsObjectOrArray =>
        if bool_decide (valueAsObjectOrArray ∈ visited) then
          attach parentNode
            (mkNode childName childType
               (Some (JsString CIRCULAR_REFERENCE_MARKER)) None) st
        else
          let childVisited := visited ∪ {[valueAsObjectOrArray]} in
          let item :=
            WorkItem.mk valueAsObjectOrArray childName (currentDepth + 1)
              childRef childVisited in
          set_queue (queue st ++ [item])
            (attach parentNode (mkNode childName childType childValue (Some [])) st)
    | _ => attach parentNode (mkNode childName childType childValue None) st
    end
  else attach parentNode (mkNode childName childType childValue None) st.

(** The node pushed by either [catch] block. *)
Definition error_node (nm : jsstring) : PropertyTreeNode :=
  mkNode nm Terror (Some (JsString ACCESS_ERROR_MARKER)) None.

Definition index_label (i : nat) : jsstring :=
  str "[" ++ decimal_of_nat i ++ str "]".

(** One round of the [for] loop over the elements of an array. *)
Definition visit_element (maxDepth : Z) (item : WorkItem.t) (i : nat)
    (d : descriptor) (st : state W) : state W :=
  match Get d (world st) with
  | (Returns childValue, w) =>
      processChild (WorkItem.parent item) (index_label i) childValue
        (WorkItem.depth item) maxDepth (WorkItem.visited item) (set_world w st)
  | (Raises, w) =>
      attach (WorkItem.parent item) (error_node (index_label i)) (set_world w st)
  end.

Fixpoint for_elements (maxDepth : Z) (item : WorkItem.t) (i : nat)
    (elements : list descriptor) (st : state W) : state W :=
  match elements with
  | [] => st
  | d :: rest =>
      for_elements maxDepth item (S i) rest (visit_element maxDepth item i d st)
  end.

(** One round of the [for] loop over the keys of a record. *)
Definition visit_key (maxDepth : Z) (item : WorkItem.t)
    (key : jsstring) (d : descriptor) (st : state W) : state W :=
  match resolve_descriptor d (world st) with
  | (Returns v, w) =>
      processChild (WorkItem.parent item) key v
        (WorkItem.depth item) maxDepth (WorkItem.visited item) (set_world w st)
  | (Raises, w) =>
      attach (WorkItem.parent item) (error_node key) (set_world w st)
  end.

Fixpoint for_keys (maxDepth : Z) (item : WorkItem.t)
    (properties : list (jsstring * descriptor)) (st : state W) : state W :=
  match properties with
  | [] => st
  | (key, d) :: rest =>
      for_keys maxDepth item rest (visit_key maxDepth item key d st)
  end.

(** The body of the [while] loop for the item just taken off the queue. *)
Definition process_item (maxDepth : Z) (item : WorkItem.t) (st : state W) : state W :=
  match h (WorkItem.obj item) with
  | Arr elements => for_elements maxDepth item O elements st
  | Obj properties => for_keys maxDepth item properties st
  end.

(** The [while (queue.length > 0)] loop; [None] when [fuel] rounds were
    not enough to empty the queue. *)
Fixpoint loop (fuel : nat) (maxDepth : Z) (st : state W) : option (state W) :=
  match queue st with
  | [] => Some st
  | item :: rest =>
      match fuel with
      | O => None
      | S fuel' => loop fuel' maxDepth (process_item maxDepth item (set_queue rest st))
      end
  end.

(** [buildPropertyTree(obj, maxDepth, rootName)] started in host state
    [w]: the completion of the call and the host state after it.  The
    depth counter and the bound are compared as integers. *)
Definition buildPropertyTree (fuel : nat) (obj : JsValue) (maxDepth : number)
    (rootName : jsstring) (w : W) : option (completion PropertyTreeNode * W) :=
  if Number_lt0 maxDepth || negb (Number_isInteger maxDepth) then
    Some (Throw (InvalidDepthError maxDepth), w)
  else
    let rootType := getPropertyType h obj in
    if carries_value rootType then
      Some (Normal (mkNode rootName rootType (Some obj) None), w)
    else if Number_eq0 maxDepth || is_null obj || bool_decide (rootType = Tfunction) then
      Some (Normal (mkNode rootName rootType None None), w)
    else
      match obj with
      | JsObject rootObjAsObjectOrArray =>
          let rootVisited : gset loc := ∅ ∪ {[rootObjAsObjectOrArray]} in
          let item := WorkItem.mk rootObjAsObjectOrArray rootName 0 [] rootVisited in
          let st := mkState W w (mkNode rootName rootType None (Some [])) [item] in
          match loop fuel (Number_toZ maxDepth) st with
          | Some st' => Some (Normal (rootNode st'), world st')
          | None => None
          end
      | _ => Some (Normal (mkNode rootName rootType None None), w)
      end.

(** The work items taken off the queue by [loop], in order, each with the
    host state at that moment. *)
Fixpoint dequeued (fuel : nat) (maxDepth : Z) (st : state W) : list (W * WorkItem.t) :=
  match queue st with
  | [] => []
  | item :: rest =>
      match fuel with
      | O => []
      | S fuel' =>
          (world st, item)
            :: dequeued fuel' maxDepth (process_item maxDepth item (set_queue rest st))
      end
  end.

End Build.

(** * Vocabulary of the proofs *)

(** ** Trees *)

(** The fields of a node other than the contents of [children]. *)
Definition shape (n : PropertyTreeNode) : jsstring * PropertyType * option JsValue * bool :=
  (name n, type n, value n, if children n is Some _ then true else false).

(** The shapes of the children of a node, when it has [children]. *)
Definition child_shapes (n : PropertyTreeNode)
    : option (list (jsstring * PropertyType * option JsValue * bool)) :=
  match children n with
  | Some cs => Some (shape <$> cs)
  | None => None
  end.

(** Several pushes through the same reference, as one step. *)
Fixpoint children_append (parentNode : noderef) (new : list PropertyTreeNode)
    (root : PropertyTreeNode) : PropertyTreeNode :=
  match parentNode with
  | [] =>
      match children root with
      | Some cs => with_children root (cs ++ new)
      | None => root
      end
  | i :: p =>
      match children root with
      | Some cs => with_children root (alter (children_append p new) i cs)
      | None => root
      end
  end.

(** The types of the nodes that may be expanded. *)
Definition container_kind (t : PropertyType) : Prop := t = Tobject \/ t = Tarray.

(** A value that is neither an object nor a function. *)
Definition primitive (v : JsValue) : Prop :=
  match v with
  | JsObject _ | JsFunction _ => False
  | _ => True
  end.

(** The properties of a node that sits [d] levels below the root of a tree
    built with depth bound [D]. *)
Record node_ok (D : Z) (d : nat) (n : PropertyTreeNode) : Prop := {
  ok_children : forall cs, children n = Some cs ->
      value n = None /\ container_kind (type n) /\ Z.of_nat d < D;
  ok_marker : container_kind (type n) -> forall v, value n = Some v ->
      v = JsString CIRCULAR_REFERENCE_MARKER /\ Z.of_nat d < D;
  ok_within : container_kind (type n) -> Z.of_nat d < D -> children n = None ->
      value n = Some (JsString CIRCULAR_REFERENCE_MARKER);
  ok_function : type n = Tfunction -> value n = None;
  ok_primitive : forall v, value n = Some v -> primitive v
}.

(** Induction on a tree, the property being known of all the children. *)
Fixpoint PropertyTreeNode_ind (P : PropertyTreeNode -> Prop)
    (Hleaf : forall nm ty v, P (mkNode nm ty v None))
    (Hnode : forall nm ty v cs, Forall P cs -> P (mkNode nm ty v (Some cs)))
    (t : PropertyTreeNode) : P t :=
  match t with
  | mkNode nm ty v None => Hleaf nm ty v
  | mkNode nm ty v (Some cs) =>
      Hnode nm ty v cs
        ((fix all (cs : list PropertyTreeNode) : Forall P cs :=
            match cs with
            | [] => Forall_nil_2 P
            | c :: cs' =>
                Forall_cons_2 P c cs' (PropertyTreeNode_ind P Hleaf Hnode c) (all cs')
            end) cs)
  end.

(** No node carries an object or a function as its value. *)
Definition plain (t : PropertyTreeNode) : Prop :=
  forall q n v, node_at q t = Some n -> value n = Some v -> primitive v.

(** ** Texts and numbers *)

(** A text that is not empty and does not end in a line feed. *)
Definition ends_well (s : jsstring) : Prop :=
  exists s' c, s = s' ++ [c] /\ c <> LF.

(** The suffix that the claim C3 describes for a text value [s]: the value
    with its line feeds escaped, cut to its first 50 code units, followed by
    three dots when the cut removed something, between double quotes. *)
Definition text_suffix_as_claimed (s : jsstring) : jsstring :=
  let escaped := escape_newlines s in
  let truncated := take 50 escaped in
  str ": " ++ [DQUOTE] ++ truncated
    ++ (if (length truncated <? length escaped)%nat then str "..." else [])
    ++ [DQUOTE].

(** A depth that passes the check of [buildPropertyTree]. *)
Definition valid_depth (maxDepth : number) : Prop :=
  Number_lt0 maxDepth = false /\ Number_isInteger maxDepth = true.

(** The number whose value is the integer [z]. *)
Definition number_of_Z (z : Z) : number :=
  match z with
  | Z0 => S754_zero false
  | Zpos p => S754_finite false p 0
  | Zneg p => S754_finite true p 0
  end.

(** ** Members, work items and runs *)

Section Vocabulary.

Context {W : Type}.
Variable invoke : getter -> W -> outcome * W.
Variable h : heap.

(** The members of a container as the loop meets them: label and descriptor. *)
Fixpoint labelled (i : nat) (elements : list descriptor) : list (jsstring * descriptor) :=
  match elements with
  | [] => []
  | d :: rest => (index_label i, d) :: labelled (S i) rest
  end.

(** The members of an array are its elements, labelled by their index in
    brackets; those of a record are its properties. *)
Definition members (c : container) : list (jsstring * descriptor) :=
  match c with
  | Arr elements => labelled O elements
  | Obj properties => properties
  end.

(** Reading the members one after the other, starting in host state [w]. *)
Fixpoint resolve_members (ms : list (jsstring * descriptor)) (w : W)
    : list (jsstring * outcome) * W :=
  match ms with
  | [] => ([], w)
  | (key, d) :: rest =>
      let (o, w1) := resolve_descriptor invoke d w in
      let (os, w2) := resolve_members rest w1 in
      ((key, o) :: os, w2)
  end.

(** The container that a member value sends to the queue, if any. *)
Definition enqueued_container (D : Z) (item : WorkItem.t) (o : outcome) : option loc :=
  match o with
  | Returns (JsObject l) =>
      if (WorkItem.depth item + 1 <? D) && negb (bool_decide (l ∈ WorkItem.visited item))
      then Some l else None
  | _ => None
  end.

(** The node that a member leaves among the children of the item's node. *)
Definition child_node (D : Z) (item : WorkItem.t) (lo : jsstring * outcome)
    : PropertyTreeNode :=
  match lo.2 with
  | Raises => error_node lo.1
  | Returns v =>
      let ty := getPropertyType h v in
      match v with
      | JsObject l =>
          if WorkItem.depth item + 1 <? D then
            if bool_decide (l ∈ WorkItem.visited item)
            then mkNode lo.1 ty (Some (JsString CIRCULAR_REFERENCE_MARKER)) None
            else mkNode lo.1 ty None (Some [])
          else mkNode lo.1 ty None None
      | _ => mkNode lo.1 ty (if carries_value ty then Some v else None) None
      end
  end.

(** The work item that a member puts on the queue, if any, its node
    sitting at [index] among the children of the item's node. *)
Definition child_item (D : Z) (item : WorkItem.t) (index : nat)
    (lo : jsstring * outcome) : list WorkItem.t :=
  match enqueued_container D item lo.2 with
  | Some l =>
      [WorkItem.mk l lo.1 (WorkItem.depth item + 1)
         (WorkItem.parent item ++ [index])
         (WorkItem.visited item ∪ {[l]})]
  | None => []
  end.

(** The items that a run of members puts on the queue, the first member
    sitting at index [base]. *)
Fixpoint new_items (D : Z) (item : WorkItem.t) (base : nat)
    (os : list (jsstring * outcome)) : list WorkItem.t :=
  match os with
  | [] => []
  | lo :: rest => child_item D item base lo ++ new_items D item (S base) rest
  end.

(** The outcomes of reading the members of the item's container,
    starting in host state [w]. *)
Definition outcomes (w : W) (item : WorkItem.t) : list (jsstring * outcome) :=
  (resolve_members (members (h (WorkItem.obj item))) w).1.

(** Every item met so far: those done, then those waiting. *)
Definition all_items (done : list (W * WorkItem.t)) (st : state W) : list WorkItem.t :=
  done.*2 ++ queue st.

(** The invariant of the loop, [done] being the items taken off the queue
    so far, each with the host state at that moment: every node is as
    [node_ok] says; the node of a waiting item has an empty [children]; the
    depth of an item is the length of its reference and below the bound; no
    two items share a reference; the children of the node of an item done
    are the nodes of the members of its container; the set [visited] of an
    item holds the containers of the items on the path to its node; and the
    containers sent to the queue have their items. *)
Record Inv (D : Z) (done : list (W * WorkItem.t)) (st : state W) : Prop := {
  inv_nodes : forall q n,
    node_at q (rootNode st) = Some n -> node_ok D (length q) n;
  inv_queue : forall item, item ∈ queue st ->
    exists n, node_at (WorkItem.parent item) (rootNode st) = Some n
              /\ children n = Some [];
  inv_depth : forall item, item ∈ all_items done st ->
    WorkItem.depth item = Z.of_nat (length (WorkItem.parent item))
    /\ WorkItem.depth item < D;
  inv_nodup : NoDup (WorkItem.parent <$> all_items done st);
  inv_done : forall w item, (w, item) ∈ done ->
    exists n, node_at (WorkItem.parent item) (rootNode st) = Some n
              /\ child_shapes n
                 = Some (shape <$> (child_node D item <$> outcomes w item));
  inv_visited : forall item, item ∈ all_items done st ->
    forall l, l ∈ WorkItem.visited item <->
      exists item', item' ∈ all_items done st
        /\ WorkItem.parent item' `prefix_of` WorkItem.parent item
        /\ WorkItem.obj item' = l;
  inv_enqueued : forall w item k lo l, (w, item) ∈ done ->
    outcomes w item !! k = Some lo ->
    enqueued_container D item lo.2 = Some l ->
    exists item', item' ∈ all_items done st
      /\ WorkItem.parent item' = WorkItem.parent item ++ [k]
      /\ WorkItem.obj item' = l
}.

(** The work item made for the argument of the call. *)
Definition root_item (rootName : jsstring) (r : loc) : WorkItem.t :=
  WorkItem.mk r rootName 0 [] (∅ ∪ {[r]}).

(** The state in which the loop is entered. *)
Definition initial_state (w : W) (rootName : jsstring) (r : loc) : state W :=
  mkState W w (mkNode rootName (getPropertyType h (JsObject r)) None (Some []))
    [root_item rootName r].

(** The work items that a call of [buildPropertyTree] takes off its
    queue, each with the host state at that moment. *)
Definition build_trace (fuel : nat) (obj : JsValue) (maxDepth : number)
    (rootName : jsstring) (w : W) : list (W * WorkItem.t) :=
  if Number_lt0 maxDepth || negb (Number_isInteger maxDepth) || Number_eq0 maxDepth
  then []
  else
    match obj with
    | JsObject r =>
        dequeued invoke h fuel (Number_toZ maxDepth) (initial_state w rootName r)
    | _ => []
    end.

End Vocabulary.

(** The outcome of reading the [k]-th member, of descriptor [d], of a
    container whose members [ms] are read in order from host state [w0] on. *)
Definition outcome_at {W : Type} (invoke : getter -> W -> outcome * W)
    (ms : list (jsstring * descriptor)) (w0 : W) (k : nat) (d : descriptor) : outcome :=
  (resolve_descriptor invoke d (resolve_members invoke (take k ms) w0).2).1.

(** What the node [c] made for a member named [key] looks like, by the
    outcome [o] of reading the member. *)
Definition member_node (h : heap) (key : jsstring) (o : outcome)
    (c : PropertyTreeNode) : Prop :=
  name c = key
  /\ match o with
     | Raises =>
         type c = Terror /\ value c = Some (JsString ACCESS_ERROR_MARKER)
         /\ children c = None
     | Returns v =>
         type c = getPropertyType h v
         /\ (carries_value (getPropertyType h v) = true ->
             value c = Some v /\ children c = None)
         /\ (getPropertyType h v = Tfunction -> value c = None /\ children c = None)
     end.

(** The children [cs] are the nodes of the members [ms], one for each and
    in the same order. *)
Definition members_match {W : Type} (invoke : getter -> W -> outcome * W)
    (h : heap) (ms : list (jsstring * descriptor)) (w0 : W)
    (cs : list PropertyTreeNode) : Prop :=
  length cs = length ms
  /\ forall k key d, ms !! k = Some (key, d) ->
       exists c, cs !! k = Some c /\ member_node h key (outcome_at invoke ms w0 k d) c.

(** The container [l] is the one expanded at the node of [item] or at one of
    the ancestors of that node. *)
Definition on_path {W : Type} (trace : list (W * WorkItem.t)) (item : WorkItem.t)
    (l : loc) : Prop :=
  exists w1 item', (w1, item') ∈ trace
    /\ WorkItem.parent item' `prefix_of` WorkItem.parent item
    /\ WorkItem.obj item' = l.

(** The outcome of a getter does not depend on the host state. *)
Definition stateless {W : Type} (invoke : getter -> W -> outcome * W) : Prop :=
  forall g wa wb, (invoke g wa).1 = (invoke g wb).1.

(** Two states of the loop that differ at most in the host state. *)
Definition same_tree_and_queue {W : Type} (st1 st2 : state W) : Prop :=
  rootNode st1 = rootNode st2 /\ queue st1 = queue st2.

(** The depth bound as the claim C2 states it. *)
Definition depth_bound_as_claimed (t : PropertyTreeNode) (D : Z) : Prop :=
  forall q n, node_at q t = Some n -> container_kind (type n) ->
    (children n <> None <-> Z.of_nat (length q) < D).

(** ** Worked inputs *)

(** A host without state, in which any getter raises. *)
Definition no_accessors : getter -> unit -> outcome * unit :=
  fun _ w => (Raises, w).

(** A host printer for trees that hold nothing for it to print. *)
Definition prints_nothing {A : Type} : A -> jsstring := fun _ => [].

(** A heap for calls whose argument is not an object. *)
Definition empty_heap : heap := fun _ => Obj [].

(** [const circularObj = { name: "Circular" }; circularObj.self = circularObj],
    at address 0. *)
Definition cyclic_heap : heap := fun l =>
  match l with
  | O => Obj [(str "name", DataProperty (JsString (str "Circular")));
              (str "self", DataProperty (JsObject O))]
  | _ => Obj []
  end.

(** The node of [circularObj.self] when it is within the depth bound. *)
Definition cyclic_self_node : PropertyTreeNode :=
  mkNode (str "self") Tobject (Some (JsString CIRCULAR_REFERENCE_MARKER)) None.

(** The tree built for [circularObj] with [maxDepth = 2]. *)
Definition cyclic_tree : PropertyTreeNode :=
  mkNode (str "root") Tobject None
    (Some [mkNode (str "name") Tstring (Some (JsString (str "Circular"))) None;
           cyclic_self_node]).

(** [{ safe: "ok", get problematic() { throw ... } }], at address 0, in a
    host whose only getter raises. *)
Definition getter_heap : heap := fun l =>
  match l with
  | O => Obj [(str "safe", DataProperty (JsString (str "ok")));
              (str "problematic", AccessorProperty (Some O))]
  | _ => Obj []
  end.

(** [{ set x(v) {} }], at address 0: a property with a setter and no getter. *)
Definition setter_heap : heap := fun l =>
  match l with
  | O => Obj [(str "x", AccessorProperty None)]
  | _ => Obj []
  end.

(** [{ a: { s: shared }, b: { s: shared } }] with [shared = { v: "x" }]:
    the record at address 3 is reached through [a] and through [b]. *)
Definition diamond_heap : heap := fun l =>
  match l with
  | 0%nat => Obj [(str "a", DataProperty (JsObject 1%nat));
                  (str "b", DataProperty (JsObject 2%nat))]
  | 1%nat => Obj [(str "s", DataProperty (JsObject 3%nat))]
  | 2%nat => Obj [(str "s", DataProperty (JsObject 3%nat))]
  | 3%nat => Obj [(str "v", DataProperty (JsString (str "x")))]
  | _ => Obj []
  end.

(** The subtree of [shared], as it appears under [a] and under [b]. *)
Definition shared_node : PropertyTreeNode :=
  mkNode (str "s") Tobject None
    (Some [mkNode (str "v") Tstring (Some (JsString (str "x"))) None]).

(** The tree built for the record that holds [shared] twice, with
    [maxDepth = 3]. *)
Definition diamond_tree : PropertyTreeNode :=
  mkNode (str "root") Tobject None
    (Some [mkNode (str "a") Tobject None (Some [shared_node]);
           mkNode (str "b") Tobject None (Some [shared_node])]).

(** The work items made for the records [a] and [b]. *)
Definition diamond_item_a : WorkItem.t :=
  WorkItem.mk 1%nat (str "a") 1 [0%nat] ((∅ ∪ {[0%nat]}) ∪ {[1%nat]}).

Definition diamond_item_b : WorkItem.t :=
  WorkItem.mk 2%nat (str "b") 1 [1%nat] ((∅ ∪ {[0%nat]}) ∪ {[2%nat]}).

(** A getter that answers "a" and "b" in turn: the host state is the
    parity of the calls made so far. *)
Definition alternating_getter : getter -> bool -> outcome * bool :=
  fun _ w => (Returns (JsString (if w then str "b" else str "a")), negb w).

(** [{ get x() { ... } }], at address 0. *)
Definition accessor_heap : heap := fun l =>
  match l with
  | O => Obj [(str "x", AccessorProperty (Some O))]
  | _ => Obj []
  end.

(** ** The inputs of the repository's tests *)

(** The code units of a literal written in this file, which is encoded in
    UTF-8 (the Basic Multilingual Plane is enough for the texts at hand); an
    apostrophe in the literal stands for a double quote. *)
Fixpoint utf8_units (bytes : list N) : jsstring :=
  match bytes with
  | [] => []
  | b0 :: rest =>
      if (b0 <? 128)%N then (if (b0 =? 39)%N then DQUOTE else b0) :: utf8_units rest
      else if (b0 <? 224)%N then
        match rest with
        | b1 :: rest' => ((b0 - 192) * 64 + (b1 - 128))%N :: utf8_units rest'
        | _ => []
        end
      else
        match rest with
        | b1 :: b2 :: rest' =>
            ((b0 - 224) * 4096 + (b1 - 128) * 64 + (b2 - 128))%N :: utf8_units rest'
        | _ => []
        end
  end.

(** The expected text of a test, as written in the test. *)
Definition text (s : string) : jsstring := utf8_units (str s).

(** [String(x)] for a number that is an integer; the tests print no other. *)
Definition print_integral (x : number) : jsstring := decimal_of_Z (Number_toZ x).

(** The long string of the truncation test. *)
Definition test_long_string : jsstring :=
  str "This is a very long string that definitely exceeds the fifty character limit set for display purposes.".

(** The objects of the tests, by address:
    10 [{ a: 1, b: "bee" }], 11 [[true, 42]],
    12 [{ data: [null, { val: "x" }] }] (with 13 and 14),
    15 [{ level1: { level2: "hi" } }] (with 16),
    17 [{ myFunc: () => {} }] (the function at 18), 19 [{}], 20 [[]],
    21 [{ long: longString, multi: "First line\nSecond line" }]. *)
Definition test_heap : heap := fun l =>
  match l with
  | 10%nat => Obj [(str "a", DataProperty (JsNumber (number_of_Z 1)));
                   (str "b", DataProperty (JsString (str "bee")))]
  | 11%nat => Arr [DataProperty (JsBoolean true);
                   DataProperty (JsNumber (number_of_Z 42))]
  | 12%nat => Obj [(str "data", DataProperty (JsObject 13%nat))]
  | 13%nat => Arr [DataProperty JsNull; DataProperty (JsObject 14%nat)]
  | 14%nat => Obj [(str "val", DataProperty (JsString (str "x")))]
  | 15%nat => Obj [(str "level1", DataProperty (JsObject 16%nat))]
  | 16%nat => Obj [(str "level2", DataProperty (JsString (str "hi")))]
  | 17%nat => Obj [(str "myFunc", DataProperty (JsFunction 18%nat))]
  | 19%nat => Obj []
  | 20%nat => Arr []
  | 21%nat => Obj [(str "long", DataProperty (JsString test_long_string));
                   (str "multi",
                    DataProperty (JsString (str "First line" ++ [LF] ++ str "Second line")))]
  | _ => Obj []
  end.

(** [formatPropertyTreeToString(buildPropertyTree(obj, maxDepth))] in a host
    without stateful accessors, [None] standing for a call that throws. *)
Definition test_render (h : heap) (obj : JsValue) (maxDepth : Z) : option jsstring :=
  match buildPropertyTree no_accessors h 10 obj (number_of_Z maxDepth) (str "root") tt with
  | Some (Normal t, _) => Some (formatPropertyTreeToString print_integral prints_nothing t)
  | _ => None
  end.

(** ** Logging *)

Section Log.

Context {W : Type}.
Variable invoke : getter -> W -> outcome * W.
Variable h : heap.
Variable Number_toString : number -> jsstring.
Variable Object_toString : loc -> jsstring.

(** [logPropertyTree(obj, maxDepth = 3, rootName = "root")], an argument
    left out being [None]; [console] holds the texts given to [console.log]
    so far, oldest first. *)
Definition logPropertyTree (fuel : nat) (obj : JsValue) (maxDepth : option number)
    (rootName : option jsstring) (w : W) (console : list jsstring)
    : option (completion unit * W * list jsstring) :=
  let maxDepth := default (number_of_Z 3) maxDepth in
  let rootName := default (str "root") rootName in
  match buildPropertyTree invoke h fuel obj maxDepth rootName w with
  | Some (Normal tree, w') =>
      Some (Normal tt, w',
            console ++ [formatPropertyTreeToString Number_toString Object_toString tree])
  | Some (Throw e, w') => Some (Throw e, w', console)
  | None => None
  end.

End Log.

(** ** Vocabulary of the further properties *)

(** The host state after reading the members of the containers of [items],
    one container after the other, from host state [w] on. *)
Definition reads {W : Type} (invoke : getter -> W -> outcome * W) (h : heap)
    (w : W) (items : list WorkItem.t) : W :=
  fold_left (fun w item => (resolve_members invoke (members (h (WorkItem.obj item))) w).2)
    items w.

(** The number of members of the containers of [items], all together. *)
Definition members_read (h : heap) (items : list WorkItem.t) : nat :=
  list_sum (map (fun item => length (members (h (WorkItem.obj item)))) items).

(** The queue holds the items of at most two consecutive levels, those of
    the lower level first; the items done before are of no higher level. *)
Definition by_level {W : Type} (done : list (W * WorkItem.t)) (st : state W) : Prop :=
  StronglySorted Z.le (WorkItem.depth <$> (done.*2 ++ queue st))
  /\ forall x y, x ∈ queue st -> y ∈ queue st ->
       WorkItem.depth y <= WorkItem.depth x + 1.

(** The tree [t] without what lies more than [k] levels below its root:
    the nodes of level [k] lose their children and, when they are of type
    object or array, their value (the circular-reference marker). *)
Fixpoint truncate (k : nat) (t : PropertyTreeNode) : PropertyTreeNode :=
  match k with
  | O =>
      mkNode (name t) (type t)
        (if bool_decide (type t = Tobject) || bool_decide (type t = Tarray)
         then None else value t)
        None
  | S k' =>
      mkNode (name t) (type t) (value t)
        (match children t with
         | Some cs => Some (truncate k' <$> cs)
         | None => None
         end)
  end.

(** The run with the greater bound [D2], as seen from the run with the
    lesser bound [D1]: it is in the same host state, its tree without the
    levels below [D1] is the tree of the other, and its queue holds the same
    items, followed by items of the levels that the other will not expand. *)
Definition ahead {W : Type} (invoke : getter -> W -> outcome * W) (h : heap)
    (D1 D2 : Z) (init2 : state W) (done1 : list (W * WorkItem.t)) (st1 : state W) : Prop :=
  by_level done1 st1
  /\ exists done2 st2 extra,
       Inv invoke h D2 done2 st2
       /\ (forall fuel, loop invoke h (length done1 + fuel) D2 init2
                        = loop invoke h fuel D2 st2)
       /\ world st1 = world st2
       /\ rootNode st1 = truncate (Z.to_nat D1) (rootNode st2)
       /\ queue st2 = queue st1 ++ extra
       /\ (forall y, y ∈ extra -> D1 <= WorkItem.depth y)
       /\ (extra <> [] -> forall x, x ∈ queue st1 -> D1 <= WorkItem.depth x + 1).

(** The number of nodes of a tree. *)
Fixpoint node_count (t : PropertyTreeNode) : nat :=
  match children t with
  | Some cs => S (list_sum (map node_count cs))
  | None => 1
  end.

(** The number of lines of a text: one more than its line feeds. *)
Definition line_count (s : jsstring) : nat := S (count_occ N.eq_dec s LF).

(** A node whose name holds no line feed, and whose value, unless it is a
    string, is printed by [String] without one. *)
Definition one_line_node (Number_toString : number -> jsstring)
    (Object_toString : loc -> jsstring) (n : PropertyTreeNode) : Prop :=
  (LF ∉ name n)
  /\ forall v, value n = Some v -> (forall s, v <> JsString s) ->
       LF ∉ String_of Number_toString Object_toString v.

(** The text [s] with [indent] put in front of each of its lines. *)
Definition indent_lines (indent s : jsstring) : jsstring :=
  indent ++ flat_map (fun c => if (c =? LF)%N then LF :: indent else [c]) s.

(** * Any host *)

(** The functions above walk ordinary values: plain values, arrays and
    records with data and accessor properties, for which nothing but a
    getter throws.  [Host] gives the same functions over any value of the
    host, with the failures of the host's own operations: [Array.isArray]
    throws on a revoked proxy; reading [length] or listing the keys of a
    proxy may throw, outside of any [try]; and [console.error], called in
    each [catch] block, may throw in its turn.  The graph under inspection
    is still the same for the whole walk. *)

Module Host.

(** What the host throws: its own [TypeError], or a value of the program
    under inspection, told by its number. *)
Inductive thrown :=
| TypeError
| Thrown (id : nat).

Inductive outcome :=
| Returns (v : JsValue)
| Raises (e : thrown).

(** An array, a record, a proxy on which [length] (when it stands for an
    array) or the listing of the keys (when it does not) throws, or a
    revoked proxy.  A record lists the keys that [Object.keys] gives, each
    with what [Object.getOwnPropertyDescriptor] finds for it, which is
    nothing for a key whose descriptor is gone. *)
Inductive container :=
| Arr (elements : list descriptor)
| Obj (properties : list (jsstring * option descriptor))
| Guarded (isArray : bool) (e : thrown)
| Revoked.

Definition heap := loc -> container.

Inductive Error :=
| InvalidDepthError (depth : number)
| Uncaught (e : thrown).

Inductive completion (A : Type) :=
| Normal (a : A)
| Throw (e : Error).
Arguments Normal {A} a.
Arguments Throw {A} e.

(** The result of a call that may throw. *)
Inductive attempt (A : Type) :=
| Ok (a : A)
| Err (e : thrown).
Arguments Ok {A} a.
Arguments Err {A} e.

(** The state of the loop after a statement, or the error that leaves the
    loop and the host state at that moment. *)
Inductive step (W : Type) :=
| Continue (st : state W)
| Abort (e : thrown) (w : W).
Arguments Continue {W} st.
Arguments Abort {W} e w.

(** [Array.isArray(v)]; a revoked proxy makes it throw. *)
Definition Array_isArray (h : heap) (v : JsValue) : attempt bool :=
  match v with
  | JsObject l =>
      match h l with
      | Arr _ => Ok true
      | Obj _ => Ok false
      | Guarded isArray _ => Ok isArray
      | Revoked => Err TypeError
      end
  | _ => Ok false
  end.

Definition getPropertyType (h : heap) (v : JsValue) : attempt PropertyType :=
  if is_null v then Ok Tnull
  else
    match Array_isArray h v with
    | Err e => Err e
    | Ok true => Ok Tarray
    | Ok false =>
        match typeof v with
        | Tstring | Tnumber | Tboolean | Tfunction
        | Tsymbol | Tbigint | Tundefined | Tobject => Ok (typeof v)
        | _ => Ok Terror
        end
    end.

(** The first argument of [console.error] in the two [catch] blocks. *)
Definition element_message (i : nat) : jsstring :=
  str "Error processing array element at index " ++ decimal_of_nat i ++ str ":".

Definition property_message (key : jsstring) : jsstring :=
  str "Error accessing property " ++ [DQUOTE] ++ key ++ [DQUOTE] ++ str ":".

Section Build.

Context {W : Type}.
(** Calling a getter: its outcome and the host state it leaves. *)
Variable invoke : getter -> W -> outcome * W.
(** [console.error(message, error)] in a host state: [None] when it
    returns, the value it throws otherwise.  What it writes is left out,
    and the host state that the getters see is left as it is. *)
Variable console_error : jsstring -> thrown -> W -> option thrown.
Variable h : heap.

(** [container[key]]: the host's property read. *)
Definition Get (d : descriptor) (w : W) : outcome * W :=
  match d with
  | DataProperty v => (Returns v, w)
  | AccessorProperty (Some g) => invoke g w
  | AccessorProperty None => (Returns JsUndefined, w)
  end.

(** The three branches on the descriptor of a key. *)
Definition resolve_descriptor (d : descriptor) (w : W) : outcome * W :=
  match d with
  | AccessorProperty (Some g) => Get d w
  | DataProperty v => (Returns v, w)
  | AccessorProperty None => (Returns JsUndefined, w)
  end.

(** [processChild]: the classification of the value comes first, and may
    throw; nothing has been pushed by then. *)
Definition processChild (parentNode : noderef) (keyOrIndex : jsstring)
    (v : JsValue) (currentDepth maxDepth : Z) (visited : gset loc)
    (st : state W) : attempt (state W) :=
  let childName := keyOrIndex in
  match getPropertyType h v with
  | Err e => Err e
  | Ok childType =>
      let childRef := parentNode ++ [next_index parentNode (rootNode st)] in
      let childValue := if carries_value childType then Some v else None in
      if (currentDepth + 1 <? maxDepth)
         && (bool_decide (childType = Tobject) || bool_decide (childType = Tarray))
         && negb (is_null v)
      then
        match v with
        | JsObject valueAsObjectOrArray =>
            if bool_decide (valueAsObjectOrArray ∈ visited) then
              Ok (attach parentNode
                    (mkNode childName childType
                       (Some (JsString CIRCULAR_REFERENCE_MARKER)) None) st)
            else
              let childVisited := visited ∪ {[valueAsObjectOrArray]} in
              let item :=
                WorkItem.mk valueAsObjectOrArray childName (currentDepth + 1)
                  childRef childVisited in
              Ok (set_queue (queue st ++ [item])
                    (attach parentNode (mkNode childName childType childValue (Some [])) st))
        | _ => Ok (attach parentNode (mkNode childName childType childValue None) st)
        end
      else Ok (attach parentNode (mkNode childName childType childValue None) st)
  end.

(** A [catch] block: the error is given to [console.error], and the error
    node is pushed when that call returns. *)
Definition catch (message nm : jsstring) (parentNode : noderef) (e : thrown)
    (st : state W) : step W :=
  match console_error message e (world st) with
  | Some e' => Abort e' (world st)
  | None => Continue (attach parentNode (error_node nm) st)
  end.

(** One round of the [for] loop over the elements of an array: the read
    and [processChild] are inside the [try]. *)
Definition visit_element (maxDepth : Z) (item : WorkItem.t) (i : nat)
    (d : descriptor) (st : state W) : step W :=
  match Get d (world st) with
  | (Returns childValue, w) =>
      match processChild (WorkItem.parent item) (index_label i) childValue
              (WorkItem.depth item) maxDepth (WorkItem.visited item) (set_world w st) with
      | Ok st' => Continue st'
      | Err e =>
          catch (element_message i) (index_label i) (WorkItem.parent item) e (set_world w st)
      end
  | (Raises e, w) =>
      catch (element_message i) (index_label i) (WorkItem.parent item) e (set_world w st)
  end.

(** The [for] loop over an array.  The source reads [length] anew at each
    round; the graph being the same for the whole walk, it finds the same
    number each time. *)
Fixpoint for_elements (maxDepth : Z) (item : WorkItem.t) (i : nat)
    (elements : list descriptor) (st : state W) : step W :=
  match elements with
  | [] => Continue st
  | d :: rest =>
      match visit_element maxDepth item i d st with
      | Continue st' => for_elements maxDepth item (S i) rest st'
      | Abort e w => Abort e w
      end
  end.

(** One round of the [for] loop over the keys of a record; [descriptor] is
    what [Object.getOwnPropertyDescriptor] gives for the key, and a key
    without descriptor is passed over. *)
Definition visit_key (maxDepth : Z) (item : WorkItem.t)
    (key : jsstring) (descriptor : option descriptor) (st : state W) : step W :=
  match descriptor with
  | Some d =>
      match resolve_descriptor d (world st) with
      | (Returns v, w) =>
          match processChild (WorkItem.parent item) key v
                  (WorkItem.depth item) maxDepth (WorkItem.visited item) (set_world w st) with
          | Ok st' => Continue st'
          | Err e =>
              catch (property_message key) key (WorkItem.parent item) e (set_world w st)
          end
      | (Raises e, w) =>
          catch (property_message key) key (WorkItem.parent item) e (set_world w st)
      end
  | None => Continue st
  end.

(** The [for] loop over the keys. *)
Fixpoint for_keys (maxDepth : Z) (item : WorkItem.t)
    (properties : list (jsstring * option descriptor)) (st : state W) : step W :=
  match properties with
  | [] => Continue st
  | (key, descriptor) :: rest =>
      match visit_key maxDepth item key descriptor st with
      | Continue st' => for_keys maxDepth item rest st'
      | Abort e w => Abort e w
      end
  end.

(** The body of the [while] loop.  [Array.isArray], the read of [length]
    and [Object.keys] are outside of any [try]: what they throw leaves the
    loop. *)
Definition process_item (maxDepth : Z) (item : WorkItem.t) (st : state W) : step W :=
  match h (WorkItem.obj item) with
  | Arr elements => for_elements maxDepth item O elements st
  | Obj properties => for_keys maxDepth item properties st
  | Guarded _ e => Abort e (world st)
  | Revoked => Abort TypeError (world st)
  end.

Fixpoint loop (fuel : nat) (maxDepth : Z) (st : state W) : option (step W) :=
  match queue st with
  | [] => Some (Continue st)
  | item :: rest =>
      match fuel with
      | O => None
      | S fuel' =>
          match process_item maxDepth item (set_queue rest st) with
          | Continue st' => loop fuel' maxDepth st'
          | Abort e w => Some (Abort e w)
          end
      end
  end.

(** [buildPropertyTree(obj, maxDepth, rootName)] started in host state
    [w]. *)
Definition buildPropertyTree (fuel : nat) (obj : JsValue) (maxDepth : number)
    (rootName : jsstring) (w : W) : option (completion PropertyTreeNode * W) :=
  if Number_lt0 maxDepth || negb (Number_isInteger maxDepth) then
    Some (Throw (InvalidDepthError maxDepth), w)
  else
    match getPropertyType h obj with
    | Err e => Some (Throw (Uncaught e), w)
    | Ok rootType =>
        if carries_value rootType then
          Some (Normal (mkNode rootName rootType (Some obj) None), w)
        else if Number_eq0 maxDepth || is_null obj || bool_decide (rootType = Tfunction) then
          Some (Normal (mkNode rootName rootType None None), w)
        else
          match obj with
          | JsObject rootObjAsObjectOrArray =>
              let rootVisited : gset loc := ∅ ∪ {[rootObjAsObjectOrArray]} in
              let item := WorkItem.mk rootObjAsObjectOrArray rootName 0 [] rootVisited in
              let st := mkState W w (mkNode rootName rootType None (Some [])) [item] in
              match loop fuel (Number_toZ maxDepth) st with
              | Some (Continue st') => Some (Normal (rootNode st'), world st')
              | Some (Abort e w') => Some (Throw (Uncaught e), w')
              | None => None
              end
          | _ => Some (Normal (mkNode rootName rootType None None), w)
          end
    end.

(** The work items taken off the queue by [loop], in order, each with the
    host state at that moment. *)
Fixpoint dequeued (fuel : nat) (maxDepth : Z) (st : state W) : list (W * WorkItem.t) :=
  match queue st with
  | [] => []
  | item :: rest =>
      match fuel with
      | O => []
      | S fuel' =>
          (world st, item)
            :: match process_item maxDepth item (set_queue rest st) with
               | Continue st' => dequeued fuel' maxDepth st'
               | Abort _ _ => []
               end
      end
  end.

End Build.

End Host.

(** ** A walk over any host, seen as a walk over ordinary values *)

(** A value on which [Array.isArray] throws. *)
Definition revoked (h : Host.heap) (v : JsValue) : bool :=
  match v with
  | JsObject l => match h l with Host.Revoked => true | _ => false end
  | _ => false
  end.

(** A read that ends in the [catch] block either raised or gave a value
    that cannot be classified; seen from the tree, both are a read that
    raised. *)
Definition erase_outcome (h : Host.heap) (o : Host.outcome) : outcome :=
  match o with
  | Host.Returns v => if revoked h v then Raises else Returns v
  | Host.Raises _ => Raises
  end.

(** Getter 0 stands for the read of a data property that cannot be
    classified; the getters of the host come after it. *)
Definition erase_descriptor (h : Host.heap) (d : descriptor) : descriptor :=
  match d with
  | DataProperty v => if revoked h v then AccessorProperty (Some O) else DataProperty v
  | AccessorProperty (Some g) => AccessorProperty (Some (S g))
  | AccessorProperty None => AccessorProperty None
  end.

Definition erase_invoke {W : Type} (h : Host.heap)
    (invoke : getter -> W -> Host.outcome * W) : getter -> W -> outcome * W :=
  fun g w =>
    match g with
    | O => (Raises, w)
    | S g' => let (o, w') := invoke g' w in (erase_outcome h o, w')
    end.

Definition erase_member (h : Host.heap) (m : jsstring * descriptor) : jsstring * descriptor :=
  (m.1, erase_descriptor h m.2).

(** The keys that have a descriptor, with it. *)
Definition described (properties : list (jsstring * option descriptor))
    : list (jsstring * descriptor) :=
  omap (fun m => match m.2 with Some d => Some (m.1, d) | None => None end) properties.

Definition erase_heap (h : Host.heap) : heap := fun l =>
  match h l with
  | Host.Arr elements => Arr (erase_descriptor h <$> elements)
  | Host.Obj properties => Obj (erase_member h <$> described properties)
  | Host.Guarded true _ => Arr []
  | Host.Guarded false _ => Obj []
  | Host.Revoked => Obj []
  end.

(** ** Vocabulary of the statements on any host *)

(** The members of a container that the loop reads: label and
    descriptor.  The members of an array are its elements, labelled by their
    index in brackets; those of a record are its keys that have a
    descriptor.  A container whose members cannot be listed has none. *)
Definition Host_members (c : Host.container) : list (jsstring * descriptor) :=
  match c with
  | Host.Arr elements => labelled O elements
  | Host.Obj properties => described properties
  | _ => []
  end.

(** What reading a member gives in host state [w], by the descriptor of
    the member: the value of a data property, what the getter of an
    accessor property returns or throws, and [undefined] for an accessor
    property without getter. *)
Definition Host_read {W : Type} (invoke : getter -> W -> Host.outcome * W)
    (d : descriptor) (w : W) : Host.outcome :=
  match d with
  | DataProperty v => Host.Returns v
  | AccessorProperty (Some g) => (invoke g w).1
  | AccessorProperty None => Host.Returns JsUndefined
  end.

(** The host state after the members [ms] were read in order, from host
    state [w] on: the getters among them were called, one after the other. *)
Fixpoint after_reads {W : Type} (invoke : getter -> W -> Host.outcome * W)
    (ms : list (jsstring * descriptor)) (w : W) : W :=
  match ms with
  | [] => w
  | (_, AccessorProperty (Some g)) :: rest => after_reads invoke rest (invoke g w).2
  | _ :: rest => after_reads invoke rest w
  end.

(** The type of a value, told from the value itself: [null], an array,
    any other object, a function, or the type of the plain value; a revoked
    proxy has none, [Array.isArray] throwing on it. *)
Definition kind_of (h : Host.heap) (v : JsValue) : option PropertyType :=
  match v with
  | JsUndefined => Some Tundefined
  | JsNull => Some Tnull
  | JsBoolean _ => Some Tboolean
  | JsNumber _ => Some Tnumber
  | JsString _ => Some Tstring
  | JsSymbol _ => Some Tsymbol
  | JsBigInt _ => Some Tbigint
  | JsFunction _ => Some Tfunction
  | JsObject l =>
      match h l with
      | Host.Arr _ | Host.Guarded true _ => Some Tarray
      | Host.Obj _ | Host.Guarded false _ => Some Tobject
      | Host.Revoked => None
      end
  end.

(** The node [c] that stands, under the node of [item], for a member named
    [key] whose read gave [o]; [expanded l] says that the container [l] was
    taken off the queue for the node [c].  A read that raised, or that gave
    a revoked proxy, leaves an access-error node.  Any other value leaves a
    node of its type, as [kind_of] tells it: a plain value is held by the
    node; a function leaves the bare node; an object or an array leaves the
    bare node beyond the depth bound [D], a node marked as a circular
    reference when it is among the containers [visited] on the way, and an
    expanded node otherwise. *)
Definition expected_node (h : Host.heap) (D : Z) (item : WorkItem.t) (key : jsstring)
    (o : Host.outcome) (expanded : loc -> Prop) (c : PropertyTreeNode) : Prop :=
  name c = key
  /\ match o with
     | Host.Raises _ =>
         type c = Terror /\ value c = Some (JsString ACCESS_ERROR_MARKER)
         /\ children c = None
     | Host.Returns v =>
         match kind_of h v with
         | None =>
             type c = Terror /\ value c = Some (JsString ACCESS_ERROR_MARKER)
             /\ children c = None
         | Some ty =>
             type c = ty
             /\ match v with
                | JsObject l =>
                    if WorkItem.depth item + 1 <? D then
                      if bool_decide (l ∈ WorkItem.visited item) then
                        value c = Some (JsString CIRCULAR_REFERENCE_MARKER)
                        /\ children c = None
                      else value c = None /\ children c <> None /\ expanded l
                    else value c = None /\ children c = None
                | JsFunction _ => value c = None /\ children c = None
                | _ => value c = Some v /\ children c = None
                end
         end
     end.

(** The work items that a call of [Host.buildPropertyTree] takes off its
    queue, each with the host state at that moment. *)
Definition Host_build_trace {W : Type} (invoke : getter -> W -> Host.outcome * W)
    (console_error : jsstring -> Host.thrown -> W -> option Host.thrown) (h : Host.heap)
    (fuel : nat) (obj : JsValue) (maxDepth : number) (rootName : jsstring) (w : W)
    : list (W * WorkItem.t) :=
  if Number_lt0 maxDepth || negb (Number_isInteger maxDepth) || Number_eq0 maxDepth
  then []
  else
    match Host.getPropertyType h obj with
    | Host.Ok rootType =>
        match obj with
        | JsObject r =>
            Host.dequeued invoke console_error h fuel (Number_toZ maxDepth)
              (mkState W w (mkNode rootName rootType None (Some []))
                 [root_item rootName r])
        | _ => []
        end
    | Host.Err _ => []
    end.

(** A host whose [console.error] always returns. *)
Definition quiet {W : Type} (console_error : jsstring -> Host.thrown -> W -> option Host.thrown)
    : Prop :=
  forall message e w, console_error message e w = None.

(** A container whose members can be listed. *)
Definition enumerable (h : Host.heap) (l : loc) : Prop :=
  match h l with
  | Host.Arr _ | Host.Obj _ => True
  | _ => False
  end.

(** What ends a read in the [catch] block. *)
Definition failure (h : Host.heap) (o : Host.outcome) : option Host.thrown :=
  match o with
  | Host.Raises e => Some e
  | Host.Returns v => if revoked h v then Some Host.TypeError else None
  end.

(** The host state after the members of the containers of [items] were
    read, one container after the other, from host state [w] on. *)
Definition Host_reads {W : Type} (invoke : getter -> W -> Host.outcome * W)
    (h : Host.heap) (w : W) (items : list WorkItem.t) : W :=
  fold_left (fun w item => after_reads invoke (Host_members (h (WorkItem.obj item))) w)
    items w.

(** No container on the queue is a revoked proxy. *)
Definition classified {W : Type} (h : Host.heap) (st : state W) : Prop :=
  forall item, item ∈ queue st -> h (WorkItem.obj item) <> Host.Revoked.

(** What a getter returns or throws does not depend on the host state. *)
Definition Host_stateless {W : Type} (invoke : getter -> W -> Host.outcome * W) : Prop :=
  forall g wa wb, (invoke g wa).1 = (invoke g wb).1.

(** ** Worked inputs on any host *)

(** A host without state, in which any getter throws the value number 0
    of the program, [e] below. *)
Definition throwing_getters : getter -> unit -> Host.outcome * unit :=
  fun _ w => (Host.Raises (Host.Thrown O), w).

(** A [console.error] that returns. *)
Definition silent_console {W : Type} : jsstring -> Host.thrown -> W -> option Host.thrown :=
  fun _ _ _ => None.

(** A [console.error] that throws when it prints a value of the inspected
    program: printing it runs code of the program, which throws the value
    number 1. *)
Definition hostile_console : jsstring -> Host.thrown -> unit -> option Host.thrown :=
  fun _ e _ =>
    match e with
    | Host.Thrown _ => Some (Host.Thrown 1%nat)
    | Host.TypeError => None
    end.

(** A revoked proxy, at any address. *)
Definition revoked_heap : Host.heap := fun _ => Host.Revoked.

(** At address 0,
    [{ safe: "ok", get problematic() { throw e }, inner: { v: "x" }, gone: p }]
    with the record [inner] at address 1, which also lists a key [lost]
    whose descriptor is gone, and a revoked proxy [p] at address 2; at
    address 3, [{ get problematic() { throw e }, locked: q }] with, at
    address 4, a proxy [q] whose [ownKeys] trap throws the value number
    2. *)
Definition hostile_heap : Host.heap := fun l =>
  match l with
  | 0%nat => Host.Obj [(str "safe", Some (DataProperty (JsString (str "ok"))));
                       (str "problematic", Some (AccessorProperty (Some O)));
                       (str "inner", Some (DataProperty (JsObject 1%nat)));
                       (str "gone", Some (DataProperty (JsObject 2%nat)))]
  | 1%nat => Host.Obj [(str "lost", None);
                       (str "v", Some (DataProperty (JsString (str "x"))))]
  | 2%nat => Host.Revoked
  | 3%nat => Host.Obj [(str "problematic", Some (AccessorProperty (Some O)));
                       (str "locked", Some (DataProperty (JsObject 4%nat)))]
  | 4%nat => Host.Guarded false (Host.Thrown 2%nat)
  | _ => Host.Obj []
  end.

(** The tree built for the record at address 0 of [hostile_heap] with
    [maxDepth = 2], when [console.error] returns. *)
Definition hostile_tree : PropertyTreeNode :=
  mkNode (str "root") Tobject None
    (Some [mkNode (str "safe") Tstring (Some (JsString (str "ok"))) None;
           error_node (str "problematic");
           mkNode (str "inner") Tobject None
             (Some [mkNode (str "v") Tstring (Some (JsString (str "x"))) None]);
           error_node (str "gone")]).

(** A getter that answers "a" each time and counts its calls in the host
    state. *)
Definition counting_getter : getter -> nat -> Host.outcome * nat :=
  fun _ w => (Host.Returns (JsString (str "a")), S w).

(** A getter that answers "a" and "b" in turn: the host state is the
    parity of the calls made so far. *)
Definition turning_getter : getter -> bool -> Host.outcome * bool :=
  fun _ w => (Host.Returns (JsString (if w then str "b" else str "a")), negb w).

(** [{ get x() { ... } }], at address 0. *)
Definition counted_heap : Host.heap := fun l =>
  match l with
  | O => Host.Obj [(str "x", Some (AccessorProperty (Some O)))]
  | _ => Host.Obj []
  end.

(** * Lemmas *)

(** ** Reasoning about the tree under construction *)

Lemma with_children_id n cs : children n = Some cs -> with_children n cs = n.
Proof. destruct n; simpl; intros ->; reflexivity. Qed.

Lemma children_push_append p c t :
  children_push p c t = children_append p [c] t.
Proof.
  revert t; induction p as [|i p IH]; intros t; simpl; [reflexivity|].
  destruct (children t) as [cs|]; [|reflexivity].
  f_equal. apply list_alter_ext; auto.
Qed.

Lemma children_append_nil p t : children_append p [] t = t.
Proof.
  revert t; induction p as [|i p IH]; intros t; simpl.
  - destruct (children t) as [cs|] eqn:E; [|reflexivity].
    rewrite app_nil_r. by apply with_children_id.
  - destruct (children t) as [cs|] eqn:E; [|reflexivity].
    rewrite list_alter_id by auto. by apply with_children_id.
Qed.

Lemma children_append_app p new1 new2 t :
  children_append p new2 (children_append p new1 t) = children_append p (new1 ++ new2) t.
Proof.
  revert t; induction p as [|i p IH]; intros t; simpl.
  - destruct (children t) as [cs|] eqn:E; simpl; [|by rewrite E].
    unfold with_children; simpl. by rewrite app_assoc.
  - destruct (children t) as [cs|] eqn:E; simpl; [|by rewrite E].
    unfold with_children; simpl. f_equal. f_equal.
    rewrite list_alter_alter_eq. apply list_alter_ext; auto.
    intros x _. apply IH.
Qed.

Lemma node_at_app q1 q2 t :
  node_at (q1 ++ q2) t = node_at q1 t ≫= node_at q2.
Proof.
  revert t; induction q1 as [|i q1 IH]; intros t; simpl; [reflexivity|].
  destruct (children t) as [cs|]; [|reflexivity].
  destruct (cs !! i); [apply IH|reflexivity].
Qed.

Lemma node_at_prefix q1 q2 t m :
  node_at (q1 ++ q2) t = Some m -> exists m1, node_at q1 t = Some m1 /\ node_at q2 m1 = Some m.
Proof.
  rewrite node_at_app. destruct (node_at q1 t) as [m1|]; simpl; [eauto|discriminate].
Qed.

Lemma node_at_append_here p new t n cs :
  node_at p t = Some n -> children n = Some cs ->
  node_at p (children_append p new t) = Some (with_children n (cs ++ new)).
Proof.
  revert t; induction p as [|i p IH]; intros t; simpl.
  - intros [= ->] ->. reflexivity.
  - destruct (children t) as [cs0|] eqn:E; [|discriminate].
    destruct (cs0 !! i) as [c|] eqn:Ei; [|discriminate].
    intros Hn Hc. simpl. rewrite list_lookup_alter_eq, Ei. simpl. eauto.
Qed.

Lemma fmap_alter_invariant {A B} (g : A -> B) (f : A -> A) i (l : list A) :
  (forall x, l !! i = Some x -> g (f x) = g x) -> g <$> alter f i l = g <$> l.
Proof.
  revert i; induction l as [|a l IH]; intros [|i] H; simpl; try reflexivity.
  - f_equal. apply H. reflexivity.
  - f_equal. apply IH. intros x Hx. apply H. exact Hx.
Qed.

Lemma node_at_append_old p new t q m :
  node_at q t = Some m ->
  exists m', node_at q (children_append p new t) = Some m'
    /\ shape m' = shape m /\ (q <> p -> child_shapes m' = child_shapes m).
Proof.
  revert t q m; induction p as [|i p IH]; intros t q m Hq; simpl.
  - destruct (children t) as [cs|] eqn:E; [|eauto].
    destruct q as [|j q]; simpl in *.
    + injection Hq as <-. eexists; split; [reflexivity|].
      split; [|congruence]. unfold shape; simpl. by rewrite E.
    + rewrite E in Hq. destruct (cs !! j) as [c|] eqn:Ej; [|discriminate].
      rewrite (lookup_app_l_Some _ _ _ _ Ej). eauto.
  - destruct (children t) as [cs|] eqn:E; [|eauto].
    destruct q as [|j q]; simpl in *.
    + injection Hq as <-. eexists; split; [reflexivity|].
      split; [unfold shape; simpl; by rewrite E|].
      intros _. unfold child_shapes; simpl. rewrite E; simpl. f_equal.
      apply fmap_alter_invariant. intros x Hx.
      destruct (IH x [] x eq_refl) as (m' & Hm' & Hs & _).
      simpl in Hm'. injection Hm' as <-. exact Hs.
    + rewrite E in Hq. destruct (cs !! j) as [c|] eqn:Ej; [|discriminate].
      destruct (decide (i = j)) as [->|Hne].
      * rewrite list_lookup_alter_eq, Ej; simpl.
        destruct (IH c q m Hq) as (m' & Hm' & Hs & Hc).
        exists m'. split; [exact Hm'|]. split; [exact Hs|].
        intros Hne. apply Hc. congruence.
      * rewrite list_lookup_alter_ne by done. rewrite Ej. eauto.
Qed.

Lemma node_at_append_inv p new t q m' :
  node_at q (children_append p new t) = Some m' ->
  (exists m, node_at q t = Some m)
  \/ (exists n cs k c q', node_at p t = Some n /\ children n = Some cs
        /\ new !! k = Some c /\ q = p ++ (length cs + k)%nat :: q'
        /\ node_at q' c = Some m').
Proof.
  revert t q; induction p as [|i p IH]; intros t q; simpl.
  - destruct (children t) as [cs|] eqn:E; [|eauto].
    destruct q as [|j q]; simpl; [eauto|]. rewrite E.
    destruct (decide (j < length cs)%nat) as [Hlt|Hge].
    + rewrite lookup_app_l by done.
      destruct (cs !! j); [eauto|discriminate].
    + rewrite lookup_app_r by lia.
      destruct (new !! (j - length cs)%nat) as [c|] eqn:Ek; [|discriminate].
      intros Hq. right. exists t, cs, (j - length cs)%nat, c, q.
      repeat split; try done. f_equal. lia.
  - destruct (children t) as [cs|] eqn:E; [|eauto].
    destruct q as [|j q]; simpl; [eauto|]. rewrite E.
    destruct (decide (i = j)) as [->|Hne].
    + rewrite list_lookup_alter_eq.
      destruct (cs !! j) as [c|] eqn:Ej; simpl; [|discriminate].
      intros Hq. destruct (IH c q Hq) as [[m Hm]|(n & cs' & k & c' & q' & H1 & H2 & H3 & H4 & H5)].
      * eauto.
      * right. exists n, cs', k, c', q'. subst q. repeat split; done.
    + rewrite list_lookup_alter_ne by done.
      destruct (cs !! j); [eauto|discriminate].
Qed.

(** ** One work item, as one step *)

Section Step.

Context {W : Type}.
Variable invoke : getter -> W -> outcome * W.
Variable h : heap.

Lemma getPropertyType_object l :
  getPropertyType h (JsObject l) = match h l with Arr _ => Tarray | Obj _ => Tobject end.
Proof. unfold getPropertyType; simpl. destruct (h l); reflexivity. Qed.

Lemma getPropertyType_container v :
  getPropertyType h v = Tobject \/ getPropertyType h v = Tarray ->
  exists l, v = JsObject l.
Proof. destruct v; unfold getPropertyType; simpl; intros [?|?]; try discriminate; eauto. Qed.

Lemma carries_value_container v :
  carries_value (getPropertyType h v) = false ->
  (exists l, v = JsObject l) \/ (exists f, v = JsFunction f).
Proof. destruct v; unfold getPropertyType; simpl; try discriminate; eauto. Qed.

Lemma carries_value_object l : carries_value (getPropertyType h (JsObject l)) = false.
Proof. rewrite getPropertyType_object. destruct (h l); reflexivity. Qed.

Lemma processChild_eq D item key v (st : state W) :
  processChild h (WorkItem.parent item) key v (WorkItem.depth item) D
    (WorkItem.visited item) st
  = mkState W (world st)
      (children_push (WorkItem.parent item) (child_node h D item (key, Returns v)) (rootNode st))
      (queue st ++ child_item D item
         (next_index (WorkItem.parent item) (rootNode st)) (key, Returns v)).
Proof.
  unfold processChild, child_node, child_item, enqueued_container, attach, set_queue; simpl.
  destruct v; simpl;
    try (rewrite ?andb_false_r; simpl; rewrite app_nil_r; destruct st; reflexivity).
  (* what is left is an object or an array *)
  rewrite carries_value_object, andb_true_r.
  assert (Hty : bool_decide (getPropertyType h (JsObject l) = Tobject)
                || bool_decide (getPropertyType h (JsObject l) = Tarray) = true).
  { rewrite getPropertyType_object. destruct (h l); reflexivity. }
  rewrite Hty, andb_true_r.
  destruct (WorkItem.depth item + 1 <? D); simpl.
  - destruct (bool_decide (l ∈ WorkItem.visited item)); simpl.
    + rewrite app_nil_r. destruct st; reflexivity.
    + reflexivity.
  - rewrite app_nil_r. destruct st; reflexivity.
Qed.

Lemma visit_key_eq D item key d (st : state W) :
  visit_key invoke h D item key d st
  = let (o, w) := resolve_descriptor invoke d (world st) in
    mkState W w
      (children_push (WorkItem.parent item) (child_node h D item (key, o)) (rootNode st))
      (queue st ++ child_item D item
         (next_index (WorkItem.parent item) (rootNode st)) (key, o)).
Proof.
  unfold visit_key. destruct (resolve_descriptor invoke d (world st)) as [[v|] w].
  - rewrite processChild_eq. reflexivity.
  - unfold attach, child_item, child_node; simpl. rewrite app_nil_r. reflexivity.
Qed.

Lemma visit_element_key D item i d (st : state W) :
  visit_element invoke h D item i d st = visit_key invoke h D item (index_label i) d st.
Proof. unfold visit_element, visit_key. destruct d as [v|[g|]]; reflexivity. Qed.

Lemma for_elements_keys D item i elements (st : state W) :
  for_elements invoke h D item i elements st
  = for_keys invoke h D item (labelled i elements) st.
Proof.
  revert i st; induction elements as [|d rest IH]; intros i st; simpl; [reflexivity|].
  rewrite visit_element_key. apply IH.
Qed.

Lemma process_item_members D item (st : state W) :
  process_item invoke h D item st
  = for_keys invoke h D item (members (h (WorkItem.obj item))) st.
Proof.
  unfold process_item, members. destruct (h (WorkItem.obj item)); [|reflexivity].
  apply for_elements_keys.
Qed.

Lemma next_index_append p new t n cs :
  node_at p t = Some n -> children n = Some cs ->
  next_index p (children_append p new t) = (length cs + length new)%nat.
Proof.
  intros Hn Hc. unfold next_index.
  rewrite (node_at_append_here _ _ _ _ _ Hn Hc). simpl. by rewrite length_app.
Qed.

(** The effect of the loop over the members of an item whose node has its
    [children] initialised. *)
Lemma for_keys_eq D item ms (st : state W) n cs :
  node_at (WorkItem.parent item) (rootNode st) = Some n ->
  children n = Some cs ->
  for_keys invoke h D item ms st
  = let (os, w) := resolve_members invoke ms (world st) in
    mkState W w
      (children_append (WorkItem.parent item) (child_node h D item <$> os) (rootNode st))
      (queue st ++ new_items D item (length cs) os).
Proof.
  revert st n cs; induction ms as [|[key d] ms IH]; intros st n cs Hn Hc; simpl.
  - rewrite children_append_nil, app_nil_r. destruct st; reflexivity.
  - rewrite visit_key_eq.
    destruct (resolve_descriptor invoke d (world st)) as [o w1] eqn:Ed.
    rewrite children_push_append.
    erewrite IH; simpl.
    2:{ eapply node_at_append_here; eauto. }
    2:{ reflexivity. }
    destruct (resolve_members invoke ms w1) as [os w2]; simpl.
    rewrite children_append_app. simpl.
    rewrite <- app_assoc. unfold next_index. rewrite Hn, Hc.
    rewrite length_app; simpl. replace (length cs + 1)%nat with (S (length cs)) by lia.
    reflexivity.
Qed.

End Step.

(** ** What holds of every node and of every work item *)

Lemma node_ok_shape D d n n' : shape n' = shape n -> node_ok D d n -> node_ok D d n'.
Proof.
  unfold shape. intros [= Hn Ht Hv Hc] [H1 H2 H3 H4 H5].
  split; rewrite ?Ht, ?Hv.
  - intros cs Hcs. rewrite Hcs in Hc.
    destruct (children n) as [cs'|] eqn:E; [|discriminate]. eauto.
  - exact H2.
  - intros Hk Hd Hcn. apply H3; auto. rewrite Hcn in Hc.
    destruct (children n); [discriminate|reflexivity].
  - exact H4.
  - exact H5.
Qed.

Section Members.

Context {W : Type}.
Variable invoke : getter -> W -> outcome * W.
Variable h : heap.
Variable D : Z.

Lemma child_node_leaf item lo :
  children (child_node h D item lo) = None
  \/ children (child_node h D item lo) = Some [].
Proof.
  unfold child_node. destruct lo as [key [v|]]; simpl; [|auto].
  destruct v; simpl; auto.
  destruct (WorkItem.depth item + 1 <? D); auto.
  destruct (bool_decide (l ∈ WorkItem.visited item)); auto.
Qed.

Lemma child_node_enqueued item lo l :
  enqueued_container D item lo.2 = Some l ->
  children (child_node h D item lo) = Some [].
Proof.
  unfold child_node, enqueued_container. destruct lo as [key [v|]]; simpl; [|discriminate].
  destruct v; try discriminate.
  destruct (WorkItem.depth item + 1 <? D); simpl; [|discriminate].
  destruct (bool_decide (l0 ∈ WorkItem.visited item)); simpl; [discriminate|reflexivity].
Qed.

Lemma child_node_not_enqueued item lo :
  enqueued_container D item lo.2 = None ->
  children (child_node h D item lo) = None.
Proof.
  unfold child_node, enqueued_container. destruct lo as [key [v|]]; simpl; [|reflexivity].
  destruct v; try reflexivity.
  destruct (WorkItem.depth item + 1 <? D); simpl; [|reflexivity].
  destruct (bool_decide (l ∈ WorkItem.visited item)); simpl; [reflexivity|discriminate].
Qed.

Lemma child_node_name item lo : name (child_node h D item lo) = lo.1.
Proof.
  unfold child_node. destruct lo as [key [v|]]; simpl; [|reflexivity].
  destruct v; try reflexivity.
  destruct (WorkItem.depth item + 1 <? D); [|reflexivity].
  destruct (bool_decide (l ∈ WorkItem.visited item)); reflexivity.
Qed.

Lemma child_node_ok item lo d :
  WorkItem.depth item = Z.of_nat d ->
  node_ok D (S d) (child_node h D item lo).
Proof.
  intros Hd. unfold child_node. destruct lo as [key [v|]]; simpl.
  - destruct v; simpl;
      try (split; simpl; unfold container_kind;
           [discriminate | intros [?|?]; discriminate | intros [?|?]; discriminate
           | discriminate || (intros _; reflexivity) | intros ? [= <-]; exact I]).
    (* what is left is an object or an array *)
    + assert (Hk : container_kind (getPropertyType h (JsObject l))).
      { rewrite getPropertyType_object. destruct (h l); [right|left]; reflexivity. }
      assert (Hf : getPropertyType h (JsObject l) <> Tfunction).
      { rewrite getPropertyType_object. destruct (h l); discriminate. }
      destruct (WorkItem.depth item + 1 <? D) eqn:Hlt.
      * apply Z.ltb_lt in Hlt.
        destruct (bool_decide (l ∈ WorkItem.visited item)); split; simpl;
          try discriminate; try done.
        -- intros _ v [= <-]. split; [reflexivity|lia].
        -- intros v [= <-]. exact I.
        -- intros cs _. repeat split; [exact Hk|lia].
      * apply Z.ltb_ge in Hlt.
        split; simpl; try discriminate; try done. intros _ ?. lia.
  - split; simpl; unfold container_kind; try discriminate.
    + intros [?|?]; discriminate.
    + intros [?|?]; discriminate.
    + intros v [= <-]. exact I.
Qed.

Lemma new_items_spec item base os x :
  x ∈ new_items D item base os <->
  exists k lo l, os !! k = Some lo /\ enqueued_container D item lo.2 = Some l
    /\ x = WorkItem.mk l lo.1 (WorkItem.depth item + 1)
             (WorkItem.parent item ++ [(base + k)%nat])
             (WorkItem.visited item ∪ {[l]}).
Proof.
  revert base; induction os as [|lo os IH]; intros base; simpl.
  - split; [intros H; inversion H|intros (k & lo & l & H & _); discriminate].
  - rewrite elem_of_app, IH. unfold child_item. split.
    + intros [Hx|(k & lo' & l & H1 & H2 & H3)].
      * destruct (enqueued_container D item lo.2) as [l|] eqn:E; [|inversion Hx].
        apply list_elem_of_singleton in Hx. exists O, lo, l.
        rewrite Nat.add_0_r. auto.
      * exists (S k), lo', l. replace (base + S k)%nat with (S base + k)%nat by lia. auto.
    + intros (k & lo' & l & H1 & H2 & H3). destruct k as [|k]; simpl in H1.
      * injection H1 as ->. left. rewrite H2, H3, Nat.add_0_r. apply list_elem_of_singleton; reflexivity.
      * right. exists k, lo', l. replace (S base + k)%nat with (base + S k)%nat by lia. auto.
Qed.

Lemma new_items_nodup item base os :
  NoDup (WorkItem.parent <$> new_items D item base os).
Proof.
  revert base; induction os as [|lo os IH]; intros base; simpl; [constructor|].
  rewrite fmap_app. apply NoDup_app. split; [|split; [|apply IH]].
  - unfold child_item. destruct (enqueued_container D item lo.2); simpl.
    + apply NoDup_singleton.
    + constructor.
  - intros p Hp Hp'. unfold child_item in Hp.
    destruct (enqueued_container D item lo.2); simpl in Hp; [|inversion Hp].
    apply list_elem_of_singleton in Hp. subst p.
    apply list_elem_of_fmap in Hp' as (x & Hx & Hin).
    apply new_items_spec in Hin as (k & lo' & l' & _ & _ & ->). simpl in Hx.
    apply app_inv_head in Hx. injection Hx. lia.
Qed.

End Members.

Lemma prefix_snoc_inv {A} (q p : list A) k :
  q `prefix_of` p ++ [k] -> q = p ++ [k] \/ q `prefix_of` p.
Proof.
  intros [r Hr]. destruct r as [|x r _] using rev_ind.
  - left. by rewrite app_nil_r in Hr.
  - right. rewrite app_assoc in Hr. apply app_inj_tail in Hr as [-> _].
    by exists r.
Qed.

Lemma node_at_leaf q c m :
  children c = None \/ children c = Some [] ->
  node_at q c = Some m -> q = [] /\ m = c.
Proof.
  intros Hc. destruct q as [|i q]; simpl.
  - intros [= <-]. auto.
  - destruct Hc as [-> | ->]; simpl; discriminate.
Qed.

Lemma child_shapes_nil n : child_shapes n = Some [] -> children n = Some [].
Proof.
  unfold child_shapes. destruct (children n) as [[|c cs]|]; simpl; try discriminate.
  reflexivity.
Qed.

Section Invariant.

Context {W : Type}.
Variable invoke : getter -> W -> outcome * W.
Variable h : heap.
Variable D : Z.

Lemma Inv_exists done st item :
  Inv invoke h D done st -> item ∈ all_items done st ->
  exists n, node_at (WorkItem.parent item) (rootNode st) = Some n.
Proof.
  intros HI Hin. apply elem_of_app in Hin as [Hin|Hin].
  - apply list_elem_of_fmap in Hin as ([w item'] & -> & Hin).
    destruct (inv_done _ _ _ _ _ HI _ _ Hin) as (n & Hn & _). eauto.
  - destruct (inv_queue _ _ _ _ _ HI _ Hin) as (n & Hn & _). eauto.
Qed.

Lemma enqueued_container_lt item o l :
  enqueued_container D item o = Some l -> WorkItem.depth item + 1 < D.
Proof.
  unfold enqueued_container. destruct o as [[]|]; try discriminate.
  destruct (WorkItem.depth item + 1 <? D) eqn:E; [|discriminate].
  intros _. by apply Z.ltb_lt.
Qed.

(** The state after the loop body, for an item whose node has an empty
    [children]. *)
Lemma process_item_eq item rest (st : state W) n :
  node_at (WorkItem.parent item) (rootNode st) = Some n ->
  children n = Some [] ->
  process_item invoke h D item (set_queue rest st)
  = mkState W (resolve_members invoke (members (h (WorkItem.obj item))) (world st)).2
      (children_append (WorkItem.parent item)
         (child_node h D item <$> outcomes invoke h (world st) item) (rootNode st))
      (rest ++ new_items D item O (outcomes invoke h (world st) item)).
Proof.
  intros Hn Hc. rewrite process_item_members.
  rewrite (for_keys_eq invoke h D item _ (set_queue rest st) n []); try assumption.
  unfold outcomes. simpl.
  destruct (resolve_members invoke (members (h (WorkItem.obj item))) (world st)); reflexivity.
Qed.

Lemma Inv_step done st item rest :
  Inv invoke h D done st -> queue st = item :: rest ->
  Inv invoke h D (done ++ [(world st, item)])
      (process_item invoke h D item (set_queue rest st)).
Proof.
  intros HI Hq.
  assert (Hitem : item ∈ queue st) by (rewrite Hq; left).
  destruct (inv_queue _ _ _ _ _ HI _ Hitem) as (n & Hn & Hc).
  rewrite (process_item_eq item rest st n Hn Hc).
  set (p := WorkItem.parent item) in *.
  set (os := outcomes invoke h (world st) item).
  set (news := child_node h D item <$> os).
  set (new := new_items D item O os).
  set (w' := (resolve_members invoke (members (h (WorkItem.obj item))) (world st)).2).
  set (root' := children_append p news (rootNode st)).
  assert (Hall : all_items (done ++ [(world st, item)]) (mkState W w' root' (rest ++ new))
                 = all_items done st ++ new).
  { unfold all_items. simpl. rewrite Hq, fmap_app. simpl.
    rewrite <- !app_assoc. reflexivity. }
  assert (Hitem_all : item ∈ all_items done st).
  { unfold all_items. apply elem_of_app. auto. }
  assert (Hfresh : forall k, node_at (p ++ [k]) (rootNode st) = None).
  { intros k. rewrite node_at_app, Hn. simpl. by rewrite Hc. }
  assert (Hnew : forall x, x ∈ new <->
            exists k lo l, os !! k = Some lo /\ enqueued_container D item lo.2 = Some l
              /\ x = WorkItem.mk l lo.1 (WorkItem.depth item + 1) (p ++ [k])
                       (WorkItem.visited item ∪ {[l]})).
  { intros x. unfold new. rewrite new_items_spec. reflexivity. }
  assert (Hother : forall x, x ∈ all_items done st -> WorkItem.parent x = p -> x = item).
  { intros x Hx Hp.
    pose proof (inv_nodup _ _ _ _ _ HI) as Hnd.
    apply list_elem_of_lookup in Hx as [i Hi].
    apply list_elem_of_lookup in Hitem_all as [j Hj].
    assert (i = j).
    { eapply NoDup_lookup; [exact Hnd| |].
      - rewrite list_lookup_fmap, Hi. simpl. reflexivity.
      - rewrite list_lookup_fmap, Hj. simpl. by rewrite Hp. }
    subst j. congruence. }
  assert (Hnot_done : forall w x, (w, x) ∈ done -> WorkItem.parent x <> p).
  { intros w x Hx Hp.
    pose proof (inv_nodup _ _ _ _ _ HI) as Hnd. unfold all_items in Hnd.
    rewrite Hq, fmap_app in Hnd. apply NoDup_app in Hnd as (_ & Hd & _).
    apply (Hd p).
    - rewrite <- Hp. apply list_elem_of_fmap. exists x. split; [reflexivity|].
      apply list_elem_of_fmap. exists (w, x). auto.
    - rewrite fmap_cons. left. }
  assert (Hnot_rest : forall x, x ∈ rest -> WorkItem.parent x <> p).
  { intros x Hx Hp.
    pose proof (inv_nodup _ _ _ _ _ HI) as Hnd. unfold all_items in Hnd.
    rewrite Hq, fmap_app in Hnd. apply NoDup_app in Hnd as (_ & _ & Hd).
    rewrite fmap_cons in Hd. apply NoDup_cons in Hd as [Hd _].
    apply Hd. fold p. rewrite <- Hp. apply list_elem_of_fmap. eauto. }
  assert (Hhere : node_at p root' = Some (with_children n news)).
  { unfold root'. rewrite (node_at_append_here p news _ n [] Hn Hc). reflexivity. }
  assert (Hchild : forall k c, news !! k = Some c -> node_at (p ++ [k]) root' = Some c).
  { intros k c Hk. rewrite node_at_app, Hhere. simpl. by rewrite Hk. }
  assert (Hold : forall q m, node_at q (rootNode st) = Some m ->
            exists m', node_at q root' = Some m' /\ shape m' = shape m
              /\ (q <> p -> child_shapes m' = child_shapes m)).
  { intros q m Hm. apply node_at_append_old. exact Hm. }
  assert (Hnews : forall k lo, os !! k = Some lo -> news !! k = Some (child_node h D item lo)).
  { intros k lo Hk. unfold news. rewrite list_lookup_fmap, Hk. reflexivity. }
  assert (Hdepth_item := inv_depth _ _ _ _ _ HI _ Hitem_all).
  destruct Hdepth_item as [Hdi HdD]. fold p in Hdi.
  split; simpl; rewrite ?Hall.
  - (* every node *)
    intros q m' Hm'.
    destruct (node_at_append_inv _ _ _ _ _ Hm')
      as [[m Hm]|(n0 & cs & k & c & q' & Hn0 & Hcs & Hk & -> & Hq')].
    + destruct (Hold q m Hm) as (m'' & Hm'' & Hs & _).
      fold root' in Hm'. rewrite Hm' in Hm''. injection Hm'' as <-.
      eapply node_ok_shape; [exact Hs|]. eapply inv_nodes; eauto.
    + unfold news in Hk. rewrite list_lookup_fmap in Hk.
      destruct (os !! k) as [lo|]; [|discriminate]. injection Hk as <-.
      destruct (node_at_leaf _ _ _ (child_node_leaf h D item lo) Hq') as [-> ->].
      rewrite length_app. simpl. replace (length p + 1)%nat with (S (length p)) by lia.
      apply child_node_ok. exact Hdi.
  - (* the waiting items *)
    intros x Hx. apply elem_of_app in Hx as [Hx|Hx].
    + assert (Hxq : x ∈ queue st) by (rewrite Hq; right; exact Hx).
      destruct (inv_queue _ _ _ _ _ HI _ Hxq) as (m & Hm & Hcm).
      destruct (Hold _ _ Hm) as (m' & Hm' & _ & Hcs).
      exists m'. split; [exact Hm'|]. apply child_shapes_nil.
      rewrite Hcs by (by apply Hnot_rest). unfold child_shapes. by rewrite Hcm.
    + apply Hnew in Hx as (k & lo & l & Hk & He & ->). simpl.
      exists (child_node h D item lo). split.
      * apply Hchild. by apply Hnews.
      * eapply child_node_enqueued; eauto.
  - (* depths *)
    intros x Hx. apply elem_of_app in Hx as [Hx|Hx].
    + by apply (inv_depth _ _ _ _ _ HI).
    + apply Hnew in Hx as (k & lo & l & Hk & He & ->). simpl.
      apply enqueued_container_lt in He.
      rewrite length_app. simpl. lia.
  - (* references are pairwise distinct *)
    rewrite fmap_app. apply NoDup_app. split; [apply (inv_nodup _ _ _ _ _ HI)|].
    split; [|apply new_items_nodup].
    intros q Hq1 Hq2.
    apply list_elem_of_fmap in Hq1 as (x & -> & Hx).
    apply list_elem_of_fmap in Hq2 as (y & Hy & Hyn).
    apply Hnew in Hyn as (k & lo & l & _ & _ & ->). simpl in Hy.
    destruct (Inv_exists _ _ _ HI Hx) as (m & Hm).
    rewrite Hy, Hfresh in Hm. discriminate.
  - (* the items done *)
    intros w x Hx. apply elem_of_app in Hx as [Hx|Hx].
    + destruct (inv_done _ _ _ _ _ HI _ _ Hx) as (m & Hm & Hcs).
      destruct (Hold _ _ Hm) as (m' & Hm' & _ & Hcs').
      exists m'. split; [exact Hm'|]. rewrite Hcs' by (by eapply Hnot_done). exact Hcs.
    + apply list_elem_of_singleton in Hx. injection Hx as -> ->.
      exists (with_children n news). split; [exact Hhere|]. reflexivity.
  - (* the visited sets *)
    intros x Hx l. apply elem_of_app in Hx as [Hx|Hx].
    + rewrite (inv_visited _ _ _ _ _ HI x Hx l). split.
      * intros (y & Hy & Hpre & Ho). exists y. rewrite elem_of_app. auto.
      * intros (y & Hy & Hpre & Ho). apply elem_of_app in Hy as [Hy|Hy]; [eauto|].
        exfalso. apply Hnew in Hy as (k & lo & l' & _ & _ & ->). simpl in *.
        destruct Hpre as [r Hr].
        destruct (Inv_exists _ _ _ HI Hx) as (m & Hm).
        rewrite Hr in Hm. apply node_at_prefix in Hm as (m1 & Hm1 & _).
        rewrite Hfresh in Hm1. discriminate.
    + apply Hnew in Hx as (k & lo & l0 & Hk & He & ->). simpl.
      rewrite elem_of_union, elem_of_singleton.
      rewrite (inv_visited _ _ _ _ _ HI item Hitem_all l). fold p. split.
      * intros [(y & Hy & Hpre & Ho)| ->].
        -- exists y. rewrite elem_of_app. split; [auto|].
           split; [by apply prefix_app_r|exact Ho].
        -- exists (WorkItem.mk l0 lo.1 (WorkItem.depth item + 1) (p ++ [k])
                     (WorkItem.visited item ∪ {[l0]})).
           split; [apply elem_of_app; right; apply Hnew; exists k, lo, l0; auto|].
           simpl. split; reflexivity.
      * intros (y & Hy & Hpre & Ho). apply elem_of_app in Hy as [Hy|Hy].
        -- apply prefix_snoc_inv in Hpre as [Heq|Hpre]; [|left; eauto].
           exfalso. destruct (Inv_exists _ _ _ HI Hy) as (m & Hm).
           rewrite Heq, Hfresh in Hm. discriminate.
        -- apply Hnew in Hy as (k' & lo' & l' & Hk' & He' & ->). simpl in *.
           right. subst l.
           assert (k' = k).
           { apply prefix_length in Hpre as Hle.
             destruct Hpre as [r Hr]. rewrite <- app_assoc in Hr.
             apply app_inv_head in Hr. simpl in Hr. injection Hr. auto. }
           subst k'. congruence.
  - (* what was put on the queue *)
    intros w x k lo l Hx Hk He. apply elem_of_app in Hx as [Hx|Hx].
    + destruct (inv_enqueued _ _ _ _ _ HI _ _ _ _ _ Hx Hk He) as (y & Hy & Hp & Ho).
      exists y. rewrite elem_of_app. auto.
    + apply list_elem_of_singleton in Hx. injection Hx as -> ->.
      exists (WorkItem.mk l lo.1 (WorkItem.depth item + 1) (p ++ [k])
                (WorkItem.visited item ∪ {[l]})).
      split; [apply elem_of_app; right; apply Hnew; exists k, lo, l; auto|].
      simpl. split; reflexivity.
Qed.

(** The loop keeps the invariant, and ends with an empty queue. *)
Lemma loop_Inv fuel : forall done st st',
  Inv invoke h D done st -> loop invoke h fuel D st = Some st' ->
  Inv invoke h D (done ++ dequeued invoke h fuel D st) st' /\ queue st' = [].
Proof.
  induction fuel as [|fuel IH]; intros done st st' HI; simpl.
  - destruct (queue st) eqn:Hq; [|discriminate].
    intros [= <-]. rewrite app_nil_r. auto.
  - destruct (queue st) as [|item rest] eqn:Hq.
    + intros [= <-]. rewrite app_nil_r. auto.
    + intros Hl. pose proof (Inv_step _ _ _ _ HI Hq) as HI'.
      destruct (IH _ _ _ HI' Hl) as [H1 H2]. rewrite <- app_assoc in H1. auto.
Qed.

Lemma loop_more fuel : forall st st' k,
  loop invoke h fuel D st = Some st' ->
  loop invoke h (fuel + k) D st = Some st'
  /\ dequeued invoke h (fuel + k) D st = dequeued invoke h fuel D st.
Proof.
  induction fuel as [|fuel IH]; intros st st' k; simpl.
  - destruct (queue st) eqn:Hq; [|discriminate].
    intros [= <-]. destruct k; simpl; rewrite Hq; auto.
  - destruct (queue st) as [|item rest] eqn:Hq; [auto|].
    intros Hl. destruct (IH _ _ k Hl) as [H1 H2]. rewrite H1, H2. auto.
Qed.

Lemma loop_deterministic fuel1 fuel2 st st1 st2 :
  loop invoke h fuel1 D st = Some st1 ->
  loop invoke h fuel2 D st = Some st2 ->
  st1 = st2
  /\ dequeued invoke h fuel1 D st = dequeued invoke h fuel2 D st.
Proof.
  intros H1 H2.
  destruct (loop_more _ _ _ fuel2 H1) as [H1' H1''].
  destruct (loop_more _ _ _ fuel1 H2) as [H2' H2''].
  rewrite Nat.add_comm in H2', H2''. rewrite H1' in H2'. injection H2' as ->.
  split; [reflexivity|]. rewrite <- H1'', H2''. reflexivity.
Qed.

(** Taking the items of [q1] off the queue one after the other. *)
Lemma loop_batch q1 : forall done st q2,
  Inv invoke h D done st -> queue st = q1 ++ q2 ->
  exists done' st1 new,
    Inv invoke h D done' st1
    /\ (forall fuel, loop invoke h (length q1 + fuel) D st = loop invoke h fuel D st1)
    /\ queue st1 = q2 ++ new
    /\ (forall x, x ∈ new -> exists y, y ∈ q1 /\ WorkItem.depth x = WorkItem.depth y + 1).
Proof.
  induction q1 as [|item q1 IH]; intros done st q2 HI Hq.
  - exists done, st, []. rewrite app_nil_r.
    split; [exact HI|]. split; [reflexivity|]. split; [exact Hq|].
    intros x Hx. inversion Hx.
  - simpl in Hq.
    pose proof (Inv_step _ _ _ _ HI Hq) as HI'.
    assert (Hitem : item ∈ queue st) by (rewrite Hq; left).
    destruct (inv_queue _ _ _ _ _ HI _ Hitem) as (n & Hn & Hc).
    pose proof (process_item_eq item (q1 ++ q2) st n Hn Hc) as Hst.
    set (st_a := process_item invoke h D item (set_queue (q1 ++ q2) st)) in *.
    assert (Hqa : queue st_a
                  = q1 ++ (q2 ++ new_items D item O (outcomes invoke h (world st) item))).
    { rewrite Hst. simpl. by rewrite app_assoc. }
    destruct (IH _ _ _ HI' Hqa) as (done' & st1 & new & H1 & H2 & H3 & H4).
    exists done', st1, (new_items D item O (outcomes invoke h (world st) item) ++ new).
    split; [exact H1|]. split; [|split].
    + intros fuel. simpl. rewrite Hq. apply H2.
    + rewrite H3. by rewrite app_assoc.
    + intros x Hx. apply elem_of_app in Hx as [Hx|Hx].
      * apply new_items_spec in Hx as (k & lo & l & _ & _ & ->). simpl.
        exists item. split; [left|reflexivity].
      * destruct (H4 x Hx) as (y & Hy & Hd). exists y. split; [by right|exact Hd].
Qed.

(** The loop comes to an end: the items of one level are taken off the
    queue, which leaves the items of the next level. *)
Lemma loop_terminates_level (n : nat) : forall done st,
  Inv invoke h D done st ->
  (forall x, x ∈ queue st -> D - WorkItem.depth x <= Z.of_nat n) ->
  exists fuel st', loop invoke h fuel D st = Some st'.
Proof.
  induction n as [|n IH]; intros done st HI Hlevel.
  - exists O, st. simpl. destruct (queue st) as [|x q] eqn:Hq; [reflexivity|].
    exfalso. assert (Hx : x ∈ queue st) by (rewrite Hq; left).
    rewrite <- Hq in Hlevel. specialize (Hlevel x Hx).
    assert (Hall : x ∈ all_items done st) by (apply elem_of_app; auto).
    destruct (inv_depth _ _ _ _ _ HI _ Hall). lia.
  - destruct (loop_batch (queue st) done st [] HI) as (done' & st1 & new & H1 & H2 & H3 & H4).
    { by rewrite app_nil_r. }
    destruct (IH done' st1 H1) as (fuel & st' & Hl).
    { intros x Hx. rewrite H3 in Hx. simpl in Hx.
      destruct (H4 x Hx) as (y & Hy & Hd). specialize (Hlevel y Hy). lia. }
    exists (length (queue st) + fuel)%nat, st'. rewrite H2. exact Hl.
Qed.

Lemma loop_terminates done st :
  Inv invoke h D done st -> exists fuel st', loop invoke h fuel D st = Some st'.
Proof.
  intros HI. apply (loop_terminates_level (Z.to_nat D) done st HI).
  intros x Hx.
  assert (Hall : x ∈ all_items done st) by (apply elem_of_app; auto).
  destruct (inv_depth _ _ _ _ _ HI _ Hall). lia.
Qed.

End Invariant.

(** ** The depth argument *)

Lemma Number_eq0_toZ d : Number_eq0 d = true -> Number_toZ d = 0.
Proof. destruct d as [s|s| |s m e]; simpl; try reflexivity; destruct s; discriminate. Qed.

Lemma valid_depth_nonneg d : valid_depth d -> 0 <= Number_toZ d.
Proof.
  intros [Hlt Hint]. destruct d as [s|s| |s m e]; simpl in *; try lia.
  destruct s; [discriminate|].
  destruct (0 <=? e) eqn:He.
  - apply Z.leb_le in He. apply Z.mul_nonneg_nonneg; [lia|]. apply Z.pow_nonneg. lia.
  - apply Z.leb_gt in He. apply Z.div_pos; [lia|]. apply Z.pow_pos_nonneg; lia.
Qed.

Lemma valid_depth_positive d :
  valid_depth d -> Number_eq0 d = false -> 1 <= Number_toZ d.
Proof.
  intros [Hlt Hint] H0. destruct d as [s|s| |s m e]; simpl in *; try discriminate.
  destruct s; [discriminate|].
  destruct (0 <=? e) eqn:He.
  - apply Z.leb_le in He.
    assert (0 < 2 ^ e) by (apply Z.pow_pos_nonneg; lia). nia.
  - apply Z.leb_gt in He. apply Z.eqb_eq in Hint.
    assert (Hp : 0 < 2 ^ (- e)) by (apply Z.pow_pos_nonneg; lia).
    pose proof (Z.div_mod (Z.pos m) (2 ^ (- e)) ltac:(lia)) as Hdm.
    rewrite Hint in Hdm. nia.
Qed.

(** ** The whole call *)

Section Call.

Context {W : Type}.
Variable invoke : getter -> W -> outcome * W.
Variable h : heap.

Lemma build_container fuel r maxDepth rootName w :
  valid_depth maxDepth -> Number_eq0 maxDepth = false ->
  buildPropertyTree invoke h fuel (JsObject r) maxDepth rootName w
  = match loop invoke h fuel (Number_toZ maxDepth) (initial_state h w rootName r) with
    | Some st' => Some (Normal (rootNode st'), world st')
    | None => None
    end.
Proof.
  intros [Hlt Hint] H0. unfold buildPropertyTree.
  rewrite Hlt, Hint, H0, carries_value_object. simpl.
  unfold initial_state, root_item.
  rewrite getPropertyType_object. destruct (h r); reflexivity.
Qed.

Lemma Inv_initial D w rootName r :
  1 <= D -> Inv invoke h D [] (initial_state h w rootName r).
Proof.
  intros HD. split; simpl.
  - intros [|i q] n; simpl; [|discriminate]. intros [= <-].
    assert (Hk : container_kind (getPropertyType h (JsObject r))).
    { rewrite getPropertyType_object. destruct (h r); [right|left]; reflexivity. }
    split; simpl; try discriminate.
    + intros cs _. repeat split; [exact Hk|lia].
    + rewrite getPropertyType_object. destruct (h r); discriminate.
  - intros item Hin. apply list_elem_of_singleton in Hin as ->. simpl. eauto.
  - intros item Hin. apply list_elem_of_singleton in Hin as ->. simpl. lia.
  - apply NoDup_singleton.
  - intros w0 item Hin. inversion Hin.
  - intros item Hin l. apply list_elem_of_singleton in Hin as ->. simpl.
    rewrite elem_of_union, elem_of_singleton. split.
    + intros [Hl| ->]; [by apply not_elem_of_empty in Hl|].
      exists (root_item rootName r). split; [by apply list_elem_of_singleton|].
      split; reflexivity.
    + intros (y & Hy & _ & <-). apply list_elem_of_singleton in Hy as ->. by right.
  - intros w0 item k lo l Hin. inversion Hin.
Qed.

(** With [maxDepth = 0] the call returns the root alone, at once. *)
Lemma build_depth_zero fuel obj maxDepth rootName w :
  Number_eq0 maxDepth = true ->
  buildPropertyTree invoke h fuel obj maxDepth rootName w
  = Some (Normal (mkNode rootName (getPropertyType h obj)
                    (if carries_value (getPropertyType h obj)
                     then Some obj else None) None), w).
Proof.
  intros H0. unfold buildPropertyTree.
  destruct maxDepth as [s|s| |s m e]; try discriminate;
    try (destruct s; discriminate).
  simpl. destruct (carries_value (getPropertyType h obj)); reflexivity.
Qed.

(** Every call with a valid depth returns a tree. *)
Lemma build_returns obj maxDepth rootName w :
  valid_depth maxDepth ->
  exists fuel t w',
    buildPropertyTree invoke h fuel obj maxDepth rootName w = Some (Normal t, w').
Proof.
  intros Hv. destruct (Number_eq0 maxDepth) eqn:H0.
  - exists O. destruct Hv as [Hlt Hint]. unfold buildPropertyTree.
    rewrite Hlt, Hint, H0. simpl.
    destruct (carries_value (getPropertyType h obj)); eauto.
  - destruct obj;
      try (exists O; destruct Hv as [Hlt Hint]; unfold buildPropertyTree;
           rewrite Hlt, Hint, H0; simpl; eauto; fail).
    destruct (loop_terminates invoke h (Number_toZ maxDepth) []
                  (initial_state h w rootName l)) as (fuel & st' & Hl).
    { apply Inv_initial. by apply valid_depth_positive. }
    exists fuel. rewrite build_container by assumption. rewrite Hl. eauto.
Qed.

(** A call that returns a tree did not throw, whatever the fuel. *)
Lemma build_result fuel obj maxDepth rootName w r w' :
  buildPropertyTree invoke h fuel obj maxDepth rootName w = Some (r, w') ->
  match r with
  | Normal _ => valid_depth maxDepth
  | Throw e => e = InvalidDepthError maxDepth /\ ~ valid_depth maxDepth /\ w' = w
  end.
Proof.
  unfold buildPropertyTree, valid_depth.
  destruct (Number_lt0 maxDepth) eqn:Hlt; simpl.
  - intros [= <- <-]. repeat split; auto. intros [? _]; discriminate.
  - destruct (Number_isInteger maxDepth) eqn:Hint; simpl.
    + intros Hb. destruct r as [t|e]; [auto|]. exfalso.
      destruct (carries_value (getPropertyType h obj)); [discriminate|].
      destruct (Number_eq0 maxDepth || is_null obj
                || bool_decide (getPropertyType h obj = Tfunction)); [discriminate|].
      destruct obj; try discriminate.
      destruct (loop invoke h fuel (Number_toZ maxDepth) _); discriminate.
    + intros [= <- <-]. repeat split; auto. intros [_ ?]; discriminate.
Qed.

(** What holds of every node of a tree that a call returns. *)
Lemma build_nodes fuel obj maxDepth rootName w t w' :
  buildPropertyTree invoke h fuel obj maxDepth rootName w = Some (Normal t, w') ->
  forall q n, node_at q t = Some n -> node_ok (Number_toZ maxDepth) (length q) n.
Proof.
  intros Hb. pose proof (build_result _ _ _ _ _ _ _ Hb) as Hv. simpl in Hv.
  assert (Hbare : forall ty v, (forall x, v = Some x -> primitive x) ->
            (container_kind ty -> Number_toZ maxDepth <= 0 /\ v = None) ->
            (ty = Tfunction -> v = None) ->
            forall q n, node_at q (mkNode rootName ty v None) = Some n ->
                        node_ok (Number_toZ maxDepth) (length q) n).
  { intros ty v Hp Hk Hf [|i q] n; simpl; [|discriminate]. intros [= <-].
    split; simpl; try discriminate; auto.
    - intros Hc x Hx. destruct (Hk Hc) as [_ ->]. discriminate.
    - intros Hc Hd. destruct (Hk Hc). simpl in Hd. lia. }
  destruct (Number_eq0 maxDepth) eqn:H0.
  - destruct Hv as [Hlt Hint]. unfold buildPropertyTree in Hb.
    rewrite Hlt, Hint, H0 in Hb. simpl in Hb.
    destruct (carries_value (getPropertyType h obj)) eqn:Hcv; injection Hb as <- <-.
    + apply Hbare.
      * intros x [= <-]. destruct obj; try exact I;
          unfold getPropertyType in Hcv; simpl in Hcv; try discriminate.
        destruct (h l); discriminate.
      * intros [E|E]; rewrite E in Hcv; discriminate.
      * intros E. rewrite E in Hcv. discriminate.
    + apply Hbare; try discriminate; auto.
      intros _. split; [|reflexivity]. rewrite Number_eq0_toZ; [lia|assumption].
  - destruct obj as [| | | | | | |f|r].
    9:{ rewrite build_container in Hb by assumption.
        destruct (loop invoke h fuel (Number_toZ maxDepth) (initial_state h w rootName r))
          as [st'|] eqn:Hl; [|discriminate].
        injection Hb as <- <-.
        destruct (loop_Inv invoke h (Number_toZ maxDepth) fuel [] _ _
                    (Inv_initial _ _ _ _ (valid_depth_positive _ Hv H0)) Hl) as [HI _].
        apply (inv_nodes _ _ _ _ _ HI). }
    all: destruct Hv as [Hlt Hint]; unfold buildPropertyTree in Hb;
      rewrite Hlt, Hint, H0 in Hb; simpl in Hb; injection Hb as <- <-;
      apply Hbare; try discriminate; try (intros x [= <-]; exact I);
      try (intros [E|E]; discriminate); auto.
Qed.

(** What holds at the end of a call that expanded its argument. *)
Lemma build_Inv fuel r maxDepth rootName w t w' :
  buildPropertyTree invoke h fuel (JsObject r) maxDepth rootName w = Some (Normal t, w') ->
  Number_eq0 maxDepth = false ->
  Inv invoke h (Number_toZ maxDepth)
    (build_trace invoke h fuel (JsObject r) maxDepth rootName w) (mkState W w' t []).
Proof.
  intros Hb H0. pose proof (build_result _ _ _ _ _ _ _ Hb) as Hv. simpl in Hv.
  rewrite build_container in Hb by assumption.
  destruct (loop invoke h fuel (Number_toZ maxDepth) (initial_state h w rootName r))
    as [st'|] eqn:Hl; [|discriminate].
  injection Hb as <- <-.
  destruct (loop_Inv invoke h (Number_toZ maxDepth) fuel [] _ _
              (Inv_initial _ _ _ _ (valid_depth_positive _ Hv H0)) Hl) as [HI Hq].
  unfold build_trace. destruct Hv as [Hlt Hint]. rewrite Hlt, Hint, H0. simpl.
  simpl in HI. destruct st' as [w1 t1 q1]. simpl in *. subst q1. exact HI.
Qed.

(** The first item taken off the queue is the one made for the root. *)
Lemma build_trace_root fuel r maxDepth rootName w t w' :
  buildPropertyTree invoke h fuel (JsObject r) maxDepth rootName w = Some (Normal t, w') ->
  Number_eq0 maxDepth = false ->
  (w, root_item rootName r) ∈ build_trace invoke h fuel (JsObject r) maxDepth rootName w.
Proof.
  intros Hb H0. pose proof (build_result _ _ _ _ _ _ _ Hb) as Hv. simpl in Hv.
  rewrite build_container in Hb by assumption.
  unfold build_trace. destruct Hv as [Hlt Hint]. rewrite Hlt, Hint, H0. simpl.
  destruct fuel as [|fuel]; simpl in *; [discriminate|]. left.
Qed.

End Call.

(** ** Induction on trees *)

(** ** The end of the rendered text *)

Lemma ends_well_app a b : ends_well b -> ends_well (a ++ b).
Proof. intros (s' & c & -> & Hc). exists (a ++ s'), c. by rewrite app_assoc. Qed.

Lemma ends_well_last s : ends_well s -> last s <> Some LF.
Proof. intros (s' & c & -> & Hc). rewrite last_snoc. congruence. Qed.

Lemma ends_well_str_app a (x : jsstring) :
  ends_well a -> last x <> Some LF -> ends_well (a ++ x).
Proof.
  intros Ha Hx. destruct x as [|c x _] using rev_ind.
  - by rewrite app_nil_r.
  - apply ends_well_app. exists x, c. split; [reflexivity|].
    rewrite last_snoc in Hx. congruence.
Qed.

Lemma ends_well_join lines l :
  ends_well l -> ends_well (join LF (lines ++ [l])).
Proof.
  intros Hl. induction lines as [|a lines IH]; simpl; [exact Hl|].
  destruct (lines ++ [l]) as [|b rest] eqn:E.
  - destruct lines; discriminate.
  - change (ends_well (a ++ [LF] ++ join LF (b :: rest))).
    apply ends_well_app, ends_well_app. exact IH.
Qed.

Lemma string_of_uint_no_LF d :
  Forall (fun c => c <> LF) (str (NilEmpty.string_of_uint d)).
Proof.
  induction d; simpl; constructor; try exact IHd; discriminate.
Qed.

Lemma decimal_of_Z_no_LF z : last (decimal_of_Z z) <> Some LF.
Proof.
  assert (H : Forall (fun c => c <> LF) (decimal_of_Z z)).
  { unfold decimal_of_Z. destruct (Z.to_int z) as [d|d]; simpl.
    - apply string_of_uint_no_LF.
    - constructor; [discriminate|apply string_of_uint_no_LF]. }
  intros Hl. apply last_Some in Hl as [l' Hl]. rewrite Hl in H.
  apply Forall_app in H as [_ H]. inversion H. congruence.
Qed.

Section RenderFacts.

Variable Number_toString : number -> jsstring.
Variable Object_toString : loc -> jsstring.

Lemma is_string_true v m : is_string v m = true -> v = JsString m.
Proof.
  destruct v; simpl; try discriminate. intros Hb.
  apply bool_decide_eq_true in Hb. by subst.
Qed.

Lemma String_of_ends v :
  (forall x, last (Number_toString x) <> Some LF) ->
  primitive v -> (forall s, v <> JsString s) ->
  last (String_of Number_toString Object_toString v) <> Some LF.
Proof.
  intros Hnum Hp Hs. destruct v as [| |b|x|s|d|z|f|l]; cbn [String_of].
  - vm_compute. discriminate.
  - vm_compute. discriminate.
  - destruct b; vm_compute; discriminate.
  - apply Hnum.
  - by destruct (Hs s).
  - rewrite app_assoc. change (str ")") with [41%N]. rewrite last_snoc. discriminate.
  - apply decimal_of_Z_no_LF.
  - destruct Hp.
  - destruct Hp.
Qed.

Lemma value_suffix_ends n :
  (forall x, last (Number_toString x) <> Some LF) ->
  (forall v, value n = Some v -> primitive v) ->
  value_suffix Number_toString Object_toString n = []
  \/ ends_well (value_suffix Number_toString Object_toString n).
Proof.
  intros Hnum Hp. unfold value_suffix.
  destruct (value n) as [v|] eqn:Hv; [|by left].
  specialize (Hp v eq_refl).
  assert (Hcolon : ends_well (str ": ")) by (exists [58%N], 32%N; split; [reflexivity|discriminate]).
  destruct (is_string v CIRCULAR_REFERENCE_MARKER) eqn:H1; cbn [orb].
  { right. apply is_string_true in H1 as ->. cbn [String_of].
    apply ends_well_str_app; [exact Hcolon|vm_compute; discriminate]. }
  destruct (is_string v ACCESS_ERROR_MARKER) eqn:H2; cbn [orb].
  { right. apply is_string_true in H2 as ->. cbn [String_of].
    apply ends_well_str_app; [exact Hcolon|vm_compute; discriminate]. }
  destruct (carries_value (type n)); [|by left]. right.
  destruct v as [| |b|x|s|d|z|f|l];
    try (apply ends_well_str_app; [exact Hcolon|];
         apply String_of_ends; [exact Hnum|exact Hp|discriminate]).
  apply ends_well_app. unfold display_text.
  exists (DQUOTE :: take 50 (escape_newlines s)
            ++ (if (50 <? length s)%nat then str "..." else [])), DQUOTE.
  split; [|discriminate]. cbn [app]. by rewrite <- app_assoc.
Qed.

Lemma node_line_ends n indent isLast :
  (forall x, last (Number_toString x) <> Some LF) ->
  (forall v, value n = Some v -> primitive v) ->
  ends_well (node_line Number_toString Object_toString n indent isLast).
Proof.
  intros Hnum Hp. unfold node_line.
  destruct (value_suffix_ends n Hnum Hp) as [-> | He].
  - rewrite app_nil_r, !app_assoc. exists (((indent ++ connector isLast) ++ name n)
      ++ str " (" ++ PropertyType_text (type n)), 41%N.
    split; [|discriminate]. by rewrite <- !app_assoc.
  - do 5 apply ends_well_app. exact He.
Qed.

Lemma each_child_last f cs c :
  last cs = Some c -> exists lines, each_child f cs = lines ++ [f c true].
Proof.
  induction cs as [|a cs IH]; simpl; [discriminate|].
  destruct cs as [|b cs].
  - intros [= ->]. by exists [].
  - intros Hl. destruct (IH Hl) as [lines Hlines].
    exists (f a false :: lines). simpl in *. by rewrite Hlines.
Qed.

Lemma plain_child nm ty v cs i c :
  plain (mkNode nm ty v (Some cs)) -> cs !! i = Some c -> plain c.
Proof.
  intros Hp Hi q n x Hq Hx. apply (Hp (i :: q) n x); [|exact Hx].
  simpl. by rewrite Hi.
Qed.

(** The text of a subtree is not empty and does not end in a line feed. *)
Lemma format_ends_well t :
  (forall x, last (Number_toString x) <> Some LF) ->
  plain t ->
  forall indent isLast,
    ends_well (formatNodeToString Number_toString Object_toString t indent isLast).
Proof.
  intros Hnum. induction t as [nm ty v|nm ty v cs IH] using PropertyTreeNode_ind;
    intros Hp indent isLast; simpl.
  - apply node_line_ends; [exact Hnum|]. intros x Hx. by apply (Hp [] _ x eq_refl).
  - assert (Hline : ends_well (node_line Number_toString Object_toString
                                 (mkNode nm ty v (Some cs)) indent isLast)).
    { apply node_line_ends; [exact Hnum|]. intros x Hx. by apply (Hp [] _ x eq_refl). }
    destruct (last cs) as [c|] eqn:Hl.
    + destruct (each_child_last
                  (fun child isLastChild =>
                     formatNodeToString Number_toString Object_toString child
                       (indent ++ child_indent isLast) isLastChild) cs c Hl) as [lines ->].
      assert (Hc : c ∈ cs).
      { apply last_Some in Hl as [l' ->]. apply elem_of_app. right. left. }
      rewrite Forall_forall in IH.
      apply list_elem_of_lookup in Hc as Hi. destruct Hi as [i Hi].
      change (ends_well (join LF ((node_line Number_toString Object_toString
                (mkNode nm ty v (Some cs)) indent isLast :: lines)
                ++ [formatNodeToString Number_toString Object_toString c
                      (indent ++ child_indent isLast) true]))).
      apply ends_well_join. apply IH; [exact Hc|]. eapply plain_child; eauto.
    + apply last_None in Hl as ->. simpl. exact Hline.
Qed.

Lemma join_first sep l ls : exists rest, join sep (l :: ls) = l ++ rest.
Proof.
  destruct ls as [|l' ls]; simpl.
  - exists []. by rewrite app_nil_r.
  - eauto.
Qed.

Lemma formatNodeToString_eq node indent isLast :
  formatNodeToString Number_toString Object_toString node indent isLast
  = join LF
      (node_line Number_toString Object_toString node indent isLast ::
         match children node with
         | Some cs =>
             each_child (fun child isLastChild =>
                 formatNodeToString Number_toString Object_toString child
                   (indent ++ child_indent isLast) isLastChild) cs
         | None => []
         end).
Proof. destruct node; reflexivity. Qed.

(** The text of a tree starts with the connector of a last sibling. *)
Lemma format_root_connector t :
  exists rest,
    formatPropertyTreeToString Number_toString Object_toString t
    = [BOX_UP_RIGHT; BOX_HORIZONTAL; 32%N] ++ name t ++ rest.
Proof.
  unfold formatPropertyTreeToString. rewrite formatNodeToString_eq.
  match goal with |- context [join LF (?l :: ?ls)] =>
    destruct (join_first LF l ls) as [rest ->] end.
  unfold node_line. cbn [app connector].
  eexists. rewrite <- !app_assoc. reflexivity.
Qed.

End RenderFacts.

(** * The repository's tests *)

Example test_format_primitive_root :
  test_render empty_heap (JsString (str "hello")) 1
  = Some (text "└─ root (string): 'hello'").
Proof. vm_compute. reflexivity. Qed.

Example test_format_null_root :
  test_render empty_heap JsNull 1 = Some (text "└─ root (null): null").
Proof. vm_compute. reflexivity. Qed.

Example test_format_simple_object :
  test_render test_heap (JsObject 10%nat) 2
  = Some (text "└─ root (object)
   ├─ a (number): 1
   └─ b (string): 'bee'").
Proof. vm_compute. reflexivity. Qed.

Example test_format_simple_array :
  test_render test_heap (JsObject 11%nat) 2
  = Some (text "└─ root (array)
   ├─ [0] (boolean): true
   └─ [1] (number): 42").
Proof. vm_compute. reflexivity. Qed.

Example test_format_nested :
  test_render test_heap (JsObject 12%nat) 3
  = Some (text "└─ root (object)
   └─ data (array)
      ├─ [0] (null): null
      └─ [1] (object)
         └─ val (string): 'x'").
Proof. vm_compute. reflexivity. Qed.

Example test_format_max_depth :
  test_render test_heap (JsObject 15%nat) 1
  = Some (text "└─ root (object)
   └─ level1 (object)").
Proof. vm_compute. reflexivity. Qed.

Example test_format_depth_0 :
  test_render test_heap (JsObject 15%nat) 0 = Some (text "└─ root (object)").
Proof. vm_compute. reflexivity. Qed.

Example test_format_circular :
  test_render cyclic_heap (JsObject O) 3
  = Some (text "└─ root (object)
   ├─ name (string): 'Circular'
   └─ self (object): [Circular Reference]").
Proof. vm_compute. reflexivity. Qed.

Example test_format_access_error :
  test_render getter_heap (JsObject O) 2
  = Some (text "└─ root (object)
   ├─ safe (string): 'ok'
   └─ problematic (error): [Access Error]").
Proof. vm_compute. reflexivity. Qed.

Example test_format_function :
  test_render test_heap (JsObject 17%nat) 2
  = Some (text "└─ root (object)
   └─ myFunc (function)").
Proof. vm_compute. reflexivity. Qed.

Example test_format_empty_object :
  test_render test_heap (JsObject 19%nat) 1 = Some (text "└─ root (object)").
Proof. vm_compute. reflexivity. Qed.

Example test_format_empty_array :
  test_render test_heap (JsObject 20%nat) 1 = Some (text "└─ root (array)").
Proof. vm_compute. reflexivity. Qed.

Example test_format_truncation :
  test_render test_heap (JsObject 21%nat) 2
  = Some (text "└─ root (object)
   ├─ long (string): 'This is a very long string that definitely exceeds...'
   └─ multi (string): 'First line\nSecond line'").
Proof. vm_compute. reflexivity. Qed.

Example test_empty_containers_have_children :
  buildPropertyTree no_accessors test_heap 10 (JsObject 19%nat) (number_of_Z 1)
    (str "root") tt = Some (Normal (mkNode (str "root") Tobject None (Some [])), tt)
  /\ buildPropertyTree no_accessors test_heap 10 (JsObject 20%nat) (number_of_Z 1)
       (str "root") tt = Some (Normal (mkNode (str "root") Tarray None (Some [])), tt).
Proof. split; vm_compute; reflexivity. Qed.

(** [-1] and [1.5] are rejected, [0] is not. *)
Example test_invalid_depth :
  buildPropertyTree no_accessors test_heap 10 (JsObject 10%nat) (number_of_Z (-1))
    (str "root") tt = Some (Throw (InvalidDepthError (number_of_Z (-1))), tt)
  /\ buildPropertyTree no_accessors test_heap 10 (JsObject 10%nat)
       (S754_finite false 3 (-1)) (str "root") tt
     = Some (Throw (InvalidDepthError (S754_finite false 3 (-1))), tt)
  /\ buildPropertyTree no_accessors test_heap 10 (JsObject 10%nat) (number_of_Z 0)
       (str "root") tt = Some (Normal (mkNode (str "root") Tobject None None), tt).
Proof. repeat split; vm_compute; reflexivity. Qed.

(** * The claims *)

(** C8.  [buildPropertyTree("hello", 1)] is exactly the node named "root",
    of type string, with value "hello" and without children; its rendering is
    exactly the one line [└─ root (string): "hello"].  The text of every tree
    starts with the connector [└─ ] followed by the name of the root, and the
    text of a tree that [buildPropertyTree] returned does not end in a line
    feed (the host never printing a number with a line feed at its end). *)
Theorem C8_hello_and_root_line :
  forall (W : Type) (invoke : getter -> W -> outcome * W) (h : heap) (w : W)
         (Number_toString : number -> jsstring) (Object_toString : loc -> jsstring),
    (forall fuel,
       buildPropertyTree invoke h fuel (JsString (str "hello")) (number_of_Z 1)
         (str "root") w
       = Some (Normal (mkNode (str "root") Tstring (Some (JsString (str "hello"))) None), w))
    /\ formatPropertyTreeToString Number_toString Object_toString
         (mkNode (str "root") Tstring (Some (JsString (str "hello"))) None)
       = [BOX_UP_RIGHT; BOX_HORIZONTAL] ++ str " root (string): "
           ++ [DQUOTE] ++ str "hello" ++ [DQUOTE]
    /\ (forall t, exists rest,
          formatPropertyTreeToString Number_toString Object_toString t
          = [BOX_UP_RIGHT; BOX_HORIZONTAL; 32%N] ++ name t ++ rest)
    /\ (forall fuel obj maxDepth rootName t w',
          (forall x, last (Number_toString x) <> Some LF) ->
          buildPropertyTree invoke h fuel obj maxDepth rootName w = Some (Normal t, w') ->
          formatPropertyTreeToString Number_toString Object_toString t <> []
          /\ last (formatPropertyTreeToString Number_toString Object_toString t)
             <> Some LF).
Proof.
  intros W invoke h w Number_toString Object_toString.
  split; [|split; [|split]].
  - intros fuel. reflexivity.
  - vm_compute. reflexivity.
  - apply format_root_connector.
  - intros fuel obj maxDepth rootName t w' Hnum Hb.
    assert (He : ends_well (formatPropertyTreeToString Number_toString Object_toString t)).
    { apply format_ends_well; [exact Hnum|].
      intros q n v Hq Hv.
      apply (ok_primitive _ _ _ (build_nodes _ _ _ _ _ _ _ _ _ Hb q n Hq) v Hv). }
    split; [|by apply ends_well_last].
    destruct He as (s' & c & -> & _). by destruct s'.
Qed.

Lemma escape_newlines_length s : (length s <= length (escape_newlines s))%nat.
Proof.
  induction s as [|c s IH]; simpl; [lia|].
  destruct (c =? LF)%N; simpl; rewrite ?length_app; simpl; lia.
Qed.

(** C3, as stated, fails twice.  A text value equal to a marker is printed
    as the marker, without quotes; and a value of 50 code units that holds a
    line feed is cut (its escaped form has 51) but gets no dots, since the
    test for the dots reads the length of the value before escaping.  Both
    nodes are what [buildPropertyTree] returns for these strings. *)
Lemma C3_counterexample :
  (buildPropertyTree no_accessors empty_heap O (JsString ACCESS_ERROR_MARKER)
     (number_of_Z 1) (str "root") tt
   = Some (Normal (mkNode (str "root") Tstring (Some (JsString ACCESS_ERROR_MARKER)) None), tt)
   /\ value_suffix prints_nothing prints_nothing
        (mkNode (str "root") Tstring (Some (JsString ACCESS_ERROR_MARKER)) None)
      <> text_suffix_as_claimed ACCESS_ERROR_MARKER)
  /\ (buildPropertyTree no_accessors empty_heap O (JsString (replicate 49 97%N ++ [LF]))
        (number_of_Z 1) (str "root") tt
      = Some (Normal (mkNode (str "root") Tstring
                        (Some (JsString (replicate 49 97%N ++ [LF]))) None), tt)
      /\ value_suffix prints_nothing prints_nothing
           (mkNode (str "root") Tstring (Some (JsString (replicate 49 97%N ++ [LF]))) None)
         <> text_suffix_as_claimed (replicate 49 97%N ++ [LF])).
Proof.
  split; (split; [reflexivity|]); vm_compute; discriminate.
Qed.

(** C3, amended.  For a node of type string whose value is the string [s]:
    when [s] is one of the two markers the suffix is the marker itself,
    unquoted; otherwise, and unless [s] has at most 50 code units while its
    escaped form has more, the suffix is the escaped value cut to 50 code
    units, followed by three dots exactly when the cut removed something,
    between double quotes. *)
Theorem C3_text_suffix :
  forall (Number_toString : number -> jsstring) (Object_toString : loc -> jsstring)
         (node : PropertyTreeNode) (s : jsstring),
    type node = Tstring ->
    value node = Some (JsString s) ->
    (s = CIRCULAR_REFERENCE_MARKER \/ s = ACCESS_ERROR_MARKER ->
       value_suffix Number_toString Object_toString node = str ": " ++ s)
    /\ (s <> CIRCULAR_REFERENCE_MARKER -> s <> ACCESS_ERROR_MARKER ->
        ((length s <= 50)%nat -> (length (escape_newlines s) <= 50)%nat) ->
        value_suffix Number_toString Object_toString node = text_suffix_as_claimed s).
Proof.
  intros Number_toString Object_toString node s Hty Hv. unfold value_suffix.
  rewrite Hv, Hty. cbn [is_string String_of]. split.
  - intros [-> | ->]; [reflexivity|].
    rewrite (bool_decide_eq_true_2 (ACCESS_ERROR_MARKER = ACCESS_ERROR_MARKER) eq_refl).
    by rewrite orb_true_r.
  - intros H1 H2 Hlen.
    rewrite (bool_decide_eq_false_2 _ H1), (bool_decide_eq_false_2 _ H2).
    cbn [orb]. change (carries_value Tstring) with true. cbn iota.
    unfold text_suffix_as_claimed, display_text. cbn zeta.
    pose proof (escape_newlines_length s) as Hge.
    rewrite length_take.
    assert (Hc : (50 <? length s)%nat
                 = (50 `min` length (escape_newlines s) <? length (escape_newlines s))%nat).
    { destruct (50 <? length s)%nat eqn:E1;
        destruct (50 `min` length (escape_newlines s) <? length (escape_newlines s))%nat eqn:E2;
        try reflexivity.
      - apply Nat.ltb_lt in E1. apply Nat.ltb_ge in E2. lia.
      - apply Nat.ltb_ge in E1. apply Nat.ltb_lt in E2. specialize (Hlen E1). lia. }
    rewrite Hc. reflexivity.
Qed.

Lemma C3_text_suffix_witness :
  (CIRCULAR_REFERENCE_MARKER = CIRCULAR_REFERENCE_MARKER
   \/ CIRCULAR_REFERENCE_MARKER = ACCESS_ERROR_MARKER ->
   value_suffix prints_nothing prints_nothing
     (mkNode (str "root") Tstring (Some (JsString CIRCULAR_REFERENCE_MARKER)) None)
   = str ": " ++ CIRCULAR_REFERENCE_MARKER)
  /\ value_suffix prints_nothing prints_nothing
       (mkNode (str "multi") Tstring
          (Some (JsString (str "First line" ++ [LF] ++ str "Second line"))) None)
     = text_suffix_as_claimed (str "First line" ++ [LF] ++ str "Second line").
Proof.
  split.
  - apply (C3_text_suffix prints_nothing prints_nothing
             (mkNode (str "root") Tstring (Some (JsString CIRCULAR_REFERENCE_MARKER)) None)
             CIRCULAR_REFERENCE_MARKER); reflexivity.
  - apply (C3_text_suffix prints_nothing prints_nothing
             (mkNode (str "multi") Tstring
                (Some (JsString (str "First line" ++ [LF] ++ str "Second line"))) None)
             (str "First line" ++ [LF] ++ str "Second line")).
    + reflexivity.
    + reflexivity.
    + vm_compute. discriminate.
    + vm_compute. discriminate.
    + vm_compute. lia.
Defined.

Lemma cyclic_tree_built :
  buildPropertyTree no_accessors cyclic_heap 1 (JsObject O) (number_of_Z 2) (str "root") tt
  = Some (Normal cyclic_tree, tt).
Proof. vm_compute. reflexivity. Qed.

(** C6.  In a tree returned by [buildPropertyTree] every node has a value
    and no children, or children and no value, or neither.  A node of type
    object or array that has a value is a circular-reference node: its value
    is the circular-reference marker and it has no children.  Any other node
    that has a value is of a type that carries one, and only nodes of type
    object or array have children. *)
Theorem C6_value_or_children :
  forall (W : Type) (invoke : getter -> W -> outcome * W) (h : heap)
         (fuel : nat) (obj : JsValue) (maxDepth : number) (rootName : jsstring)
         (w : W) (t : PropertyTreeNode) (w' : W),
    buildPropertyTree invoke h fuel obj maxDepth rootName w = Some (Normal t, w') ->
    forall q n, node_at q t = Some n ->
      ((value n <> None /\ children n = None)
       \/ (value n = None /\ children n <> None)
       \/ (value n = None /\ children n = None))
      /\ (container_kind (type n) -> value n <> None ->
          value n = Some (JsString CIRCULAR_REFERENCE_MARKER) /\ children n = None)
      /\ (value n <> None -> container_kind (type n) \/ carries_value (type n) = true)
      /\ (children n <> None -> container_kind (type n)).
Proof.
  intros W invoke h fuel obj maxDepth rootName w t w' Hb q n Hq.
  destruct (build_nodes _ _ _ _ _ _ _ _ _ Hb q n Hq) as [H1 H2 H3 H4 H5].
  split; [|split; [|split]].
  - destruct (children n) as [cs|] eqn:Hc.
    + destruct (H1 cs eq_refl) as (Hv & _). right. left. split; [exact Hv|discriminate].
    + destruct (value n); [left|right; right]; split; congruence.
  - intros Hk Hv. destruct (value n) as [v|] eqn:Ev; [|congruence].
    destruct (H2 Hk v eq_refl) as [-> _]. split; [reflexivity|].
    destruct (children n) as [cs|] eqn:Hc; [|reflexivity].
    destruct (H1 cs eq_refl) as (Hv' & _). congruence.
  - intros Hv. destruct (type n) eqn:Ety; unfold container_kind; auto.
    all: exfalso; apply Hv; apply H4; reflexivity.
  - intros Hc. destruct (children n) as [cs|]; [|congruence].
    by destruct (H1 cs eq_refl) as (_ & Hk & _).
Qed.

Lemma C6_value_or_children_witness :
  ((value cyclic_self_node <> None /\ children cyclic_self_node = None)
   \/ (value cyclic_self_node = None /\ children cyclic_self_node <> None)
   \/ (value cyclic_self_node = None /\ children cyclic_self_node = None))
  /\ (container_kind (type cyclic_self_node) -> value cyclic_self_node <> None ->
      value cyclic_self_node = Some (JsString CIRCULAR_REFERENCE_MARKER)
      /\ children cyclic_self_node = None)
  /\ (value cyclic_self_node <> None ->
      container_kind (type cyclic_self_node)
      \/ carries_value (type cyclic_self_node) = true)
  /\ (children cyclic_self_node <> None -> container_kind (type cyclic_self_node)).
Proof.
  apply (C6_value_or_children unit no_accessors cyclic_heap 1 (JsObject O)
           (number_of_Z 2) (str "root") tt cyclic_tree tt cyclic_tree_built
           [1%nat] cyclic_self_node).
  reflexivity.
Defined.

Lemma no_LF_by_test (s : jsstring) :
  forallb (fun c => negb (c =? LF)%N) s = true -> LF ∉ s.
Proof.
  induction s as [|c s IH]; simpl; intros Ht Hin; [inversion Hin|].
  apply andb_true_iff in Ht as [Hc Hs].
  apply elem_of_cons in Hin as [<- | Hin]; [discriminate|by apply IH].
Qed.

(** C2, as stated, fails: with [maxDepth = 2] the child [self] of
    [circularObj] is of type object and sits at depth 1, yet it has no
    children, being a circular reference. *)
Lemma C2_counterexample :
  exists t,
    buildPropertyTree no_accessors cyclic_heap 1 (JsObject O) (number_of_Z 2)
      (str "root") tt = Some (Normal t, tt)
    /\ ~ depth_bound_as_claimed t (Number_toZ (number_of_Z 2)).
Proof.
  exists cyclic_tree. split; [exact cyclic_tree_built|].
  intros H. specialize (H [1%nat] cyclic_self_node eq_refl (or_introl eq_refl)).
  destruct H as [_ H]. apply H; [simpl; lia|reflexivity].
Qed.

(** C2, amended.  In a tree returned by [buildPropertyTree] a node of type
    object or array has children if and only if its depth below the root is
    less than [maxDepth] and it is not marked as a circular reference.  With
    [maxDepth = 0] and an object or array as the argument, the rendering is
    the one line of the root, which holds no line feed unless the name
    given to the root does. *)
Theorem C2_depth_bound :
  forall (W : Type) (invoke : getter -> W -> outcome * W) (h : heap)
         (fuel : nat) (obj : JsValue) (maxDepth : number) (rootName : jsstring)
         (w : W) (t : PropertyTreeNode) (w' : W),
    buildPropertyTree invoke h fuel obj maxDepth rootName w = Some (Normal t, w') ->
    (forall q n, node_at q t = Some n -> container_kind (type n) ->
       (children n <> None <->
        Z.of_nat (length q) < Number_toZ maxDepth
        /\ value n <> Some (JsString CIRCULAR_REFERENCE_MARKER)))
    /\ (Number_eq0 maxDepth = true -> container_kind (getPropertyType h obj) ->
        forall (Number_toString : number -> jsstring) (Object_toString : loc -> jsstring),
          formatPropertyTreeToString Number_toString Object_toString t
          = [BOX_UP_RIGHT; BOX_HORIZONTAL; 32%N] ++ rootName ++ str " ("
              ++ PropertyType_text (getPropertyType h obj) ++ str ")"
          /\ (LF ∉ rootName ->
              LF ∉ formatPropertyTreeToString Number_toString Object_toString t)).
Proof.
  intros W invoke h fuel obj maxDepth rootName w t w' Hb. split.
  - intros q n Hq Hk.
    destruct (build_nodes _ _ _ _ _ _ _ _ _ Hb q n Hq) as [H1 H2 H3 H4 H5]. split.
    + intros Hc. destruct (children n) as [cs|] eqn:Ec; [|congruence].
      destruct (H1 cs eq_refl) as (Hv & _ & Hd). split; [exact Hd|congruence].
    + intros [Hd Hv] Hc. apply Hv. by apply H3.
  - intros H0 Hk Number_toString Object_toString.
    rewrite (build_depth_zero invoke h fuel obj maxDepth rootName w H0) in Hb.
    assert (Hcv : carries_value (getPropertyType h obj) = false).
    { destruct Hk as [-> | ->]; reflexivity. }
    rewrite Hcv in Hb. injection Hb as <- <-.
    assert (Heq : formatPropertyTreeToString Number_toString Object_toString
                    (mkNode rootName (getPropertyType h obj) None None)
                  = [BOX_UP_RIGHT; BOX_HORIZONTAL; 32%N] ++ rootName ++ str " ("
                      ++ PropertyType_text (getPropertyType h obj) ++ str ")").
    { unfold formatPropertyTreeToString. rewrite formatNodeToString_eq.
      cbn [children join]. unfold node_line, value_suffix. cbn [value name type app connector].
      by rewrite app_nil_r. }
    split; [exact Heq|]. rewrite Heq. intros Hname Hin.
    rewrite !elem_of_app in Hin.
    destruct Hin as [Hin|[Hin|[Hin|[Hin|Hin]]]]; [|by apply Hname| | |];
      revert Hin; apply no_LF_by_test; try reflexivity.
    destruct Hk as [-> | ->]; reflexivity.
Qed.

(** ** The children of an expanded node *)

Section Children.

Context {W : Type}.
Variable invoke : getter -> W -> outcome * W.
Variable h : heap.

Lemma resolve_members_lookup ms : forall k key d w,
  ms !! k = Some (key, d) ->
  (resolve_members invoke ms w).1 !! k
  = Some (key, (resolve_descriptor invoke d
                  (resolve_members invoke (take k ms) w).2).1).
Proof.
  induction ms as [|[key0 d0] ms IH]; intros k key d w; [discriminate|].
  destruct k as [|k]; simpl.
  - intros H. injection H as H1 H2. subst key0 d0.
    destruct (resolve_descriptor invoke d w) as [o w1].
    destruct (resolve_members invoke ms w1) as [os w2]. reflexivity.
  - intros Hk.
    destruct (resolve_descriptor invoke d0 w) as [o w1].
    specialize (IH k key d w1 Hk).
    destruct (resolve_members invoke ms w1) as [os w2].
    destruct (resolve_members invoke (take k ms) w1) as [os' w2']. exact IH.
Qed.

Lemma resolve_members_length ms : forall w,
  length (resolve_members invoke ms w).1 = length ms.
Proof.
  induction ms as [|[key0 d0] ms IH]; intros w; simpl; [reflexivity|].
  destruct (resolve_descriptor invoke d0 w) as [o w1].
  specialize (IH w1). destruct (resolve_members invoke ms w1) as [os w2].
  simpl in *. by rewrite IH.
Qed.

Lemma child_shapes_lookup n (l : list PropertyTreeNode) k x :
  child_shapes n = Some (shape <$> l) -> l !! k = Some x ->
  exists cs c, children n = Some cs /\ length cs = length l
               /\ cs !! k = Some c /\ shape c = shape x.
Proof.
  unfold child_shapes. destruct (children n) as [cs|]; [|discriminate].
  intros [= Hs] Hk. exists cs.
  assert (Hk' : (shape <$> cs) !! k = Some (shape x)).
  { rewrite Hs, list_lookup_fmap, Hk. reflexivity. }
  rewrite list_lookup_fmap in Hk'.
  destruct (cs !! k) as [c|] eqn:Hc; [|discriminate].
  exists c. simpl in Hk'. assert (Hsh : shape c = shape x) by congruence.
  split; [reflexivity|]. split; [|split; [reflexivity|exact Hsh]].
  apply (f_equal length) in Hs. by rewrite !length_fmap in Hs.
Qed.

Lemma build_trace_inv fuel obj maxDepth rootName w x :
  x ∈ build_trace invoke h fuel obj maxDepth rootName w ->
  Number_eq0 maxDepth = false /\ exists r, obj = JsObject r.
Proof.
  unfold build_trace.
  destruct (Number_lt0 maxDepth || negb (Number_isInteger maxDepth)); simpl;
    [intros Hx; inversion Hx|].
  destruct (Number_eq0 maxDepth); [intros Hx; inversion Hx|].
  destruct obj; try (intros Hx; inversion Hx; fail). eauto.
Qed.

(** Every member of a container that was taken off the queue has its node,
    at the member's position, among the children of the container's node. *)
Lemma build_member fuel obj maxDepth rootName w t w' w0 item k key d :
  buildPropertyTree invoke h fuel obj maxDepth rootName w = Some (Normal t, w') ->
  (w0, item) ∈ build_trace invoke h fuel obj maxDepth rootName w ->
  members (h (WorkItem.obj item)) !! k = Some (key, d) ->
  exists n cs c,
    node_at (WorkItem.parent item) t = Some n
    /\ children n = Some cs
    /\ length cs = length (members (h (WorkItem.obj item)))
    /\ cs !! k = Some c
    /\ outcomes invoke h w0 item !! k
       = Some (key, (resolve_descriptor invoke d
                       (resolve_members invoke
                          (take k (members (h (WorkItem.obj item)))) w0).2).1)
    /\ shape c
       = shape (child_node h (Number_toZ maxDepth) item
                  (key, (resolve_descriptor invoke d
                           (resolve_members invoke
                              (take k (members (h (WorkItem.obj item)))) w0).2).1)).
Proof.
  intros Hb Hin Hk.
  destruct (build_trace_inv _ _ _ _ _ _ Hin) as (H0 & r & ->).
  pose proof (build_Inv invoke h _ _ _ _ _ _ _ Hb H0) as HI.
  destruct (inv_done _ _ _ _ _ HI _ _ Hin) as (n & Hn & Hcs). simpl in Hn.
  pose proof (resolve_members_lookup _ _ _ _ w0 Hk) as Ho.
  fold (outcomes invoke h w0 item) in Ho.
  destruct (child_shapes_lookup n _ k
              (child_node h (Number_toZ maxDepth) item
                 (key, (resolve_descriptor invoke d
                          (resolve_members invoke
                             (take k (members (h (WorkItem.obj item)))) w0).2).1)) Hcs)
    as (cs & c & Hc1 & Hc2 & Hc3 & Hc4).
  { rewrite list_lookup_fmap, Ho. reflexivity. }
  exists n, cs, c. repeat split; try done.
  rewrite Hc2, length_fmap. unfold outcomes. apply resolve_members_length.
Qed.

End Children.

Lemma shape_fields c x :
  shape c = shape x ->
  name c = name x /\ type c = type x /\ value c = value x
  /\ (children x = None -> children c = None)
  /\ (children x <> None -> children c <> None).
Proof.
  unfold shape. intros [= H1 H2 H3 H4]. repeat split; try done.
  - intros Hx. rewrite Hx in H4. destruct (children c); [discriminate|reflexivity].
  - intros Hx Hc. rewrite Hc in H4. destruct (children x); [discriminate|congruence].
Qed.

Lemma child_node_member h D item key o c :
  shape c = shape (child_node h D item (key, o)) -> member_node h key o c.
Proof.
  intros Hs. apply shape_fields in Hs as (Hn & Ht & Hv & Hc & _).
  rewrite child_node_name in Hn. split; [exact Hn|].
  unfold child_node in *. simpl in *. destruct o as [v|].
  - destruct v; simpl in *;
      try (split; [exact Ht|]; split;
           [intros _; split; [exact Hv|by apply Hc]
           |unfold getPropertyType; simpl; discriminate]).
    + (* a function *)
      split; [exact Ht|]. split; [discriminate|].
      intros _. split; [exact Hv|by apply Hc].
    + (* an object or an array *)
      assert (Hty : type c = getPropertyType h (JsObject l)).
      { destruct (WorkItem.depth item + 1 <? D); [|exact Ht].
        destruct (bool_decide (l ∈ WorkItem.visited item)); exact Ht. }
      split; [exact Hty|]. rewrite carries_value_object. split; [discriminate|].
      rewrite getPropertyType_object. destruct (h l); discriminate.
  - repeat split; [exact Ht|exact Hv|by apply Hc].
Qed.




Lemma C2_depth_bound_witness :
  (forall q n, node_at q cyclic_tree = Some n -> container_kind (type n) ->
     (children n <> None <->
      Z.of_nat (length q) < Number_toZ (number_of_Z 2)
      /\ value n <> Some (JsString CIRCULAR_REFERENCE_MARKER)))
  /\ (Number_eq0 (number_of_Z 2) = true ->
      container_kind (getPropertyType cyclic_heap (JsObject O)) ->
      forall (Number_toString : number -> jsstring) (Object_toString : loc -> jsstring),
        formatPropertyTreeToString Number_toString Object_toString cyclic_tree
        = [BOX_UP_RIGHT; BOX_HORIZONTAL; 32%N] ++ str "root" ++ str " ("
            ++ PropertyType_text (getPropertyType cyclic_heap (JsObject O)) ++ str ")"
        /\ (LF ∉ str "root" ->
            LF ∉ formatPropertyTreeToString Number_toString Object_toString cyclic_tree)).
Proof.
  apply (C2_depth_bound unit no_accessors cyclic_heap 1 (JsObject O)
           (number_of_Z 2) (str "root") tt cyclic_tree tt).
  vm_compute. reflexivity.
Defined.

Lemma build_children {W : Type} (invoke : getter -> W -> outcome * W) (h : heap)
    fuel obj maxDepth rootName w t w' w0 item :
  buildPropertyTree invoke h fuel obj maxDepth rootName w = Some (Normal t, w') ->
  (w0, item) ∈ build_trace invoke h fuel obj maxDepth rootName w ->
  exists n cs,
    node_at (WorkItem.parent item) t = Some n /\ children n = Some cs
    /\ members_match invoke h (members (h (WorkItem.obj item))) w0 cs.
Proof.
  intros Hb Hin.
  destruct (build_trace_inv _ _ _ _ _ _ _ _ Hin) as (H0 & r & ->).
  pose proof (build_Inv invoke h _ _ _ _ _ _ _ Hb H0) as HI.
  destruct (inv_done _ _ _ _ _ HI _ _ Hin) as (n & Hn & Hcs). simpl in Hn.
  destruct (children n) as [cs|] eqn:Hc;
    [|unfold child_shapes in Hcs; rewrite Hc in Hcs; discriminate].
  exists n, cs. split; [exact Hn|]. split; [exact Hc|]. split.
  - unfold child_shapes in Hcs. rewrite Hc in Hcs. injection Hcs as Hcs.
    apply (f_equal length) in Hcs. rewrite !length_fmap in Hcs. rewrite Hcs.
    unfold outcomes. apply resolve_members_length.
  - intros k key d Hk.
    destruct (build_member invoke h _ _ _ _ _ _ _ _ _ k key d Hb Hin Hk)
      as (n' & cs' & c & Hn' & Hcs' & _ & Hck & _ & Hs).
    rewrite Hn in Hn'. injection Hn' as <-. rewrite Hc in Hcs'. injection Hcs' as <-.
    exists c. split; [exact Hck|]. eapply child_node_member. exact Hs.
Qed.

(** C7, as stated, fails: a setter-only property is read as [undefined], so
    its node is of type undefined and holds [undefined]; the type null and
    the value [null] are the other of the two empty values. *)
Lemma C7_counterexample :
  exists t c,
    buildPropertyTree no_accessors setter_heap 1 (JsObject O) (number_of_Z 1)
      (str "root") tt = Some (Normal t, tt)
    /\ children t = Some [c]
    /\ name c = str "x"
    /\ type c = Tundefined /\ value c = Some JsUndefined
    /\ ~ (type c = Tnull /\ value c = Some JsNull).
Proof.
  eexists _, _. split; [vm_compute; reflexivity|].
  split; [reflexivity|]. split; [reflexivity|].
  split; [reflexivity|]. split; [reflexivity|].
  simpl. intros [? _]. discriminate.
Qed.

(** C7, amended.  A property of a record whose descriptor has neither a
    value nor a getter is read as [undefined]: wherever the record is
    expanded, as the argument of the call or below it, the node of that
    property is of type undefined, holds the value [undefined] and has no
    children; it is not an access-error node. *)
Theorem C7_setter_only_member :
  forall (W : Type) (invoke : getter -> W -> outcome * W) (h : heap)
         (fuel : nat) (obj : JsValue) (maxDepth : number) (rootName : jsstring)
         (w : W) (t : PropertyTreeNode) (w' : W),
    buildPropertyTree invoke h fuel obj maxDepth rootName w = Some (Normal t, w') ->
    (forall r props k key, obj = JsObject r -> h r = Obj props ->
       Number_eq0 maxDepth = false ->
       props !! k = Some (key, AccessorProperty None) ->
       exists cs c, children t = Some cs /\ cs !! k = Some c
         /\ name c = key /\ type c = Tundefined
         /\ value c = Some JsUndefined /\ children c = None)
    /\ (forall w0 item props k key,
          (w0, item) ∈ build_trace invoke h fuel obj maxDepth rootName w ->
          h (WorkItem.obj item) = Obj props ->
          props !! k = Some (key, AccessorProperty None) ->
          exists n cs c, node_at (WorkItem.parent item) t = Some n
            /\ children n = Some cs /\ cs !! k = Some c
            /\ name c = key /\ type c = Tundefined
            /\ value c = Some JsUndefined /\ children c = None).
Proof.
  intros W invoke h fuel obj maxDepth rootName w t w' Hb.
  assert (Hgen : forall w0 item props k key,
            (w0, item) ∈ build_trace invoke h fuel obj maxDepth rootName w ->
            h (WorkItem.obj item) = Obj props ->
            props !! k = Some (key, AccessorProperty None) ->
            exists n cs c, node_at (WorkItem.parent item) t = Some n
              /\ children n = Some cs /\ cs !! k = Some c
              /\ name c = key /\ type c = Tundefined
              /\ value c = Some JsUndefined /\ children c = None).
  { intros w0 item props k key Hin Hp Hk.
    destruct (build_children invoke h _ _ _ _ _ _ _ _ _ Hb Hin)
      as (n & cs & Hn & Hcs & _ & Hm).
    rewrite Hp in Hm. simpl in Hm.
    destruct (Hm k key _ Hk) as (c & Hc & Hname & Hty & Hval & _).
    destruct (Hval eq_refl) as [Hv Hch].
    exists n, cs, c. auto 10. }
  split; [|exact Hgen].
  intros r props k key -> Hr H0 Hk.
  pose proof (build_trace_root invoke h _ _ _ _ _ _ _ Hb H0) as Hroot.
  destruct (Hgen _ _ props k key Hroot Hr Hk) as (n & cs & c & Hn & H).
  simpl in Hn. injection Hn as <-. eauto.
Qed.

Lemma C7_setter_only_member_witness :
  exists t cs c,
    buildPropertyTree no_accessors setter_heap 1 (JsObject O) (number_of_Z 1)
      (str "root") tt = Some (Normal t, tt)
    /\ children t = Some cs /\ cs !! O = Some c
    /\ name c = str "x" /\ type c = Tundefined
    /\ value c = Some JsUndefined /\ children c = None.
Proof.
  destruct (C7_setter_only_member unit no_accessors setter_heap 1 (JsObject O)
              (number_of_Z 1) (str "root") tt _ tt eq_refl) as [Hroot _].
  destruct (Hroot O _ O (str "x") eq_refl eq_refl eq_refl eq_refl) as (cs & c & H).
  eexists _, cs, c. split; [reflexivity|exact H].
Defined.

(** C10.  The set [visited] of a work item holds exactly the containers
    expanded at the item's node and at the ancestors of that node.  A member
    of the item's container that is itself a container [l], within the depth
    bound, gets a node at the member's position: marked with the
    circular-reference marker and without children when [l] is on that path;
    otherwise without value and with children, [l] being put on the queue
    for that node, whether or not [l] was or will be expanded elsewhere in
    the tree. *)
Theorem C10_cycle_detection_scope :
  forall (W : Type) (invoke : getter -> W -> outcome * W) (h : heap)
         (fuel : nat) (obj : JsValue) (maxDepth : number) (rootName : jsstring)
         (w : W) (t : PropertyTreeNode) (w' : W),
    buildPropertyTree invoke h fuel obj maxDepth rootName w = Some (Normal t, w') ->
    (forall w0 item,
       (w0, item) ∈ build_trace invoke h fuel obj maxDepth rootName w ->
       forall l, l ∈ WorkItem.visited item <->
                 on_path (build_trace invoke h fuel obj maxDepth rootName w) item l)
    /\ (forall w0 item k key l,
          (w0, item) ∈ build_trace invoke h fuel obj maxDepth rootName w ->
          outcomes invoke h w0 item !! k = Some (key, Returns (JsObject l)) ->
          WorkItem.depth item + 1 < Number_toZ maxDepth ->
          exists c,
            node_at (WorkItem.parent item ++ [k]) t = Some c
            /\ ((on_path (build_trace invoke h fuel obj maxDepth rootName w) item l
                 /\ value c = Some (JsString CIRCULAR_REFERENCE_MARKER)
                 /\ children c = None)
                \/ (~ on_path (build_trace invoke h fuel obj maxDepth rootName w) item l
                    /\ value c = None /\ children c <> None
                    /\ exists w2 item2,
                         (w2, item2) ∈ build_trace invoke h fuel obj maxDepth rootName w
                         /\ WorkItem.parent item2 = WorkItem.parent item ++ [k]
                         /\ WorkItem.obj item2 = l))).
Proof.
  intros W invoke h fuel obj maxDepth rootName w t w' Hb.
  set (trace := build_trace invoke h fuel obj maxDepth rootName w).
  assert (Hall : forall HI : Inv invoke h (Number_toZ maxDepth) trace (mkState W w' t []),
            forall x, x ∈ all_items trace (mkState W w' t []) <-> exists w1, (w1, x) ∈ trace).
  { intros _ x. unfold all_items. simpl. rewrite app_nil_r. split.
    - intros Hx. apply list_elem_of_fmap in Hx as ([w1 x'] & -> & Hx). eauto.
    - intros [w1 Hx]. apply list_elem_of_fmap. exists (w1, x). auto. }
  assert (Hvis : forall w0 item, (w0, item) ∈ trace ->
            forall l, l ∈ WorkItem.visited item <-> on_path trace item l).
  { intros w0 item Hin l.
    destruct (build_trace_inv _ _ _ _ _ _ _ _ Hin) as (H0 & r & ->).
    pose proof (build_Inv invoke h _ _ _ _ _ _ _ Hb H0) as HI. fold trace in HI.
    rewrite (inv_visited _ _ _ _ _ HI item (proj2 (Hall HI item) (ex_intro _ w0 Hin)) l).
    unfold on_path. split.
    - intros (y & Hy & Hp & Ho). apply (Hall HI) in Hy as [w1 Hy]. eauto.
    - intros (w1 & y & Hy & Hp & Ho). exists y. split; [|auto].
      apply (Hall HI). eauto. }
  split; [exact Hvis|].
  intros w0 item k key l Hin Hk Hd.
  destruct (build_trace_inv _ _ _ _ _ _ _ _ Hin) as (H0 & r & ->).
  pose proof (build_Inv invoke h _ _ _ _ _ _ _ Hb H0) as HI. fold trace in HI.
  destruct (inv_done _ _ _ _ _ HI _ _ Hin) as (n & Hn & Hcs). simpl in Hn.
  destruct (child_shapes_lookup n _ k
              (child_node h (Number_toZ maxDepth) item (key, Returns (JsObject l))) Hcs)
    as (cs & c & Hc1 & _ & Hc3 & Hc4).
  { rewrite list_lookup_fmap, Hk. reflexivity. }
  exists c. split.
  { rewrite node_at_app, Hn. simpl. by rewrite Hc1, Hc3. }
  apply shape_fields in Hc4 as (_ & _ & Hv & Hcn & Hcs').
  unfold child_node in Hv, Hcn, Hcs'. simpl in Hv, Hcn, Hcs'.
  apply Z.ltb_lt in Hd. rewrite Hd in Hv, Hcn, Hcs'.
  destruct (bool_decide (l ∈ WorkItem.visited item)) eqn:Hl.
  - apply bool_decide_eq_true in Hl. left.
    split; [by apply (Hvis w0)|]. split; [exact Hv|by apply Hcn].
  - apply bool_decide_eq_false in Hl. right.
    split; [intros Hp; apply Hl; by apply (Hvis w0)|].
    split; [exact Hv|]. split; [by apply Hcs'|].
    destruct (inv_enqueued _ _ _ _ _ HI w0 item k (key, Returns (JsObject l)) l Hin Hk)
      as (y & Hy & Hp & Ho).
    { unfold enqueued_container. simpl. rewrite Hd.
      rewrite (bool_decide_eq_false_2 _ Hl). reflexivity. }
    apply (Hall HI) in Hy as [w2 Hy]. eauto.
Qed.

Lemma diamond_tree_built :
  buildPropertyTree no_accessors diamond_heap 5 (JsObject O) (number_of_Z 3)
    (str "root") tt = Some (Normal diamond_tree, tt).
Proof. vm_compute. reflexivity. Qed.

Lemma diamond_items_dequeued :
  (tt, diamond_item_a)
    ∈ build_trace no_accessors diamond_heap 5 (JsObject O) (number_of_Z 3) (str "root") tt
  /\ (tt, diamond_item_b)
    ∈ build_trace no_accessors diamond_heap 5 (JsObject O) (number_of_Z 3) (str "root") tt.
Proof.
  split.
  - apply (list_elem_of_lookup_2 _ 1%nat). vm_compute. reflexivity.
  - apply (list_elem_of_lookup_2 _ 2%nat). vm_compute. reflexivity.
Qed.

Lemma C10_cycle_detection_scope_witness :
  exists c1 c2,
    node_at [0%nat; 0%nat] diamond_tree = Some c1
    /\ node_at [1%nat; 0%nat] diamond_tree = Some c2
    /\ (value c1 = None /\ children c1 <> None
        /\ exists w2 item2,
             (w2, item2) ∈ build_trace no_accessors diamond_heap 5 (JsObject O)
                              (number_of_Z 3) (str "root") tt
             /\ WorkItem.parent item2 = [0%nat; 0%nat] /\ WorkItem.obj item2 = 3%nat)
    /\ (value c2 = None /\ children c2 <> None
        /\ exists w2 item2,
             (w2, item2) ∈ build_trace no_accessors diamond_heap 5 (JsObject O)
                              (number_of_Z 3) (str "root") tt
             /\ WorkItem.parent item2 = [1%nat; 0%nat] /\ WorkItem.obj item2 = 3%nat).
Proof.
  destruct (C10_cycle_detection_scope unit no_accessors diamond_heap 5 (JsObject O)
              (number_of_Z 3) (str "root") tt diamond_tree tt diamond_tree_built)
    as [_ H].
  destruct diamond_items_dequeued as [Ha Hb].
  destruct (H tt diamond_item_a O (str "s") 3%nat Ha eq_refl ltac:(simpl; lia))
    as (c1 & Hc1 & [(_ & Hv & _)|(_ & H1)]).
  { simpl in Hc1. injection Hc1 as <-. discriminate. }
  destruct (H tt diamond_item_b O (str "s") 3%nat Hb eq_refl ltac:(simpl; lia))
    as (c2 & Hc2 & [(_ & Hv & _)|(_ & H2)]).
  { simpl in Hc2. injection Hc2 as <-. discriminate. }
  exists c1, c2. auto.
Defined.

(** ** Two runs *)

Section TwoRuns.

Context {W : Type}.
Variable invoke : getter -> W -> outcome * W.
Variable h : heap.
Hypothesis invoke_stateless : stateless invoke.

Lemma resolve_descriptor_stateless d wa wb :
  (resolve_descriptor invoke d wa).1 = (resolve_descriptor invoke d wb).1.
Proof. destruct d as [v|[g|]]; simpl; auto. Qed.

Lemma visit_key_stateless D item key d st1 st2 :
  same_tree_and_queue st1 st2 ->
  same_tree_and_queue (visit_key invoke h D item key d st1)
                      (visit_key invoke h D item key d st2).
Proof.
  intros [Ht Hq]. rewrite !visit_key_eq.
  pose proof (resolve_descriptor_stateless d (world st1) (world st2)) as Ho.
  destruct (resolve_descriptor invoke d (world st1)) as [o1 w1].
  destruct (resolve_descriptor invoke d (world st2)) as [o2 w2].
  simpl in Ho. subst o2. unfold same_tree_and_queue. simpl.
  rewrite Ht, Hq. auto.
Qed.

Lemma for_keys_stateless D item ms : forall st1 st2,
  same_tree_and_queue st1 st2 ->
  same_tree_and_queue (for_keys invoke h D item ms st1)
                      (for_keys invoke h D item ms st2).
Proof.
  induction ms as [|[key d] ms IH]; intros st1 st2 Hs; simpl; [exact Hs|].
  apply IH. by apply visit_key_stateless.
Qed.

Lemma loop_stateless D fuel1 : forall fuel2 st1 st2 a b,
  same_tree_and_queue st1 st2 ->
  loop invoke h fuel1 D st1 = Some a ->
  loop invoke h fuel2 D st2 = Some b ->
  rootNode a = rootNode b.
Proof.
  induction fuel1 as [|fuel1 IH]; intros fuel2 st1 st2 a b [Ht Hq]; simpl.
  - destruct (queue st1) eqn:Hq1; [|discriminate]. intros [= <-].
    destruct fuel2; simpl; rewrite <- Hq; intros [= <-]; exact Ht.
  - destruct (queue st1) as [|item rest] eqn:Hq1.
    + intros [= <-]. destruct fuel2; simpl; rewrite <- Hq; intros [= <-]; exact Ht.
    + destruct fuel2 as [|fuel2]; simpl; rewrite <- Hq; [discriminate|].
      apply IH. rewrite !process_item_members. apply for_keys_stateless.
      split; [exact Ht|reflexivity].
Qed.

Lemma build_stateless fuel1 fuel2 obj maxDepth rootName w1 w2 r1 r2 w1' w2' :
  buildPropertyTree invoke h fuel1 obj maxDepth rootName w1 = Some (r1, w1') ->
  buildPropertyTree invoke h fuel2 obj maxDepth rootName w2 = Some (r2, w2') ->
  r1 = r2.
Proof.
  unfold buildPropertyTree.
  destruct (Number_lt0 maxDepth || negb (Number_isInteger maxDepth)); [congruence|].
  destruct (carries_value (getPropertyType h obj)); [congruence|].
  destruct (Number_eq0 maxDepth || is_null obj
            || bool_decide (getPropertyType h obj = Tfunction)); [congruence|].
  destruct obj; try congruence.
  match goal with |- context [loop invoke h fuel1 ?D ?st] =>
    destruct (loop invoke h fuel1 D st) as [a|] eqn:H1; [|discriminate] end.
  match goal with |- context [loop invoke h fuel2 ?D ?st] =>
    destruct (loop invoke h fuel2 D st) as [b|] eqn:H2; [|discriminate] end.
  intros [= <- <-] [= <- <-]. f_equal.
  eapply loop_stateless; [|exact H1|exact H2]. split; reflexivity.
Qed.

End TwoRuns.

(** ** The fuel *)

Lemma build_fuel_independent {W : Type} (invoke : getter -> W -> outcome * W) (h : heap)
    fuel1 fuel2 obj maxDepth rootName w r1 r2 w1 w2 :
  buildPropertyTree invoke h fuel1 obj maxDepth rootName w = Some (r1, w1) ->
  buildPropertyTree invoke h fuel2 obj maxDepth rootName w = Some (r2, w2) ->
  r1 = r2 /\ w1 = w2.
Proof.
  unfold buildPropertyTree.
  destruct (Number_lt0 maxDepth || negb (Number_isInteger maxDepth));
    [intros [= <- <-] [= <- <-]; auto|].
  destruct (carries_value (getPropertyType h obj)); [intros [= <- <-] [= <- <-]; auto|].
  destruct (Number_eq0 maxDepth || is_null obj
            || bool_decide (getPropertyType h obj = Tfunction));
    [intros [= <- <-] [= <- <-]; auto|].
  destruct obj; try (intros [= <- <-] [= <- <-]; auto; fail).
  match goal with |- context [loop invoke h fuel1 ?D ?st] =>
    destruct (loop invoke h fuel1 D st) as [a|] eqn:H1; [|discriminate];
    destruct (loop invoke h fuel2 D st) as [b|] eqn:H2; [|discriminate] end.
  intros [= <- <-] [= <- <-].
  destruct (loop_deterministic _ _ _ _ _ _ _ _ H1 H2) as [-> _]. auto.
Qed.

(** * Further properties of the code *)

(** ** The loop, one item at a time *)

Section LoopFacts.
Context {W : Type}.
Variable invoke : getter -> W -> outcome * W.
Variable h : heap.
Variable D : Z.

(** Induction on the rounds of the loop.  A property of the items done and
    of the state that holds when the loop is entered, and that one round
    keeps (the round being taken as one step, as the invariant allows),
    holds when the loop is left. *)
Lemma loop_induction (P : list (W * WorkItem.t) -> state W -> Prop) :
  (forall done st item rest,
      Inv invoke h D done st -> queue st = item :: rest -> P done st ->
      P (done ++ [(world st, item)])
        (mkState W (resolve_members invoke (members (h (WorkItem.obj item))) (world st)).2
           (children_append (WorkItem.parent item)
              (child_node h D item <$> outcomes invoke h (world st) item) (rootNode st))
           (rest ++ new_items D item O (outcomes invoke h (world st) item)))) ->
  forall fuel done st st',
    Inv invoke h D done st -> P done st -> loop invoke h fuel D st = Some st' ->
    P (done ++ dequeued invoke h fuel D st) st'.
Proof.
  intros Hstep. induction fuel as [|fuel IH]; intros done st st' HI HP; simpl.
  - destruct (queue st) eqn:Hq; [|discriminate].
    intros [= <-]. by rewrite app_nil_r.
  - destruct (queue st) as [|item rest] eqn:Hq.
    + intros [= <-]. by rewrite app_nil_r.
    + intros Hl. pose proof (Inv_step _ _ _ _ _ _ _ HI Hq) as HI'.
      assert (Hitem : item ∈ queue st) by (rewrite Hq; left).
      destruct (inv_queue _ _ _ _ _ HI _ Hitem) as (n & Hn & Hc).
      pose proof (Hstep _ _ _ _ HI Hq HP) as HP'.
      rewrite <- (process_item_eq invoke h D item rest st n Hn Hc) in HP'.
      specialize (IH _ _ _ HI' HP' Hl). by rewrite <- app_assoc in IH.
Qed.

Lemma children_append_fields p new t :
  name (children_append p new t) = name t
  /\ type (children_append p new t) = type t
  /\ value (children_append p new t) = value t.
Proof. destruct p; simpl; destruct (children t); auto. Qed.

(** The loop leaves the name, the type and the value of the root as they
    are. *)
Lemma loop_root fuel done st st' :
  Inv invoke h D done st -> loop invoke h fuel D st = Some st' ->
  name (rootNode st') = name (rootNode st)
  /\ type (rootNode st') = type (rootNode st)
  /\ value (rootNode st') = value (rootNode st).
Proof.
  intros HI Hl.
  apply (loop_induction
           (fun _ st0 => name (rootNode st0) = name (rootNode st)
                         /\ type (rootNode st0) = type (rootNode st)
                         /\ value (rootNode st0) = value (rootNode st))
           ltac:(intros done0 st0 item rest _ _ (H1 & H2 & H3); simpl;
                 destruct (children_append_fields (WorkItem.parent item)
                   (child_node h D item <$> outcomes invoke h (world st0) item)
                   (rootNode st0)) as (E1 & E2 & E3);
                 rewrite E1, E2, E3; auto)
           fuel done st st' HI); auto.
Qed.

Lemma enqueued_container_inv item o l :
  enqueued_container D item o = Some l ->
  o = Returns (JsObject l) /\ WorkItem.depth item + 1 < D /\ l ∉ WorkItem.visited item.
Proof.
  unfold enqueued_container. destruct o as [[]|]; try discriminate.
  destruct (WorkItem.depth item + 1 <? D) eqn:E; [|discriminate]. simpl.
  destruct (bool_decide (l0 ∈ WorkItem.visited item)) eqn:E'; [discriminate|].
  intros [= ->]. split; [reflexivity|]. split; [by apply Z.ltb_lt|].
  by apply bool_decide_eq_false in E'.
Qed.

Lemma node_at_snoc q k t n :
  node_at (q ++ [k]) t = Some n ->
  exists pn cs, node_at q t = Some pn /\ children pn = Some cs /\ cs !! k = Some n.
Proof.
  intros Hq. apply node_at_prefix in Hq as (pn & Hp & Hk). simpl in Hk.
  destruct (children pn) as [cs|] eqn:Hc; [|discriminate].
  destruct (cs !! k) as [c|] eqn:Hck; [|discriminate].
  injection Hk as ->. eauto.
Qed.

(** At the end of the loop, what a child of the node of a finished item is. *)
Lemma Inv_child done st w0 item pn cs k c :
  Inv invoke h D done st -> (w0, item) ∈ done ->
  node_at (WorkItem.parent item) (rootNode st) = Some pn ->
  children pn = Some cs -> cs !! k = Some c ->
  exists lo, outcomes invoke h w0 item !! k = Some lo
    /\ shape c = shape (child_node h D item lo).
Proof.
  intros HI Hin Hp Hcs Hk.
  destruct (inv_done _ _ _ _ _ HI _ _ Hin) as (n' & Hn' & Hsh).
  rewrite Hp in Hn'. injection Hn' as <-.
  unfold child_shapes in Hsh. rewrite Hcs in Hsh. injection Hsh as Hsh.
  assert (Hk' : (shape <$> cs) !! k = Some (shape c)) by (by rewrite list_lookup_fmap, Hk).
  rewrite Hsh, !list_lookup_fmap in Hk'.
  destruct (outcomes invoke h w0 item !! k) as [lo|]; [|discriminate].
  simpl in Hk'. exists lo. split; [reflexivity|congruence].
Qed.

(** At the end of the loop every node that has children is the node of an
    item that was taken off the queue. *)
Lemma Inv_expanded done t w' :
  Inv invoke h D done (mkState W w' t []) ->
  (exists w0 root, (w0, root) ∈ done /\ WorkItem.parent root = []
     /\ type t = getPropertyType h (JsObject (WorkItem.obj root))) ->
  forall q n, node_at q t = Some n -> children n <> None ->
    exists w0 item, (w0, item) ∈ done /\ WorkItem.parent item = q
      /\ type n = getPropertyType h (JsObject (WorkItem.obj item)).
Proof.
  intros HI (wr & root & Hroot & Hrp & Hrt) q.
  induction q as [|k q IH] using rev_ind; intros n Hq Hc.
  - simpl in Hq. injection Hq as <-. exists wr, root. auto.
  - apply node_at_snoc in Hq as (pn & cs & Hp & Hcs & Hk).
    destruct (IH pn Hp) as (w0 & item & Hin & Hpar & _); [congruence|].
    destruct (Inv_child done _ w0 item pn cs k n HI Hin) as (lo & Hlo & Hsh);
      simpl; rewrite ?Hpar; auto.
    apply shape_fields in Hsh as (_ & Hty & _ & Hnone & _).
    destruct (enqueued_container D item lo.2) as [l|] eqn:He.
    + destruct (inv_enqueued _ _ _ _ _ HI w0 item k lo l Hin Hlo He) as (y & Hy & Hyp & Hyo).
      unfold all_items in Hy. simpl in Hy. rewrite app_nil_r in Hy.
      apply list_elem_of_fmap in Hy as ([w1 y'] & -> & Hy). simpl in *.
      exists w1, y'. split; [exact Hy|]. split; [by rewrite Hyp, Hpar|].
      rewrite Hty, Hyo.
      apply enqueued_container_inv in He as (Ho & Hd & Hv).
      apply Z.ltb_lt in Hd. apply (bool_decide_eq_false_2 _) in Hv.
      unfold child_node. rewrite Ho. simpl. rewrite Hd, Hv. reflexivity.
    + exfalso. apply Hc, Hnone. by apply child_node_not_enqueued.
Qed.

End LoopFacts.

(** ** The tree, node by node *)

Section CallFacts.
Context {W : Type}.
Variable invoke : getter -> W -> outcome * W.
Variable h : heap.

(** The two ways in which a call returns a tree: at once, with the root
    alone; or after the loop, for a container and a depth other than 0. *)
Lemma build_cases fuel obj maxDepth rootName w t w' :
  buildPropertyTree invoke h fuel obj maxDepth rootName w = Some (Normal t, w') ->
  (t = mkNode rootName (getPropertyType h obj)
         (if carries_value (getPropertyType h obj) then Some obj else None) None
   /\ w' = w
   /\ build_trace invoke h fuel obj maxDepth rootName w = []
   /\ (container_kind (getPropertyType h obj) -> Number_eq0 maxDepth = true))
  \/ (exists r st', obj = JsObject r /\ Number_eq0 maxDepth = false
        /\ loop invoke h fuel (Number_toZ maxDepth) (initial_state h w rootName r) = Some st'
        /\ t = rootNode st' /\ w' = world st').
Proof.
  intros Hb. pose proof (build_result _ _ _ _ _ _ _ _ _ Hb) as Hv. simpl in Hv.
  destruct (Number_eq0 maxDepth) eqn:H0.
  - left. rewrite (build_depth_zero invoke h fuel obj maxDepth rootName w H0) in Hb.
    injection Hb as <- <-. repeat split; auto.
    unfold build_trace. rewrite H0. by rewrite orb_true_r.
  - destruct obj as [| | | | | | |f|r].
    9:{ right. rewrite build_container in Hb by assumption.
        destruct (loop invoke h fuel (Number_toZ maxDepth) (initial_state h w rootName r))
          as [st'|] eqn:Hl; [|discriminate].
        injection Hb as <- <-. eauto 10. }
    all: left; destruct Hv as [Hlt Hint]; unfold buildPropertyTree in Hb;
      rewrite Hlt, Hint, H0 in Hb; simpl in Hb; injection Hb as <- <-;
      (split; [reflexivity|]); (split; [reflexivity|]);
      (split; [unfold build_trace; rewrite Hlt, Hint, H0; reflexivity|]);
      unfold getPropertyType; simpl; intros [?|?]; discriminate.
Qed.

Lemma build_root fuel obj maxDepth rootName w t w' :
  buildPropertyTree invoke h fuel obj maxDepth rootName w = Some (Normal t, w') ->
  name t = rootName /\ type t = getPropertyType h obj
  /\ value t = (if carries_value (getPropertyType h obj) then Some obj else None).
Proof.
  intros Hb. pose proof (build_result _ _ _ _ _ _ _ _ _ Hb) as Hv. simpl in Hv.
  destruct (build_cases _ _ _ _ _ _ _ Hb) as [(-> & _)|(r & st' & -> & H0 & Hl & -> & _)];
    [auto|].
  destruct (loop_root invoke h (Number_toZ maxDepth) fuel [] _ _
              (Inv_initial _ _ _ _ _ _ (valid_depth_positive _ Hv H0)) Hl) as (H1 & H2 & H3).
  rewrite H1, H2, H3. simpl. by rewrite carries_value_object.
Qed.

(** Every node that has children is the node of a container that was
    taken off the queue. *)
Lemma build_expanded fuel obj maxDepth rootName w t w' q n :
  buildPropertyTree invoke h fuel obj maxDepth rootName w = Some (Normal t, w') ->
  node_at q t = Some n -> children n <> None ->
  exists w0 item,
    (w0, item) ∈ build_trace invoke h fuel obj maxDepth rootName w
    /\ WorkItem.parent item = q
    /\ type n = getPropertyType h (JsObject (WorkItem.obj item)).
Proof.
  intros Hb Hq Hc.
  destruct (build_cases _ _ _ _ _ _ _ Hb) as [(-> & _)|(r & st' & -> & H0 & Hl & Ht & Hw)].
  - apply node_at_leaf in Hq as [-> ->]; [|by left]. by destruct Hc.
  - pose proof (build_Inv invoke h _ _ _ _ _ _ _ Hb H0) as HI.
    pose proof (build_trace_root invoke h _ _ _ _ _ _ _ Hb H0) as Hroot.
    destruct (build_root _ _ _ _ _ _ _ Hb) as (_ & Hty & _).
    apply (Inv_expanded invoke h _ _ _ _ HI); auto.
    exists w, (root_item rootName r). auto.
Qed.

End CallFacts.

Lemma labelled_lookup elements : forall i k key d,
  labelled i elements !! k = Some (key, d) ->
  key = index_label (i + k) /\ elements !! k = Some d.
Proof.
  induction elements as [|d0 rest IH]; intros i k key d; simpl; [discriminate|].
  destruct k as [|k]; simpl.
  - intros [= <- <-]. by rewrite Nat.add_0_r.
  - intros Hk. apply IH in Hk as [-> Hk]. split; [f_equal; lia|exact Hk].
Qed.

Lemma labelled_length elements : forall i, length (labelled i elements) = length elements.
Proof. induction elements as [|d rest IH]; intros i; simpl; [reflexivity|]. by rewrite IH. Qed.

(** The root of the tree that [buildPropertyTree] returns bears the name
    given to the call and the type of the argument, which is never the type
    error; it holds the argument itself as its value exactly when the
    argument is neither an object, an array nor a function; and it has
    children exactly when the argument is an object or an array and
    [maxDepth] is not 0. *)
Theorem root_node_of_the_tree :
  forall (W : Type) (invoke : getter -> W -> outcome * W) (h : heap)
         (fuel : nat) (obj : JsValue) (maxDepth : number) (rootName : jsstring)
         (w : W) (t : PropertyTreeNode) (w' : W),
    buildPropertyTree invoke h fuel obj maxDepth rootName w = Some (Normal t, w') ->
    name t = rootName
    /\ type t = getPropertyType h obj
    /\ type t <> Terror
    /\ value t = (if carries_value (getPropertyType h obj) then Some obj else None)
    /\ (children t <> None <->
        container_kind (getPropertyType h obj) /\ Number_eq0 maxDepth = false).
Proof.
  intros W invoke h fuel obj maxDepth rootName w t w' Hb.
  destruct (build_root invoke h _ _ _ _ _ _ _ Hb) as (H1 & H2 & H3).
  split; [exact H1|]. split; [exact H2|]. split; [|split; [exact H3|]].
  - rewrite H2. destruct obj; unfold getPropertyType; simpl; try discriminate.
    destruct (h l); discriminate.
  - destruct (build_cases invoke h _ _ _ _ _ _ _ Hb)
      as [(-> & _ & _ & Hk)|(r & st' & -> & H0 & Hl & Ht & Hw)].
    + simpl. split; [intros H; by destruct H|].
      intros [Hc H0]. rewrite (Hk Hc) in H0. discriminate.
    + split.
      * intros _. split; [|exact H0]. rewrite getPropertyType_object.
        destruct (h r); [right|left]; reflexivity.
      * intros _.
        pose proof (build_trace_root invoke h _ _ _ _ _ _ _ Hb H0) as Hroot.
        destruct (build_children invoke h _ _ _ _ _ _ _ _ _ Hb Hroot)
          as (n & cs & Hn & Hcs & _).
        simpl in Hn. injection Hn as <-. congruence.
Qed.

Lemma root_node_of_the_tree_witness :
  name cyclic_tree = str "root"
  /\ type cyclic_tree = getPropertyType cyclic_heap (JsObject O)
  /\ type cyclic_tree <> Terror
  /\ value cyclic_tree
     = (if carries_value (getPropertyType cyclic_heap (JsObject O))
        then Some (JsObject O) else None)
  /\ (children cyclic_tree <> None <->
      container_kind (getPropertyType cyclic_heap (JsObject O))
      /\ Number_eq0 (number_of_Z 2) = false).
Proof.
  apply (root_node_of_the_tree unit no_accessors cyclic_heap 1 (JsObject O)
           (number_of_Z 2) (str "root") tt cyclic_tree tt cyclic_tree_built).
Defined.

(** In the tree that [buildPropertyTree] returns no node lies more than
    [maxDepth] levels below the root, and the nodes that lie [maxDepth]
    levels below it have no children. *)
Theorem no_node_deeper_than_maxDepth :
  forall (W : Type) (invoke : getter -> W -> outcome * W) (h : heap)
         (fuel : nat) (obj : JsValue) (maxDepth : number) (rootName : jsstring)
         (w : W) (t : PropertyTreeNode) (w' : W),
    buildPropertyTree invoke h fuel obj maxDepth rootName w = Some (Normal t, w') ->
    forall q n, node_at q t = Some n ->
      Z.of_nat (length q) <= Number_toZ maxDepth
      /\ (Z.of_nat (length q) = Number_toZ maxDepth -> children n = None).
Proof.
  intros W invoke h fuel obj maxDepth rootName w t w' Hb q n Hq.
  pose proof (build_result _ _ _ _ _ _ _ _ _ Hb) as Hv. simpl in Hv.
  split.
  - destruct q as [|k q _] using rev_ind.
    + simpl. by apply valid_depth_nonneg.
    + apply node_at_snoc in Hq as (pn & cs & Hp & Hcs & _).
      destruct (build_nodes _ _ _ _ _ _ _ _ _ Hb q pn Hp) as [H1 _ _ _ _].
      destruct (H1 cs Hcs) as (_ & _ & Hd). rewrite length_app. simpl. lia.
  - intros Hd. destruct (children n) as [cs|] eqn:Hc; [|reflexivity].
    destruct (build_nodes _ _ _ _ _ _ _ _ _ Hb q n Hq) as [H1 _ _ _ _].
    destruct (H1 cs Hc) as (_ & _ & Hlt). lia.
Qed.

Lemma no_node_deeper_than_maxDepth_witness :
  Z.of_nat (length [1%nat]) <= Number_toZ (number_of_Z 2)
  /\ (Z.of_nat (length [1%nat]) = Number_toZ (number_of_Z 2) ->
      children cyclic_self_node = None).
Proof.
  apply (no_node_deeper_than_maxDepth unit no_accessors cyclic_heap 1 (JsObject O)
           (number_of_Z 2) (str "root") tt cyclic_tree tt cyclic_tree_built
           [1%nat] cyclic_self_node).
  reflexivity.
Defined.

Lemma getPropertyType_not_error h v : getPropertyType h v <> Terror.
Proof.
  destruct v; unfold getPropertyType; simpl; try discriminate.
  destruct (h l); discriminate.
Qed.

(** ** The order of the traversal *)

Section Order.
Context {W : Type}.
Variable invoke : getter -> W -> outcome * W.
Variable h : heap.
Variable D : Z.

Lemma reads_snoc w items item :
  reads invoke h w (items ++ [item])
  = (resolve_members invoke (members (h (WorkItem.obj item))) (reads invoke h w items)).2.
Proof. unfold reads. by rewrite fold_left_app. Qed.

(** The host state changes by the reads of the members of the items taken
    off the queue, and by nothing else. *)
Lemma loop_reads w fuel done st st' :
  Inv invoke h D done st -> loop invoke h fuel D st = Some st' ->
  world st = reads invoke h w done.*2 ->
  (forall i wi item, done !! i = Some (wi, item) -> wi = reads invoke h w (take i done.*2)) ->
  world st' = reads invoke h w (done ++ dequeued invoke h fuel D st).*2
  /\ forall i wi item, (done ++ dequeued invoke h fuel D st) !! i = Some (wi, item) ->
       wi = reads invoke h w (take i (done ++ dequeued invoke h fuel D st).*2).
Proof.
  intros HI Hl Hw Hd.
  apply (loop_induction invoke h D
           (fun done0 st0 =>
              world st0 = reads invoke h w done0.*2
              /\ forall i wi item, done0 !! i = Some (wi, item) ->
                   wi = reads invoke h w (take i done0.*2))); [|exact HI|auto|exact Hl].
  clear. intros done st item rest _ _ [Hw Hd]. simpl. split.
  - rewrite fmap_app. simpl. rewrite reads_snoc, <- Hw. reflexivity.
  - intros i wi x Hi. rewrite fmap_app. simpl.
    apply lookup_snoc_Some in Hi as [[Hlt Hi]|[Hlen Hi]].
    + rewrite take_app_le by (rewrite length_fmap; lia). eauto.
    + injection Hi as <- <-. subst i.
      rewrite take_app_length' by (by rewrite length_fmap). exact Hw.
Qed.

Lemma by_level_step (done : list (W * WorkItem.t)) (st : state W) item rest w0 w1 t1 new :
  by_level done st -> queue st = item :: rest ->
  (forall x, x ∈ new -> WorkItem.depth x = WorkItem.depth item + 1) ->
  by_level (done ++ [(w0, item)]) (mkState W w1 t1 (rest ++ new)).
Proof.
  unfold by_level. intros [Hs Hlev] Hq Hnew. simpl. rewrite Hq in *.
  rewrite !fmap_app in Hs. simpl in Hs.
  apply StronglySorted_app in Hs as (H1 & H2 & H3).
  apply StronglySorted_cons in H3 as [H3 H4].
  rewrite Forall_forall in H3.
  assert (Hrest : forall x, x ∈ rest -> WorkItem.depth item <= WorkItem.depth x
                                        /\ WorkItem.depth x <= WorkItem.depth item + 1).
  { intros x Hx. split.
    - apply H3. apply list_elem_of_fmap. eauto.
    - apply Hlev; [left|by right]. }
  split.
  - rewrite !fmap_app. simpl. rewrite <- !app_assoc. simpl.
    apply StronglySorted_app. split; [|split; [exact H2|]].
    + intros a b Ha Hb.
      apply elem_of_cons in Hb as [->|Hb]; [apply H1; [exact Ha|left]|].
      apply elem_of_app in Hb as [Hb|Hb]; [apply H1; [exact Ha|by right]|].
      apply list_elem_of_fmap in Hb as (x & -> & Hx). rewrite (Hnew x Hx).
      assert (Hi : WorkItem.depth item ∈ WorkItem.depth item :: (WorkItem.depth <$> rest))
        by left.
      specialize (H1 a (WorkItem.depth item) Ha Hi). lia.
    + apply StronglySorted_cons. split.
      * rewrite Forall_forall. intros b Hb.
        apply elem_of_app in Hb as [Hb|Hb]; [by apply H3|].
        apply list_elem_of_fmap in Hb as (x & -> & Hx). rewrite (Hnew x Hx). lia.
      * apply StronglySorted_app. split; [|split; [exact H4|]].
        -- intros a b Ha Hb.
           apply list_elem_of_fmap in Ha as (x & -> & Hx).
           apply list_elem_of_fmap in Hb as (y & -> & Hy).
           rewrite (Hnew y Hy). by apply Hrest.
        -- clear -Hnew. induction new as [|x new IH]; simpl; [constructor|].
           apply StronglySorted_cons. split.
           ++ rewrite Forall_forall. intros b Hb.
              apply list_elem_of_fmap in Hb as (y & -> & Hy).
              assert (Hx : x ∈ x :: new) by left.
              assert (Hy' : y ∈ x :: new) by (by right).
              rewrite (Hnew x Hx), (Hnew y Hy'). lia.
           ++ apply IH. intros y Hy. apply Hnew. by right.
  - intros x y Hx Hy.
    apply elem_of_app in Hx as [Hx|Hx]; apply elem_of_app in Hy as [Hy|Hy].
    + apply Hlev; by right.
    + rewrite (Hnew y Hy). destruct (Hrest x Hx). lia.
    + rewrite (Hnew x Hx). destruct (Hrest y Hy). lia.
    + rewrite (Hnew x Hx), (Hnew y Hy). lia.
Qed.

Lemma new_items_depth item base os x :
  x ∈ new_items D item base os -> WorkItem.depth x = WorkItem.depth item + 1.
Proof. intros Hx. apply new_items_spec in Hx as (k & lo & l & _ & _ & ->). reflexivity. Qed.

(** The items leave the queue level by level. *)
Lemma loop_levels fuel done st st' :
  Inv invoke h D done st -> loop invoke h fuel D st = Some st' ->
  by_level done st ->
  by_level (done ++ dequeued invoke h fuel D st) st'.
Proof.
  intros HI Hl Hs.
  apply (loop_induction invoke h D (@by_level W)); [|exact HI|exact Hs|exact Hl].
  clear. intros done st item rest _ Hq Hs.
  apply (by_level_step done st item rest); [exact Hs|exact Hq|].
  intros x. apply new_items_depth.
Qed.

Lemma by_level_initial (w : W) rootName r : by_level [] (initial_state h w rootName r).
Proof.
  split; simpl.
  - repeat constructor.
  - intros a b Ha Hb. apply list_elem_of_singleton in Ha, Hb. subst. lia.
Qed.

End Order.

Lemma StronglySorted_le_lookup (l : list Z) : forall i j a b,
  StronglySorted Z.le l -> (i <= j)%nat -> l !! i = Some a -> l !! j = Some b -> a <= b.
Proof.
  induction l as [|x l IH]; intros i j a b Hs Hij Hi Hj; [discriminate|].
  apply StronglySorted_cons in Hs as [Hx Hs]. rewrite Forall_forall in Hx.
  destruct i as [|i], j as [|j]; simpl in *.
  - injection Hi as <-. injection Hj as <-. lia.
  - injection Hi as <-. apply Hx. by eapply list_elem_of_lookup_2.
  - lia.
  - apply (IH i j); auto. lia.
Qed.

(** The getters that a call of [buildPropertyTree] runs are those of the
    containers it takes off its queue: the host state in which a container is
    taken off the queue is the one left by reading, once each and in their
    order, the members of the containers taken off before it, and the host
    state after the call is the one left by reading the members of them
    all.  No member of a container that is not expanded is read. *)
Theorem accessors_are_read_once_in_order :
  forall (W : Type) (invoke : getter -> W -> outcome * W) (h : heap)
         (fuel : nat) (obj : JsValue) (maxDepth : number) (rootName : jsstring)
         (w : W) (t : PropertyTreeNode) (w' : W),
    buildPropertyTree invoke h fuel obj maxDepth rootName w = Some (Normal t, w') ->
    w' = reads invoke h w (build_trace invoke h fuel obj maxDepth rootName w).*2
    /\ forall i wi item,
         build_trace invoke h fuel obj maxDepth rootName w !! i = Some (wi, item) ->
         wi = reads invoke h w
                (take i (build_trace invoke h fuel obj maxDepth rootName w).*2).
Proof.
  intros W invoke h fuel obj maxDepth rootName w t w' Hb.
  pose proof (build_result _ _ _ _ _ _ _ _ _ Hb) as Hv. simpl in Hv.
  destruct (build_cases invoke h _ _ _ _ _ _ _ Hb)
    as [(_ & -> & -> & _)|(r & st' & -> & H0 & Hl & Ht & ->)].
  - split; [reflexivity|]. intros i wi item Hi. discriminate.
  - assert (Htr : build_trace invoke h fuel (JsObject r) maxDepth rootName w
                  = [] ++ dequeued invoke h fuel (Number_toZ maxDepth)
                            (initial_state h w rootName r)).
    { unfold build_trace. destruct Hv as [-> ->]. rewrite H0. reflexivity. }
    rewrite Htr.
    apply (loop_reads invoke h (Number_toZ maxDepth) w fuel [] _ st'); auto.
    + apply Inv_initial. by apply valid_depth_positive.
    + intros i wi item Hi. discriminate.
Qed.

Lemma accessors_are_read_once_in_order_witness :
  true = reads alternating_getter accessor_heap false
           (build_trace alternating_getter accessor_heap 1 (JsObject O) (number_of_Z 1)
              (str "root") false).*2
  /\ forall i wi item,
       build_trace alternating_getter accessor_heap 1 (JsObject O) (number_of_Z 1)
         (str "root") false !! i = Some (wi, item) ->
       wi = reads alternating_getter accessor_heap false
              (take i (build_trace alternating_getter accessor_heap 1 (JsObject O)
                         (number_of_Z 1) (str "root") false).*2).
Proof.
  apply (accessors_are_read_once_in_order bool alternating_getter accessor_heap 1
           (JsObject O) (number_of_Z 1) (str "root") false
           (mkNode (str "root") Tobject None
              (Some [mkNode (str "x") Tstring (Some (JsString (str "a"))) None])) true).
  vm_compute. reflexivity.
Defined.

(** The traversal is breadth-first: of two containers that
    [buildPropertyTree] takes off its queue, the one taken first has its
    node no deeper in the tree than the other; the depth recorded in a work
    item is the depth of its node; and no node is expanded twice. *)
Theorem containers_are_expanded_level_by_level :
  forall (W : Type) (invoke : getter -> W -> outcome * W) (h : heap)
         (fuel : nat) (obj : JsValue) (maxDepth : number) (rootName : jsstring)
         (w : W) (t : PropertyTreeNode) (w' : W),
    buildPropertyTree invoke h fuel obj maxDepth rootName w = Some (Normal t, w') ->
    forall i j wi wj x y,
      (i <= j)%nat ->
      build_trace invoke h fuel obj maxDepth rootName w !! i = Some (wi, x) ->
      build_trace invoke h fuel obj maxDepth rootName w !! j = Some (wj, y) ->
      (length (WorkItem.parent x) <= length (WorkItem.parent y))%nat
      /\ WorkItem.depth x = Z.of_nat (length (WorkItem.parent x))
      /\ (WorkItem.parent x = WorkItem.parent y -> i = j).
Proof.
  intros W invoke h fuel obj maxDepth rootName w t w' Hb i j wi wj x y Hij Hi Hj.
  pose proof (build_result _ _ _ _ _ _ _ _ _ Hb) as Hv. simpl in Hv.
  assert (Hin : (wi, x) ∈ build_trace invoke h fuel obj maxDepth rootName w)
    by (by eapply list_elem_of_lookup_2).
  destruct (build_trace_inv _ _ _ _ _ _ _ _ Hin) as (H0 & r & ->).
  pose proof (build_Inv invoke h _ _ _ _ _ _ _ Hb H0) as HI.
  set (trace := build_trace invoke h fuel (JsObject r) maxDepth rootName w) in *.
  assert (Hall : forall k wk z, trace !! k = Some (wk, z) ->
            all_items trace (mkState W w' t []) !! k = Some z).
  { intros k wk z Hk. unfold all_items. simpl. rewrite app_nil_r.
    by rewrite list_lookup_fmap, Hk. }
  assert (Hdepth : forall k wk z, trace !! k = Some (wk, z) ->
            WorkItem.depth z = Z.of_nat (length (WorkItem.parent z))).
  { intros k wk z Hk. apply (inv_depth _ _ _ _ _ HI).
    eapply list_elem_of_lookup_2. eauto. }
  split; [|split].
  - destruct (build_cases invoke h _ _ _ _ _ _ _ Hb)
      as [(_ & _ & Hnil & _)|(r' & st' & Hr & _ & Hl & _ & _)].
    { fold trace in Hnil. rewrite Hnil in Hi. discriminate. }
    injection Hr as <-.
    assert (Hs : StronglySorted Z.le (WorkItem.depth <$> trace.*2)).
    { assert (Htr : trace = [] ++ dequeued invoke h fuel (Number_toZ maxDepth)
                                     (initial_state h w rootName r)).
      { unfold trace, build_trace. destruct Hv as [-> ->]. rewrite H0. reflexivity. }
      rewrite Htr.
      destruct (loop_levels invoke h (Number_toZ maxDepth) fuel []
                  (initial_state h w rootName r) st') as [Hs _]; auto.
      - apply Inv_initial. by apply valid_depth_positive.
      - apply by_level_initial.
      - rewrite fmap_app in Hs. by apply StronglySorted_app in Hs as (_ & Hs & _). }
    pose proof (StronglySorted_le_lookup _ i j (WorkItem.depth x) (WorkItem.depth y)
                  Hs Hij) as Hle.
    rewrite !list_lookup_fmap, Hi, Hj in Hle. specialize (Hle eq_refl eq_refl).
    rewrite (Hdepth _ _ _ Hi), (Hdepth _ _ _ Hj) in Hle. lia.
  - by eapply Hdepth.
  - intros Hp. pose proof (inv_nodup _ _ _ _ _ HI) as Hnd.
    apply (NoDup_lookup _ i j (WorkItem.parent x) Hnd).
    + by rewrite list_lookup_fmap, (Hall _ _ _ Hi).
    + by rewrite list_lookup_fmap, (Hall _ _ _ Hj), Hp.
Qed.

Lemma containers_are_expanded_level_by_level_witness :
  (length (WorkItem.parent diamond_item_a) <= length (WorkItem.parent diamond_item_b))%nat
  /\ WorkItem.depth diamond_item_a = Z.of_nat (length (WorkItem.parent diamond_item_a))
  /\ (WorkItem.parent diamond_item_a = WorkItem.parent diamond_item_b -> 1%nat = 2%nat).
Proof.
  apply (containers_are_expanded_level_by_level unit no_accessors diamond_heap 5
           (JsObject O) (number_of_Z 3) (str "root") tt diamond_tree tt diamond_tree_built
           1%nat 2%nat tt tt diamond_item_a diamond_item_b).
  - lia.
  - vm_compute. reflexivity.
  - vm_compute. reflexivity.
Defined.

(** ** The size of the tree *)

Lemma list_sum_alter {A} (g : A -> nat) (f : A -> A) (l : list A) : forall i c d,
  l !! i = Some c -> g (f c) = (g c + d)%nat ->
  list_sum (map g (alter f i l)) = (list_sum (map g l) + d)%nat.
Proof.
  induction l as [|a l IH]; intros [|i] c d Hi Hg; simpl in *; try discriminate.
  - injection Hi as ->. lia.
  - specialize (IH i c d Hi Hg). unfold alter in IH. lia.
Qed.

Lemma node_count_children_append p : forall t n cs new,
  node_at p t = Some n -> children n = Some cs ->
  node_count (children_append p new t)
  = (node_count t + list_sum (map node_count new))%nat.
Proof.
  induction p as [|i p IH]; intros t n cs new Hn Hc; simpl in *.
  - injection Hn as ->. rewrite Hc. destruct n as [nm ty v ch]. simpl in *. subst ch.
    simpl. rewrite map_app, list_sum_app. lia.
  - destruct (children t) as [cs0|] eqn:E; [|discriminate].
    destruct (cs0 !! i) as [c|] eqn:Ei; [|discriminate].
    destruct t as [nm ty v ch]. simpl in *. subst ch. simpl.
    rewrite (list_sum_alter node_count _ cs0 i c (list_sum (map node_count new)) Ei);
      [lia|]. by apply (IH c n cs).
Qed.

Lemma child_nodes_count {W : Type} h D item (os : list (jsstring * outcome)) :
  list_sum (map node_count (child_node h D item <$> os)) = length os.
Proof.
  induction os as [|lo os IH]; [reflexivity|].
  rewrite fmap_cons. cbn [map length].
  change (list_sum (?a :: ?l)) with (a + list_sum l)%nat. rewrite IH.
  destruct (child_node_leaf h D item lo) as [E|E];
    destruct (child_node h D item lo) as [nm ty v ch]; simpl in *; subst ch; reflexivity.
Qed.

Lemma members_read_snoc h items item :
  members_read h (items ++ [item])
  = (members_read h items + length (members (h (WorkItem.obj item))))%nat.
Proof. unfold members_read. rewrite map_app, list_sum_app. simpl. lia. Qed.

Section Size.
Context {W : Type}.
Variable invoke : getter -> W -> outcome * W.
Variable h : heap.
Variable D : Z.

Lemma loop_node_count fuel done st st' :
  Inv invoke h D done st -> loop invoke h fuel D st = Some st' ->
  node_count (rootNode st) = S (members_read h done.*2) ->
  node_count (rootNode st')
  = S (members_read h (done ++ dequeued invoke h fuel D st).*2).
Proof.
  intros HI Hl H0.
  apply (loop_induction invoke h D
           (fun done0 st0 => node_count (rootNode st0) = S (members_read h done0.*2)));
    [|exact HI|exact H0|exact Hl].
  clear. intros done st item rest HI Hq Hn. simpl.
  assert (Hitem : item ∈ queue st) by (rewrite Hq; left).
  destruct (inv_queue _ _ _ _ _ HI _ Hitem) as (n & Hnode & Hc).
  rewrite (node_count_children_append _ _ n [] _ Hnode Hc).
  rewrite (child_nodes_count (W:=W)), Hn, fmap_app. simpl. rewrite members_read_snoc.
  unfold outcomes. rewrite resolve_members_length. simpl. lia.
Qed.

End Size.

(** The tree that [buildPropertyTree] returns has one node for the root
    and one node for each member of each container taken off the queue,
    counted as often as the container was expanded; nothing else adds a
    node. *)
Theorem one_node_per_member_read :
  forall (W : Type) (invoke : getter -> W -> outcome * W) (h : heap)
         (fuel : nat) (obj : JsValue) (maxDepth : number) (rootName : jsstring)
         (w : W) (t : PropertyTreeNode) (w' : W),
    buildPropertyTree invoke h fuel obj maxDepth rootName w = Some (Normal t, w') ->
    node_count t
    = S (members_read h (build_trace invoke h fuel obj maxDepth rootName w).*2).
Proof.
  intros W invoke h fuel obj maxDepth rootName w t w' Hb.
  pose proof (build_result _ _ _ _ _ _ _ _ _ Hb) as Hv. simpl in Hv.
  destruct (build_cases invoke h _ _ _ _ _ _ _ Hb)
    as [(-> & _ & -> & _)|(r & st' & -> & H0 & Hl & -> & _)]; [reflexivity|].
  assert (Htr : build_trace invoke h fuel (JsObject r) maxDepth rootName w
                = [] ++ dequeued invoke h fuel (Number_toZ maxDepth)
                          (initial_state h w rootName r)).
  { unfold build_trace. destruct Hv as [-> ->]. rewrite H0. reflexivity. }
  rewrite Htr.
  apply (loop_node_count invoke h (Number_toZ maxDepth) fuel []
           (initial_state h w rootName r) st'); auto.
  apply Inv_initial. by apply valid_depth_positive.
Qed.

Lemma one_node_per_member_read_witness :
  node_count diamond_tree
  = S (members_read diamond_heap
         (build_trace no_accessors diamond_heap 5 (JsObject O) (number_of_Z 3)
            (str "root") tt).*2).
Proof.
  apply (one_node_per_member_read unit no_accessors diamond_heap 5 (JsObject O)
           (number_of_Z 3) (str "root") tt diamond_tree tt).
  exact diamond_tree_built.
Defined.

(** ** Two depths *)

Lemma truncate_children_append p : forall k t new,
  (length p < k)%nat ->
  truncate k (children_append p new t)
  = children_append p (truncate (k - S (length p)) <$> new) (truncate k t).
Proof.
  induction p as [|i p IH]; intros k t new Hk; destruct k as [|k]; try (simpl in Hk; lia).
  - simpl. rewrite Nat.sub_0_r.
    destruct (children t) as [cs|] eqn:E; simpl; rewrite ?E; [|reflexivity].
    unfold with_children. simpl. by rewrite fmap_app.
  - simpl. destruct (children t) as [cs|] eqn:E; simpl; rewrite ?E; [|reflexivity].
    unfold with_children. simpl. f_equal. f_equal.
    apply list_fmap_alter. apply Forall_forall. intros x _.
    apply IH. simpl in Hk. lia.
Qed.

Lemma truncate_append_deep p : forall k t new,
  (k <= length p)%nat -> truncate k (children_append p new t) = truncate k t.
Proof.
  induction p as [|i p IH]; intros k t new Hk; destruct k as [|k]; try (simpl in Hk; lia).
  - simpl. destruct (children t); reflexivity.
  - destruct (children_append_fields (i :: p) new t) as (E1 & E2 & E3).
    cbn [truncate]. rewrite E1, E2, E3. reflexivity.
  - simpl. destruct (children t) as [cs|] eqn:E; simpl; rewrite ?E; [|reflexivity].
    f_equal. f_equal. apply fmap_alter_invariant. intros x _.
    apply IH. simpl in Hk. lia.
Qed.

Lemma truncate_leaf k c :
  children c = None \/ children c = Some [] -> truncate (S k) c = c.
Proof. destruct c as [nm ty v cs]. simpl. intros [-> | ->]; reflexivity. Qed.

Section Deeper.

Context {W : Type}.
Variable invoke : getter -> W -> outcome * W.
Variable h : heap.
Variables D1 D2 : Z.
Hypothesis D1_le_D2 : D1 <= D2.

Lemma child_node_within item lo :
  WorkItem.depth item + 1 < D1 ->
  child_node h D2 item lo = child_node h D1 item lo.
Proof.
  intros Hd. unfold child_node. destruct lo as [key [v|]]; simpl; [|reflexivity].
  destruct v; try reflexivity.
  assert (H1 : (WorkItem.depth item + 1 <? D1) = true) by (apply Z.ltb_lt; lia).
  assert (H2 : (WorkItem.depth item + 1 <? D2) = true) by (apply Z.ltb_lt; lia).
  by rewrite H1, H2.
Qed.

Lemma child_node_at_limit item lo :
  D1 <= WorkItem.depth item + 1 ->
  truncate 0 (child_node h D2 item lo) = child_node h D1 item lo.
Proof.
  intros Hd. unfold child_node. destruct lo as [key [v|]]; simpl; [|reflexivity].
  assert (H1 : (WorkItem.depth item + 1 <? D1) = false) by (apply Z.ltb_ge; lia).
  destruct v; simpl; try reflexivity.
  rewrite H1.
  assert (Hty : bool_decide (getPropertyType h (JsObject l) = Tobject)
                || bool_decide (getPropertyType h (JsObject l) = Tarray) = true).
  { rewrite getPropertyType_object. destruct (h l); reflexivity. }
  destruct (WorkItem.depth item + 1 <? D2);
    [destruct (bool_decide (l ∈ WorkItem.visited item))|]; simpl; by rewrite Hty.
Qed.

Lemma child_nodes_truncate item (os : list (jsstring * outcome)) :
  WorkItem.depth item = Z.of_nat (length (WorkItem.parent item)) ->
  WorkItem.depth item < D1 ->
  truncate (Z.to_nat D1 - S (length (WorkItem.parent item))) <$> (child_node h D2 item <$> os)
  = child_node h D1 item <$> os.
Proof.
  intros Hd Hlt. rewrite <- list_fmap_compose. apply list_fmap_ext. intros _ lo _. simpl.
  destruct (decide (WorkItem.depth item + 1 < D1)) as [Hin|Hout].
  - rewrite child_node_within by exact Hin.
    replace (Z.to_nat D1 - S (length (WorkItem.parent item)))%nat
      with (S (Z.to_nat D1 - S (S (length (WorkItem.parent item)))))%nat by lia.
    apply truncate_leaf, child_node_leaf.
  - replace (Z.to_nat D1 - S (length (WorkItem.parent item)))%nat with O by lia.
    apply child_node_at_limit. lia.
Qed.

Lemma new_items_within item base os :
  WorkItem.depth item + 1 < D1 ->
  new_items D2 item base os = new_items D1 item base os.
Proof.
  intros Hd. revert base. induction os as [|lo os IH]; intros base; simpl; [reflexivity|].
  rewrite IH. f_equal. unfold child_item, enqueued_container.
  destruct lo as [key [v|]]; simpl; [|reflexivity]. destruct v; try reflexivity.
  assert (H1 : (WorkItem.depth item + 1 <? D1) = true) by (apply Z.ltb_lt; lia).
  assert (H2 : (WorkItem.depth item + 1 <? D2) = true) by (apply Z.ltb_lt; lia).
  by rewrite H1, H2.
Qed.

Lemma new_items_at_limit item base os :
  D1 <= WorkItem.depth item + 1 -> new_items D1 item base os = [].
Proof.
  intros Hd. revert base. induction os as [|lo os IH]; intros base; simpl; [reflexivity|].
  rewrite IH, app_nil_r. unfold child_item, enqueued_container.
  destruct lo as [key [v|]]; simpl; [|reflexivity]. destruct v; try reflexivity.
  assert (H1 : (WorkItem.depth item + 1 <? D1) = false) by (apply Z.ltb_ge; lia).
  by rewrite H1.
Qed.

Lemma ahead_step init2 done1 st1 item rest :
  Inv invoke h D1 done1 st1 -> queue st1 = item :: rest ->
  ahead invoke h D1 D2 init2 done1 st1 ->
  ahead invoke h D1 D2 init2 (done1 ++ [(world st1, item)])
    (mkState W (resolve_members invoke (members (h (WorkItem.obj item))) (world st1)).2
       (children_append (WorkItem.parent item)
          (child_node h D1 item <$> outcomes invoke h (world st1) item) (rootNode st1))
       (rest ++ new_items D1 item O (outcomes invoke h (world st1) item))).
Proof.
  intros HI1 Hq1 (Hlev & done2 & st2 & extra & HI2 & Hfuel & Hw & Ht & Hq2 & Hex & Hlim).
  assert (Hitem : item ∈ all_items done1 st1).
  { apply elem_of_app. right. rewrite Hq1. left. }
  destruct (inv_depth _ _ _ _ _ HI1 _ Hitem) as [Hd Hlt].
  split.
  { apply (by_level_step done1 st1 item rest); [exact Hlev|exact Hq1|].
    intros x. apply new_items_depth. }
  rewrite Hq1 in Hq2. simpl in Hq2.
  assert (Hitem2 : item ∈ queue st2) by (rewrite Hq2; left).
  destruct (inv_queue _ _ _ _ _ HI2 _ Hitem2) as (n2 & Hn2 & Hc2).
  pose proof (process_item_eq invoke h D2 item (rest ++ extra) st2 n2 Hn2 Hc2) as Hst2.
  pose proof (Inv_step invoke h D2 done2 st2 item (rest ++ extra) HI2 Hq2) as HI2'.
  rewrite Hst2 in HI2'. rewrite <- Hw in *.
  set (os := outcomes invoke h (world st1) item) in *.
  destruct (decide (WorkItem.depth item + 1 < D1)) as [Hin|Hout].
  - (* the children of the item are expanded by both runs *)
    assert (Hnil : extra = []).
    { destruct extra as [|y extra]; [reflexivity|]. exfalso.
      assert (Hx : item ∈ queue st1) by (rewrite Hq1; left).
      specialize (Hlim ltac:(discriminate) item Hx). lia. }
    subst extra. rewrite app_nil_r in *.
    eexists _, _, []. split; [exact HI2'|]. simpl.
    split; [|split; [reflexivity|split; [|split; [|split]]]].
    + intros fuel. rewrite length_app. simpl.
      replace (length done1 + 1 + fuel)%nat with (length done1 + S fuel)%nat by lia.
      rewrite Hfuel. simpl. rewrite Hq2, <- Hst2. reflexivity.
    + rewrite truncate_children_append by lia. rewrite child_nodes_truncate by assumption.
      by rewrite Ht.
    + rewrite app_nil_r. by rewrite new_items_within.
    + intros y Hy. inversion Hy.
    + intros Hne. by destruct Hne.
  - (* the children of the item are at the lesser bound *)
    rewrite new_items_at_limit by lia. rewrite app_nil_r.
    eexists _, _, (extra ++ new_items D2 item O os). split; [exact HI2'|]. simpl.
    split; [|split; [reflexivity|split; [|split; [|split]]]].
    + intros fuel. rewrite length_app. simpl.
      replace (length done1 + 1 + fuel)%nat with (length done1 + S fuel)%nat by lia.
      rewrite Hfuel. simpl. rewrite Hq2, <- Hst2. reflexivity.
    + rewrite truncate_children_append by lia. rewrite child_nodes_truncate by assumption.
      by rewrite Ht.
    + by rewrite app_assoc.
    + intros y Hy. apply elem_of_app in Hy as [Hy|Hy]; [by apply Hex|].
      apply new_items_depth in Hy. lia.
    + intros _ x Hx.
      destruct Hlev as [Hs _]. rewrite Hq1, fmap_app in Hs.
      apply StronglySorted_app in Hs as (_ & _ & Hs). simpl in Hs.
      apply StronglySorted_cons in Hs as [Hs _]. rewrite Forall_forall in Hs.
      assert (Hle : WorkItem.depth item <= WorkItem.depth x).
      { apply Hs. apply list_elem_of_fmap. eauto. }
      lia.
Qed.

(** Expanding the levels from [D1] on leaves the tree as it is above them. *)
Lemma loop_below fuel done st st' :
  Inv invoke h D2 done st -> loop invoke h fuel D2 st = Some st' ->
  (forall y, y ∈ queue st -> D1 <= WorkItem.depth y) ->
  truncate (Z.to_nat D1) (rootNode st') = truncate (Z.to_nat D1) (rootNode st).
Proof.
  intros HI Hl Hq.
  enough (Hend : truncate (Z.to_nat D1) (rootNode st') = truncate (Z.to_nat D1) (rootNode st)
                 /\ forall y, y ∈ queue st' -> D1 <= WorkItem.depth y) by apply Hend.
  apply (loop_induction invoke h D2
           (fun _ st0 => truncate (Z.to_nat D1) (rootNode st0)
                         = truncate (Z.to_nat D1) (rootNode st)
                         /\ forall y, y ∈ queue st0 -> D1 <= WorkItem.depth y)
           ) with (fuel := fuel) (done := done) (st := st); [|exact HI|auto|exact Hl].
  clear. intros done0 st0 item rest HI0 Hq0 [Ht Hq]. simpl.
  assert (Hitem : item ∈ queue st0) by (rewrite Hq0; left).
  assert (Hall : item ∈ all_items done0 st0) by (apply elem_of_app; by right).
  destruct (inv_depth _ _ _ _ _ HI0 _ Hall) as [Hd _].
  split.
  - rewrite truncate_append_deep; [exact Ht|]. specialize (Hq item Hitem). lia.
  - intros y Hy. apply elem_of_app in Hy as [Hy|Hy].
    + apply Hq. rewrite Hq0. by right.
    + apply new_items_depth in Hy. specialize (Hq item Hitem). lia.
Qed.

Lemma loop_truncate fuel1 fuel2 (init st1 st2 : state W) :
  1 <= D1 ->
  Inv invoke h D1 [] init -> Inv invoke h D2 [] init ->
  by_level [] init -> children (rootNode init) = Some [] ->
  loop invoke h fuel1 D1 init = Some st1 ->
  loop invoke h fuel2 D2 init = Some st2 ->
  rootNode st1 = truncate (Z.to_nat D1) (rootNode st2).
Proof.
  intros HD HI1 HI2 Hlev Hroot Hl1 Hl2.
  assert (H0 : ahead invoke h D1 D2 init [] init).
  { split; [exact Hlev|]. exists [], init, [].
    split; [exact HI2|]. split; [reflexivity|]. split; [reflexivity|].
    split; [|split; [by rewrite app_nil_r|split; [intros y Hy; inversion Hy|]]].
    - replace (Z.to_nat D1) with (S (Z.to_nat D1 - 1)) by lia.
      symmetry. apply truncate_leaf. by right.
    - intros Hne. by destruct Hne. }
  pose proof (loop_induction invoke h D1 (ahead invoke h D1 D2 init) (ahead_step init)
                fuel1 [] init st1 HI1 H0 Hl1) as Hend.
  destruct (loop_Inv invoke h D1 fuel1 [] init st1 HI1 Hl1) as [_ Hq1].
  destruct Hend as (_ & done2 & st2' & extra & HI2' & Hfuel & _ & Ht & Hq2 & Hex & _).
  rewrite Hq1 in Hq2. simpl in Hq2.
  destruct (loop_more invoke h D2 fuel2 init st2
              (length ([] ++ dequeued invoke h fuel1 D1 init)) Hl2) as [Hl2' _].
  rewrite Nat.add_comm, Hfuel in Hl2'.
  rewrite Ht. symmetry. apply (loop_below fuel2 done2 st2' st2 HI2' Hl2').
  intros y Hy. apply Hex. by rewrite <- Hq2.
Qed.

End Deeper.

(** A greater [maxDepth] only adds levels: for the same value, name and
    host state, the tree built with the lesser of two depths is the tree
    built with the greater one, without what lies below the lesser depth
    ([truncate]).  This holds whatever the getters do, since every level is
    read in full before the next one. *)
Theorem a_greater_maxDepth_only_adds_levels :
  forall (W : Type) (invoke : getter -> W -> outcome * W) (h : heap)
         (fuel1 fuel2 : nat) (obj : JsValue) (maxDepth1 maxDepth2 : number)
         (rootName : jsstring) (w : W) (t1 t2 : PropertyTreeNode) (w1 w2 : W),
    buildPropertyTree invoke h fuel1 obj maxDepth1 rootName w = Some (Normal t1, w1) ->
    buildPropertyTree invoke h fuel2 obj maxDepth2 rootName w = Some (Normal t2, w2) ->
    Number_toZ maxDepth1 <= Number_toZ maxDepth2 ->
    t1 = truncate (Z.to_nat (Number_toZ maxDepth1)) t2.
Proof.
  intros W invoke h fuel1 fuel2 obj maxDepth1 maxDepth2 rootName w t1 t2 w1 w2 Hb1 Hb2 Hle.
  pose proof (build_result _ _ _ _ _ _ _ _ _ Hb1) as Hv1. simpl in Hv1.
  pose proof (build_result _ _ _ _ _ _ _ _ _ Hb2) as Hv2. simpl in Hv2.
  destruct (build_root invoke h _ _ _ _ _ _ _ Hb2) as (Hn2 & Hty2 & Hval2).
  destruct (build_cases invoke h _ _ _ _ _ _ _ Hb1)
    as [(-> & _ & _ & Hk1)|(r & st1 & -> & H01 & Hl1 & -> & _)].
  - (* the first call returns the root alone *)
    set (ty := getPropertyType h obj) in *.
    destruct (bool_decide (ty = Tobject) || bool_decide (ty = Tarray)) eqn:Hc.
    + (* a container, with the depth 0 *)
      assert (Hk : container_kind ty).
      { apply orb_true_iff in Hc as [Hc|Hc]; apply bool_decide_eq_true in Hc;
          [by left|by right]. }
      rewrite (Number_eq0_toZ _ (Hk1 Hk)). simpl. rewrite Hn2, Hty2, Hc.
      destruct Hk as [-> | ->]; reflexivity.
    + (* a value that no depth expands *)
      destruct (build_cases invoke h _ _ _ _ _ _ _ Hb2)
        as [(-> & _)|(r & st2 & Hobj & _)].
      * fold ty. destruct (Z.to_nat (Number_toZ maxDepth1)); simpl; [|reflexivity].
        by rewrite Hc.
      * exfalso. unfold ty in Hc. rewrite Hobj, getPropertyType_object in Hc.
        destruct (h r); discriminate.
  - (* the first call expands the root *)
    pose proof (valid_depth_positive _ Hv1 H01) as HD1.
    assert (H02 : Number_eq0 maxDepth2 = false).
    { destruct (Number_eq0 maxDepth2) eqn:E; [|reflexivity].
      apply Number_eq0_toZ in E. lia. }
    destruct (build_cases invoke h _ _ _ _ _ _ _ Hb2)
      as [(_ & _ & _ & Hk2)|(r' & st2 & Hr & _ & Hl2 & -> & _)].
    + exfalso. rewrite Hk2 in H02; [discriminate|].
      rewrite getPropertyType_object. destruct (h r); [right|left]; reflexivity.
    + injection Hr as <-.
      apply (loop_truncate invoke h _ _ Hle fuel1 fuel2 (initial_state h w rootName r));
        auto.
      * by apply Inv_initial.
      * apply Inv_initial. lia.
      * apply by_level_initial.
Qed.

Lemma a_greater_maxDepth_only_adds_levels_witness :
  mkNode (str "root") Tobject None
    (Some [mkNode (str "name") Tstring (Some (JsString (str "Circular"))) None;
           mkNode (str "self") Tobject None None])
  = truncate (Z.to_nat (Number_toZ (number_of_Z 1))) cyclic_tree.
Proof.
  apply (a_greater_maxDepth_only_adds_levels unit no_accessors cyclic_heap 1 1
           (JsObject O) (number_of_Z 1) (number_of_Z 2) (str "root") tt _ cyclic_tree tt tt).
  - vm_compute. reflexivity.
  - exact cyclic_tree_built.
  - simpl. lia.
Defined.

(** ** The rendering, line by line *)

Lemma escape_newlines_no_LF s : LF ∉ escape_newlines s.
Proof.
  induction s as [|c s IH]; simpl; [apply not_elem_of_nil|].
  destruct (c =? LF)%N eqn:E; simpl.
  - rewrite !not_elem_of_cons. repeat split; [discriminate|discriminate|exact IH].
  - apply N.eqb_neq in E. rewrite not_elem_of_cons. auto.
Qed.

Lemma escape_newlines_id s : LF ∉ s -> escape_newlines s = s.
Proof.
  induction s as [|c s IH]; simpl; [reflexivity|].
  rewrite not_elem_of_cons. intros [Hc Hs].
  destruct (c =? LF)%N eqn:E; [apply N.eqb_eq in E; congruence|].
  simpl. by rewrite IH.
Qed.

Lemma take_no_LF k (s : jsstring) : LF ∉ s -> LF ∉ take k s.
Proof. intros Hs Hin. apply Hs. rewrite <- (take_drop k s). apply elem_of_app. by left. Qed.

Lemma display_text_no_LF s : LF ∉ display_text s.
Proof.
  unfold display_text. rewrite not_elem_of_cons. split; [discriminate|].
  rewrite !not_elem_of_app. split; [apply take_no_LF, escape_newlines_no_LF|].
  split; [|rewrite not_elem_of_cons; split; [discriminate|apply not_elem_of_nil]].
  destruct (50 <? length s)%nat; [apply no_LF_by_test; reflexivity|apply not_elem_of_nil].
Qed.

Lemma display_text_length s : (length (display_text s) <= 55)%nat.
Proof.
  unfold display_text. cbn zeta.
  change (length (DQUOTE :: ?l)) with (S (length l)).
  rewrite !length_app, length_take.
  destruct (50 <? length s)%nat;
    [change (length (str "...")) with 3%nat|]; cbn [length]; lia.
Qed.

Lemma display_text_short s :
  (length s <= 50)%nat -> LF ∉ s -> display_text s = DQUOTE :: s ++ [DQUOTE].
Proof.
  intros Hlen Hs. unfold display_text. rewrite escape_newlines_id by exact Hs.
  rewrite take_ge by lia.
  destruct (50 <? length s)%nat eqn:E; [apply Nat.ltb_lt in E; lia|reflexivity].
Qed.

Lemma count_LF_none (s : jsstring) : LF ∉ s -> count_occ N.eq_dec s LF = O.
Proof. intros Hs. apply count_occ_not_In. by rewrite <- list_elem_of_In. Qed.

Lemma count_LF_join l ls :
  count_occ N.eq_dec (join LF (l :: ls)) LF
  = (count_occ N.eq_dec l LF
     + list_sum (map (fun x => S (count_occ N.eq_dec x LF)) ls))%nat.
Proof.
  revert l; induction ls as [|l' ls IH]; intros l.
  - simpl. lia.
  - change (join LF (l :: l' :: ls)) with (l ++ LF :: join LF (l' :: ls)).
    rewrite count_occ_app, count_occ_cons_eq by reflexivity. rewrite IH. simpl. lia.
Qed.

Lemma flat_indent_no_LF indent (s : jsstring) :
  LF ∉ s -> flat_map (fun c => if (c =? LF)%N then LF :: indent else [c]) s = s.
Proof.
  induction s as [|c s IH]; simpl; [reflexivity|].
  rewrite not_elem_of_cons. intros [Hc Hs].
  destruct (c =? LF)%N eqn:E; [apply N.eqb_eq in E; congruence|].
  simpl. by rewrite IH.
Qed.

Lemma indent_lines_one indent s : LF ∉ s -> indent_lines indent s = indent ++ s.
Proof. intros Hs. unfold indent_lines. by rewrite flat_indent_no_LF. Qed.

Lemma indent_lines_join indent l ls :
  indent_lines indent (join LF (l :: ls))
  = join LF (indent_lines indent l :: map (indent_lines indent) ls).
Proof.
  revert l; induction ls as [|l' ls IH]; intros l; [reflexivity|].
  change (join LF (l :: l' :: ls)) with (l ++ LF :: join LF (l' :: ls)).
  change (join LF (indent_lines indent l :: map (indent_lines indent) (l' :: ls)))
    with (indent_lines indent l ++ LF
            :: join LF (indent_lines indent l' :: map (indent_lines indent) ls)).
  rewrite <- IH. unfold indent_lines. rewrite flat_map_app. simpl.
  rewrite <- !app_assoc. reflexivity.
Qed.

Section RenderMore.

Variable Number_toString : number -> jsstring.
Variable Object_toString : loc -> jsstring.

Lemma value_suffix_no_LF n :
  one_line_node Number_toString Object_toString n ->
  LF ∉ value_suffix Number_toString Object_toString n.
Proof.
  intros [_ Hv]. unfold value_suffix.
  destruct (value n) as [v|] eqn:E; [|apply not_elem_of_nil].
  destruct (is_string v CIRCULAR_REFERENCE_MARKER) eqn:H1; cbn [orb].
  { apply is_string_true in H1 as ->. apply no_LF_by_test. reflexivity. }
  destruct (is_string v ACCESS_ERROR_MARKER) eqn:H2; cbn [orb].
  { apply is_string_true in H2 as ->. apply no_LF_by_test. reflexivity. }
  destruct (carries_value (type n)); [|apply not_elem_of_nil].
  assert (Hcolon : LF ∉ str ": ") by (apply no_LF_by_test; reflexivity).
  destruct v as [| |b|x|s|d|z|f|l];
    try (rewrite not_elem_of_app; split; [exact Hcolon|];
         apply (Hv _ eq_refl); discriminate).
  rewrite not_elem_of_app. split; [exact Hcolon|apply display_text_no_LF].
Qed.

Lemma node_line_no_LF n indent isLast :
  one_line_node Number_toString Object_toString n -> LF ∉ indent ->
  LF ∉ node_line Number_toString Object_toString n indent isLast.
Proof.
  intros Hn Hi. unfold node_line. rewrite !not_elem_of_app.
  split; [split; [exact Hi|destruct isLast; apply no_LF_by_test; reflexivity]|].
  split; [apply Hn|]. split; [apply no_LF_by_test; reflexivity|].
  split; [destruct (type n); apply no_LF_by_test; reflexivity|].
  split; [apply no_LF_by_test; reflexivity|by apply value_suffix_no_LF].
Qed.

Lemma child_indent_no_LF isLast : LF ∉ child_indent isLast.
Proof. destruct isLast; apply no_LF_by_test; reflexivity. Qed.

Lemma one_line_child nm ty v cs i c :
  (forall q n, node_at q (mkNode nm ty v (Some cs)) = Some n ->
     one_line_node Number_toString Object_toString n) ->
  cs !! i = Some c ->
  forall q n, node_at q c = Some n -> one_line_node Number_toString Object_toString n.
Proof. intros H Hi q n Hq. apply (H (i :: q)). simpl. by rewrite Hi. Qed.

Lemma format_line_count t :
  (forall q n, node_at q t = Some n -> one_line_node Number_toString Object_toString n) ->
  forall indent isLast, LF ∉ indent ->
    line_count (formatNodeToString Number_toString Object_toString t indent isLast)
    = node_count t.
Proof.
  unfold line_count.
  induction t as [nm ty v|nm ty v cs IH] using PropertyTreeNode_ind;
    intros Hone indent isLast Hi.
  - simpl. rewrite count_LF_none; [reflexivity|].
    apply node_line_no_LF; [by apply (Hone [])|exact Hi].
  - rewrite formatNodeToString_eq. cbn [children node_count]. rewrite count_LF_join.
    rewrite count_LF_none by (apply node_line_no_LF; [by apply (Hone [])|exact Hi]).
    f_equal. simpl. f_equal.
    assert (Hi' : LF ∉ indent ++ child_indent isLast).
    { rewrite not_elem_of_app. split; [exact Hi|apply child_indent_no_LF]. }
    generalize (indent ++ child_indent isLast) Hi'. intros ind Hind.
    assert (Hcs : forall i c, cs !! i = Some c ->
              forall q n, node_at q c = Some n ->
                one_line_node Number_toString Object_toString n).
    { intros i c Hc. eapply one_line_child; eauto. }
    clear Hone. induction cs as [|c cs IHcs]; [reflexivity|].
    apply Forall_cons in IH as [Hc IH]. simpl. f_equal.
    + apply Hc; [apply (Hcs O c eq_refl)|exact Hind].
    + apply IHcs; [exact IH|]. intros i c' Hc'. apply (Hcs (S i) c' Hc').
Qed.

Lemma format_indent_lines t :
  (forall q n, node_at q t = Some n -> one_line_node Number_toString Object_toString n) ->
  forall indent indent' isLast, LF ∉ indent' ->
    formatNodeToString Number_toString Object_toString t (indent ++ indent') isLast
    = indent_lines indent (formatNodeToString Number_toString Object_toString t indent' isLast).
Proof.
  induction t as [nm ty v|nm ty v cs IH] using PropertyTreeNode_ind;
    intros Hone indent indent' isLast Hi.
  - simpl. rewrite indent_lines_one
      by (apply node_line_no_LF; [by apply (Hone [])|exact Hi]).
    unfold node_line. by rewrite <- !app_assoc.
  - rewrite !formatNodeToString_eq. cbn [children]. rewrite indent_lines_join.
    rewrite indent_lines_one
      by (apply node_line_no_LF; [by apply (Hone [])|exact Hi]).
    f_equal. f_equal; [unfold node_line; by rewrite <- !app_assoc|].
    rewrite <- app_assoc.
    assert (Hi' : LF ∉ indent' ++ child_indent isLast).
    { rewrite not_elem_of_app. split; [exact Hi|apply child_indent_no_LF]. }
    generalize (indent' ++ child_indent isLast) Hi'. intros ind Hind.
    assert (Hcs : forall i c, cs !! i = Some c ->
              forall q n, node_at q c = Some n ->
                one_line_node Number_toString Object_toString n).
    { intros i c Hc. eapply one_line_child; eauto. }
    clear Hone. induction cs as [|c cs IHcs]; [reflexivity|].
    apply Forall_cons in IH as [Hc IH]. simpl. f_equal.
    + apply Hc; [apply (Hcs O c eq_refl)|exact Hind].
    + apply IHcs; [exact IH|]. intros i c' Hc'. apply (Hcs (S i) c' Hc').
Qed.

End RenderMore.

(** ** Building, rendering and logging together *)

(** The rendering has one line for each node: when no name in the tree
    holds a line feed, and no value other than a string is printed with one,
    the text of a tree has as many lines as the tree has nodes, under any
    indentation that holds no line feed. *)
Theorem one_line_per_node :
  forall (Number_toString : number -> jsstring) (Object_toString : loc -> jsstring)
         (t : PropertyTreeNode),
    (forall q n, node_at q t = Some n -> one_line_node Number_toString Object_toString n) ->
    line_count (formatPropertyTreeToString Number_toString Object_toString t) = node_count t
    /\ forall indent isLast, LF ∉ indent ->
         line_count (formatNodeToString Number_toString Object_toString t indent isLast)
         = node_count t.
Proof.
  intros Number_toString Object_toString t Hone. split.
  - apply format_line_count; [exact Hone|apply not_elem_of_nil].
  - by apply format_line_count.
Qed.

Lemma cyclic_tree_one_line q n :
  node_at q cyclic_tree = Some n ->
  one_line_node (@prints_nothing number) (@prints_nothing loc) n.
Proof.
  destruct q as [|[|[|k]] [|j q]]; simpl; try discriminate; intros [= <-];
    (split; [apply no_LF_by_test; reflexivity|]);
    intros v [= <-] Hs; by destruct (Hs _ eq_refl).
Qed.

Lemma one_line_per_node_witness :
  line_count (formatPropertyTreeToString prints_nothing prints_nothing cyclic_tree) = 3%nat.
Proof.
  destruct (one_line_per_node prints_nothing prints_nothing cyclic_tree
              cyclic_tree_one_line) as [H _].
  exact H.
Defined.

(** Rendering a subtree under an indentation puts the indentation in front
    of each of its lines and changes nothing else: it gives the text of the
    subtree rendered without indentation, each line prefixed.  (Under the
    same condition as above: names and printed values hold no line feed.) *)
Theorem indentation_prefixes_every_line :
  forall (Number_toString : number -> jsstring) (Object_toString : loc -> jsstring)
         (t : PropertyTreeNode) (indent : jsstring) (isLast : bool),
    (forall q n, node_at q t = Some n -> one_line_node Number_toString Object_toString n) ->
    formatNodeToString Number_toString Object_toString t indent isLast
    = indent_lines indent (formatNodeToString Number_toString Object_toString t [] isLast).
Proof.
  intros Number_toString Object_toString t indent isLast Hone.
  rewrite <- (app_nil_r indent) at 1.
  apply format_indent_lines; [exact Hone|apply not_elem_of_nil].
Qed.

Lemma indentation_prefixes_every_line_witness :
  formatNodeToString prints_nothing prints_nothing cyclic_tree (str "  ") false
  = indent_lines (str "  ")
      (formatNodeToString prints_nothing prints_nothing cyclic_tree [] false).
Proof.
  apply (indentation_prefixes_every_line prints_nothing prints_nothing cyclic_tree
           (str "  ") false).
  exact cyclic_tree_one_line.
Defined.

(** What the rendering appends for a string value, whatever the string
    and the type of the node, holds no line feed and has at most 57 code
    units (colon, space, quotes, 50 units of the value and three dots).  For
    a node of type string whose value is not a marker, has at most 50 code
    units and no line feed, it is the value itself between double quotes. *)
Theorem string_values_stay_on_one_line :
  forall (Number_toString : number -> jsstring) (Object_toString : loc -> jsstring)
         (node : PropertyTreeNode) (s : jsstring),
    value node = Some (JsString s) ->
    (LF ∉ value_suffix Number_toString Object_toString node)
    /\ (length (value_suffix Number_toString Object_toString node) <= 57)%nat
    /\ (type node = Tstring -> s <> CIRCULAR_REFERENCE_MARKER -> s <> ACCESS_ERROR_MARKER ->
        (length s <= 50)%nat -> LF ∉ s ->
        value_suffix Number_toString Object_toString node
        = str ": " ++ [DQUOTE] ++ s ++ [DQUOTE]).
Proof.
  intros Number_toString Object_toString node s Hv. unfold value_suffix. rewrite Hv.
  cbn [is_string String_of]. split; [|split].
  - destruct (bool_decide (s = CIRCULAR_REFERENCE_MARKER)) eqn:H1; cbn [orb].
    { apply bool_decide_eq_true in H1 as ->. apply no_LF_by_test. reflexivity. }
    destruct (bool_decide (s = ACCESS_ERROR_MARKER)) eqn:H2; cbn [orb].
    { apply bool_decide_eq_true in H2 as ->. apply no_LF_by_test. reflexivity. }
    destruct (carries_value (type node)); [|apply not_elem_of_nil].
    rewrite not_elem_of_app. split; [apply no_LF_by_test; reflexivity|].
    apply display_text_no_LF.
  - destruct (bool_decide (s = CIRCULAR_REFERENCE_MARKER)) eqn:H1; cbn [orb].
    { apply bool_decide_eq_true in H1 as ->. vm_compute. lia. }
    destruct (bool_decide (s = ACCESS_ERROR_MARKER)) eqn:H2; cbn [orb].
    { apply bool_decide_eq_true in H2 as ->. vm_compute. lia. }
    destruct (carries_value (type node)); [|simpl; lia].
    rewrite length_app. pose proof (display_text_length s).
    change (length (str ": ")) with 2%nat. lia.
  - intros Hty H1 H2 Hlen Hs.
    rewrite (bool_decide_eq_false_2 _ H1), (bool_decide_eq_false_2 _ H2), Hty.
    cbn [orb]. change (carries_value Tstring) with true. cbn iota.
    by rewrite display_text_short.
Qed.

Lemma string_values_stay_on_one_line_witness :
  (LF ∉ value_suffix prints_nothing prints_nothing
          (mkNode (str "multi") Tstring
             (Some (JsString (str "First line" ++ [LF] ++ str "Second line"))) None))
  /\ (length (value_suffix prints_nothing prints_nothing
         (mkNode (str "multi") Tstring
            (Some (JsString (str "First line" ++ [LF] ++ str "Second line"))) None))
      <= 57)%nat.
Proof.
  destruct (string_values_stay_on_one_line prints_nothing prints_nothing
              (mkNode (str "multi") Tstring
                 (Some (JsString (str "First line" ++ [LF] ++ str "Second line"))) None)
              (str "First line" ++ [LF] ++ str "Second line") eq_refl) as (H1 & H2 & _).
  split; [exact H1|exact H2].
Defined.

(** The renderer shows every value that the builder stores.  For a node of
    a tree that [buildPropertyTree] returned, nothing is appended to the
    line when the node has no value; when it has one, a colon and a space
    are appended, followed by the marker or the quoted display of a string,
    or by [String(value)] for any other value.  The case that
    [formatNodeToString] passes over in silence, a value on an object, array
    or function node that is not a marker, does not occur. *)
Theorem every_stored_value_is_displayed :
  forall (W : Type) (invoke : getter -> W -> outcome * W) (h : heap)
         (fuel : nat) (obj : JsValue) (maxDepth : number) (rootName : jsstring)
         (w : W) (t : PropertyTreeNode) (w' : W)
         (Number_toString : number -> jsstring) (Object_toString : loc -> jsstring),
    buildPropertyTree invoke h fuel obj maxDepth rootName w = Some (Normal t, w') ->
    forall q n, node_at q t = Some n ->
      (value n = None -> value_suffix Number_toString Object_toString n = [])
      /\ (forall v, value n = Some v ->
            value_suffix Number_toString Object_toString n
            = str ": " ++
                match v with
                | JsString s =>
                    if bool_decide (s = CIRCULAR_REFERENCE_MARKER)
                       || bool_decide (s = ACCESS_ERROR_MARKER)
                    then s else display_text s
                | _ => String_of Number_toString Object_toString v
                end).
Proof.
  intros W invoke h fuel obj maxDepth rootName w t w' Number_toString Object_toString
    Hb q n Hq.
  destruct (build_nodes _ _ _ _ _ _ _ _ _ Hb q n Hq) as [_ H2 _ H4 H5].
  unfold value_suffix. split; [intros ->; reflexivity|].
  intros v Hv. rewrite Hv.
  destruct (carries_value (type n)) eqn:Hcv.
  - destruct v; cbn [is_string String_of orb]; try reflexivity.
    destruct (bool_decide (s = CIRCULAR_REFERENCE_MARKER)
              || bool_decide (s = ACCESS_ERROR_MARKER)); reflexivity.
  - assert (Hm : v = JsString CIRCULAR_REFERENCE_MARKER).
    { destruct (type n) eqn:Ety; try discriminate.
      - by destruct (H2 (or_introl eq_refl) v Hv).
      - by destruct (H2 (or_intror eq_refl) v Hv).
      - rewrite (H4 eq_refl) in Hv. discriminate. }
    subst v. reflexivity.
Qed.

Lemma every_stored_value_is_displayed_witness :
  value_suffix prints_nothing prints_nothing cyclic_self_node
  = str ": " ++ CIRCULAR_REFERENCE_MARKER.
Proof.
  destruct (every_stored_value_is_displayed unit no_accessors cyclic_heap 1 (JsObject O)
              (number_of_Z 2) (str "root") tt cyclic_tree tt prints_nothing prints_nothing
              cyclic_tree_built [1%nat] cyclic_self_node eq_refl) as [_ H].
  exact (H _ eq_refl).
Defined.


(** * Lemmas on walks over any host *)

(** ** Classification and one round of the loops *)

Lemma Host_getPropertyType_Ok h v ty :
  Host.getPropertyType h v = Host.Ok ty ->
  revoked h v = false /\ getPropertyType (erase_heap h) v = ty.
Proof.
  unfold Host.getPropertyType, getPropertyType, erase_heap.
  destruct v; simpl; try (intros [= <-]; auto; fail).
  destruct (h l) as [els|ps|[|] e|]; simpl; try discriminate; intros [= <-]; auto.
Qed.

Lemma Host_getPropertyType_Err h v e :
  Host.getPropertyType h v = Host.Err e -> revoked h v = true /\ e = Host.TypeError.
Proof.
  unfold Host.getPropertyType.
  destruct v; simpl; try discriminate.
  destruct (h l) as [els|ps|[|] e'|]; simpl; try discriminate. intros [= <-]. auto.
Qed.

Lemma Host_getPropertyType_revoked h v :
  revoked h v = true <-> Host.getPropertyType h v = Host.Err Host.TypeError.
Proof.
  split.
  - destruct v; simpl; try discriminate.
    unfold Host.getPropertyType. simpl. destruct (h l) as [els|ps|[|] e'|]; try discriminate.
    reflexivity.
  - intros H. by apply Host_getPropertyType_Err in H as [H _].
Qed.

Lemma Host_getPropertyType_kind h v :
  Host.getPropertyType h v
  = match kind_of h v with
    | Some ty => Host.Ok ty
    | None => Host.Err Host.TypeError
    end.
Proof.
  destruct v; try reflexivity.
  unfold Host.getPropertyType, kind_of. simpl.
  destruct (h l) as [els|ps|[|] e|]; reflexivity.
Qed.

Lemma kind_of_revoked h v : kind_of h v = None <-> revoked h v = true.
Proof.
  destruct v; simpl; try (split; discriminate).
  destruct (h l) as [els|ps|[|] e|]; split; try discriminate; reflexivity.
Qed.

Section Erase.

Context {W : Type}.
Variable invoke : getter -> W -> Host.outcome * W.
Variable console_error : jsstring -> Host.thrown -> W -> option Host.thrown.
Variable h : Host.heap.

Lemma Host_processChild_Ok p key v d D vis (st st' : state W) :
  Host.processChild h p key v d D vis st = Host.Ok st' ->
  revoked h v = false /\ processChild (erase_heap h) p key v d D vis st = st'.
Proof.
  unfold Host.processChild, processChild.
  destruct (Host.getPropertyType h v) as [ty|e] eqn:Hty; [|discriminate].
  apply Host_getPropertyType_Ok in Hty as [Hr <-]. cbn zeta.
  intros H. split; [exact Hr|].
  destruct ((d + 1 <? D)
            && (bool_decide (getPropertyType (erase_heap h) v = Tobject)
                || bool_decide (getPropertyType (erase_heap h) v = Tarray))
            && negb (is_null v)); [|congruence].
  destruct v; try congruence.
  destruct (bool_decide (l ∈ vis)); congruence.
Qed.

Lemma Host_processChild_Err p key v d D vis (st : state W) e :
  Host.processChild h p key v d D vis st = Host.Err e ->
  revoked h v = true /\ e = Host.TypeError.
Proof.
  unfold Host.processChild.
  destruct (Host.getPropertyType h v) as [ty|e'] eqn:Hty.
  - cbn zeta.
    destruct ((d + 1 <? D) && _ && negb (is_null v)); [|discriminate].
    destruct v; try discriminate. destruct (bool_decide (l ∈ vis)); discriminate.
  - intros [= <-]. by apply Host_getPropertyType_Err in Hty.
Qed.

(** Reading a member, seen from the tree. *)
Lemma resolve_descriptor_erase d w :
  resolve_descriptor (erase_invoke h invoke) (erase_descriptor h d) w
  = (erase_outcome h (Host.resolve_descriptor invoke d w).1,
     (Host.resolve_descriptor invoke d w).2).
Proof.
  destruct d as [v|[g|]]; simpl.
  - destruct (revoked h v) eqn:Hr; simpl; rewrite ?Hr; reflexivity.
  - destruct (invoke g w) as [o w']. reflexivity.
  - reflexivity.
Qed.

Lemma Host_Get_resolve d w : Host.Get invoke d w = Host.resolve_descriptor invoke d w.
Proof. destruct d as [v|[g|]]; reflexivity. Qed.


(** One round of either [for] loop: the round of the walk over ordinary
    values, unless [console.error] throws. *)
Lemma Host_visit_key_eq D item key d (st : state W) :
  Host.visit_key invoke console_error h D item key (Some d) st
  = let (o, w) := Host.resolve_descriptor invoke d (world st) in
    match failure h o with
    | Some e =>
        match console_error (Host.property_message key) e w with
        | Some e' => Host.Abort e' w
        | None =>
            Host.Continue (visit_key (erase_invoke h invoke) (erase_heap h) D item key
                             (erase_descriptor h d) st)
        end
    | None =>
        Host.Continue (visit_key (erase_invoke h invoke) (erase_heap h) D item key
                         (erase_descriptor h d) st)
    end.
Proof.
  unfold Host.visit_key, visit_key. rewrite resolve_descriptor_erase.
  destruct (Host.resolve_descriptor invoke d (world st)) as [[v|e] w]; simpl.
  - destruct (Host.processChild h (WorkItem.parent item) key v (WorkItem.depth item) D
                (WorkItem.visited item) (set_world w st)) as [st'|e] eqn:E.
    + apply Host_processChild_Ok in E as [Hr <-]. rewrite Hr. reflexivity.
    + apply Host_processChild_Err in E as [Hr ->]. rewrite Hr.
      unfold Host.catch. simpl. destruct (console_error _ _ w); reflexivity.
  - unfold Host.catch. simpl. destruct (console_error _ _ w); reflexivity.
Qed.

Lemma Host_visit_element_eq D item i d (st : state W) :
  Host.visit_element invoke console_error h D item i d st
  = let (o, w) := Host.resolve_descriptor invoke d (world st) in
    match failure h o with
    | Some e =>
        match console_error (Host.element_message i) e w with
        | Some e' => Host.Abort e' w
        | None =>
            Host.Continue (visit_key (erase_invoke h invoke) (erase_heap h) D item
                             (index_label i) (erase_descriptor h d) st)
        end
    | None =>
        Host.Continue (visit_key (erase_invoke h invoke) (erase_heap h) D item
                         (index_label i) (erase_descriptor h d) st)
    end.
Proof.
  unfold Host.visit_element, visit_key. rewrite resolve_descriptor_erase, Host_Get_resolve.
  destruct (Host.resolve_descriptor invoke d (world st)) as [[v|e] w]; simpl.
  - destruct (Host.processChild h (WorkItem.parent item) (index_label i) v
                (WorkItem.depth item) D (WorkItem.visited item) (set_world w st))
      as [st'|e] eqn:E.
    + apply Host_processChild_Ok in E as [Hr <-]. rewrite Hr. reflexivity.
    + apply Host_processChild_Err in E as [Hr ->]. rewrite Hr.
      unfold Host.catch. simpl. destruct (console_error _ _ w); reflexivity.
  - unfold Host.catch. simpl. destruct (console_error _ _ w); reflexivity.
Qed.

End Erase.

(** ** One work item and the loop *)

Lemma labelled_erase h elements : forall i,
  labelled i (erase_descriptor h <$> elements) = erase_member h <$> labelled i elements.
Proof.
  induction elements as [|d rest IH]; intros i; simpl; [reflexivity|].
  by rewrite IH.
Qed.

Section EraseLoop.

Context {W : Type}.
Variable invoke : getter -> W -> Host.outcome * W.
Variable console_error : jsstring -> Host.thrown -> W -> option Host.thrown.
Variable h : Host.heap.

Lemma Host_for_keys_cases D item ps : forall (st : state W),
  (exists e w, Host.for_keys invoke console_error h D item ps st = Host.Abort e w)
  \/ Host.for_keys invoke console_error h D item ps st
     = Host.Continue (for_keys (erase_invoke h invoke) (erase_heap h) D item
                        (erase_member h <$> described ps) st).
Proof.
  induction ps as [|[key [d|]] ps IH]; intros st; [by right| |apply IH].
  cbn [Host.for_keys]. change (described ((key, Some d) :: ps)) with ((key, d) :: described ps).
  cbn [fmap list_fmap]. change (erase_member h (key, d)) with (key, erase_descriptor h d).
  cbn [for_keys].
  rewrite Host_visit_key_eq.
  destruct (Host.resolve_descriptor invoke d (world st)) as [o w].
  destruct (failure h o) as [e|]; [destruct (console_error _ e w) as [e'|]|]; eauto.
Qed.

Lemma Host_for_elements_cases D item els : forall i (st : state W),
  (exists e w, Host.for_elements invoke console_error h D item i els st = Host.Abort e w)
  \/ Host.for_elements invoke console_error h D item i els st
     = Host.Continue (for_keys (erase_invoke h invoke) (erase_heap h) D item
                        (erase_member h <$> labelled i els) st).
Proof.
  induction els as [|d els IH]; intros i st; [by right|].
  cbn [Host.for_elements labelled fmap list_fmap].
  change (erase_member h (index_label i, d)) with (index_label i, erase_descriptor h d).
  cbn [for_keys].
  rewrite Host_visit_element_eq.
  destruct (Host.resolve_descriptor invoke d (world st)) as [o w].
  destruct (failure h o) as [e|]; [destruct (console_error _ e w) as [e'|]|]; eauto.
Qed.

(** The body of the loop is the body of the loop over ordinary values,
    unless it is left by an error. *)
Lemma Host_process_item_cases D item (st : state W) :
  (exists e w, Host.process_item invoke console_error h D item st = Host.Abort e w)
  \/ Host.process_item invoke console_error h D item st
     = Host.Continue (process_item (erase_invoke h invoke) (erase_heap h) D item st).
Proof.
  unfold Host.process_item. rewrite process_item_members. unfold erase_heap, members.
  destruct (h (WorkItem.obj item)) as [els|ps|b e|]; eauto.
  - rewrite labelled_erase. apply Host_for_elements_cases.
  - apply Host_for_keys_cases.
Qed.

(** A walk that is not left by an error is the walk over ordinary values. *)
Lemma Host_loop_Continue D fuel : forall (st st' : state W),
  Host.loop invoke console_error h fuel D st = Some (Host.Continue st') ->
  loop (erase_invoke h invoke) (erase_heap h) fuel D st = Some st'
  /\ Host.dequeued invoke console_error h fuel D st
     = dequeued (erase_invoke h invoke) (erase_heap h) fuel D st.
Proof.
  induction fuel as [|fuel IH]; intros st st'; simpl.
  - destruct (queue st); [|discriminate]. intros [= <-]. auto.
  - destruct (queue st) as [|item rest]; [intros [= <-]; auto|].
    destruct (Host_process_item_cases D item (set_queue rest st)) as [(e & w & E)|E];
      rewrite E; [discriminate|].
    intros Hl. destruct (IH _ _ Hl) as [H1 H2]. by rewrite H1, H2.
Qed.

(** The walk comes to an end when the walk over ordinary values does. *)
Lemma Host_loop_completes D fuel : forall (st st' : state W),
  loop (erase_invoke h invoke) (erase_heap h) fuel D st = Some st' ->
  exists r, Host.loop invoke console_error h fuel D st = Some r.
Proof.
  induction fuel as [|fuel IH]; intros st st'; simpl.
  - destruct (queue st); [|discriminate]. eauto.
  - destruct (queue st) as [|item rest]; [eauto|].
    destruct (Host_process_item_cases D item (set_queue rest st)) as [(e & w & E)|E];
      rewrite E; [eauto|]. apply IH.
Qed.

Lemma Host_loop_more D fuel : forall (st : state W) r k,
  Host.loop invoke console_error h fuel D st = Some r ->
  Host.loop invoke console_error h (fuel + k) D st = Some r
  /\ Host.dequeued invoke console_error h (fuel + k) D st
     = Host.dequeued invoke console_error h fuel D st.
Proof.
  induction fuel as [|fuel IH]; intros st r k; simpl.
  - destruct (queue st) eqn:Hq; [|discriminate].
    intros [= <-]. destruct k; simpl; rewrite Hq; auto.
  - destruct (queue st) as [|item rest] eqn:Hq; [auto|].
    destruct (Host.process_item invoke console_error h D item (set_queue rest st))
      as [st1|e w]; [|auto].
    intros Hl. destruct (IH _ _ k Hl) as [H1 H2]. rewrite H1, H2. auto.
Qed.

End EraseLoop.

(** ** Reads and the whole call *)

Lemma members_erase h l :
  members (erase_heap h l) = erase_member h <$> Host_members (h l).
Proof.
  unfold erase_heap, members, Host_members.
  destruct (h l) as [els|ps|[|] e|]; try reflexivity. apply labelled_erase.
Qed.

Section EraseRead.

Context {W : Type}.
Variable invoke : getter -> W -> Host.outcome * W.
Variable h : Host.heap.

Lemma Host_resolve_descriptor_read d (w : W) :
  (Host.resolve_descriptor invoke d w).1 = Host_read invoke d w.
Proof. destruct d as [v|[g|]]; reflexivity. Qed.

Lemma resolve_descriptor_erase_read d (w : W) :
  (resolve_descriptor (erase_invoke h invoke) (erase_descriptor h d) w).1
  = erase_outcome h (Host_read invoke d w).
Proof. by rewrite resolve_descriptor_erase, Host_resolve_descriptor_read. Qed.

Lemma resolve_members_erase_world ms : forall (w : W),
  (resolve_members (erase_invoke h invoke) (erase_member h <$> ms) w).2
  = after_reads invoke ms w.
Proof.
  induction ms as [|[key d] ms IH]; intros w; [reflexivity|].
  cbn [fmap list_fmap]. change (erase_member h (key, d)) with (key, erase_descriptor h d).
  cbn [resolve_members]. rewrite resolve_descriptor_erase.
  specialize (IH (Host.resolve_descriptor invoke d w).2).
  destruct (resolve_members (erase_invoke h invoke) (erase_member h <$> ms)
              (Host.resolve_descriptor invoke d w).2) as [os w2].
  simpl in *. rewrite IH. destruct d as [v|[g|]]; reflexivity.
Qed.

End EraseRead.

Section EraseBuild.

Context {W : Type}.
Variable invoke : getter -> W -> Host.outcome * W.
Variable console_error : jsstring -> Host.thrown -> W -> option Host.thrown.
Variable h : Host.heap.

(** A call that returns a tree is a call over ordinary values. *)
Lemma Host_build_Normal fuel obj maxDepth rootName (w : W) t w' :
  Host.buildPropertyTree invoke console_error h fuel obj maxDepth rootName w
  = Some (Host.Normal t, w') ->
  buildPropertyTree (erase_invoke h invoke) (erase_heap h) fuel obj maxDepth rootName w
  = Some (Normal t, w')
  /\ Host_build_trace invoke console_error h fuel obj maxDepth rootName w
     = build_trace (erase_invoke h invoke) (erase_heap h) fuel obj maxDepth rootName w
  /\ Host.getPropertyType h obj = Host.Ok (getPropertyType (erase_heap h) obj).
Proof.
  unfold Host.buildPropertyTree, buildPropertyTree, Host_build_trace, build_trace,
    initial_state.
  destruct (Number_lt0 maxDepth || negb (Number_isInteger maxDepth)); [discriminate|].
  destruct (Host.getPropertyType h obj) as [ty|e] eqn:Hty; [|discriminate].
  apply Host_getPropertyType_Ok in Hty as [_ <-]. cbn [orb].
  destruct (carries_value (getPropertyType (erase_heap h) obj)) eqn:Hcv.
  { intros [= <- <-]. split; [reflexivity|]. split; [|reflexivity].
    destruct (Number_eq0 maxDepth); [reflexivity|].
    destruct obj; try reflexivity. by rewrite carries_value_object in Hcv. }
  destruct (Number_eq0 maxDepth); cbn [orb].
  { intros [= <- <-]. auto. }
  destruct (is_null obj || bool_decide (getPropertyType (erase_heap h) obj = Tfunction))
    eqn:Hnf.
  { intros [= <- <-]. split; [reflexivity|]. split; [|reflexivity].
    destruct obj; try reflexivity. rewrite getPropertyType_object in Hnf.
    simpl in Hnf. destruct (erase_heap h l); discriminate. }
  destruct obj; try (intros [= <- <-]; auto; fail).
  destruct (Host.loop invoke console_error h fuel (Number_toZ maxDepth) _)
    as [[st'|e w1]|] eqn:Hl; try discriminate.
  intros [= <- <-].
  apply Host_loop_Continue in Hl as [Hl Hd]. unfold root_item in *.
  rewrite Hl. auto.
Qed.

Lemma Host_build_more fuel obj maxDepth rootName (w : W) r w' k :
  Host.buildPropertyTree invoke console_error h fuel obj maxDepth rootName w = Some (r, w') ->
  Host.buildPropertyTree invoke console_error h (fuel + k) obj maxDepth rootName w
  = Some (r, w').
Proof.
  unfold Host.buildPropertyTree.
  destruct (Number_lt0 maxDepth || negb (Number_isInteger maxDepth)); [auto|].
  destruct (Host.getPropertyType h obj) as [ty|e]; [|auto].
  destruct (carries_value ty); [auto|].
  destruct (Number_eq0 maxDepth || is_null obj || bool_decide (ty = Tfunction)); [auto|].
  destruct obj; auto.
  destruct (Host.loop invoke console_error h fuel (Number_toZ maxDepth) _)
    as [r0|] eqn:Hl; [|discriminate].
  destruct (Host_loop_more invoke console_error h _ _ _ _ k Hl) as [-> _]. auto.
Qed.

(** The result of a call does not depend on the fuel. *)
Lemma Host_build_fuel_independent fuel1 fuel2 obj maxDepth rootName (w : W) r1 r2 w1 w2 :
  Host.buildPropertyTree invoke console_error h fuel1 obj maxDepth rootName w
  = Some (r1, w1) ->
  Host.buildPropertyTree invoke console_error h fuel2 obj maxDepth rootName w
  = Some (r2, w2) ->
  r1 = r2 /\ w1 = w2.
Proof.
  intros H1 H2.
  apply (Host_build_more _ _ _ _ _ _ _ fuel2) in H1.
  apply (Host_build_more _ _ _ _ _ _ _ fuel1) in H2.
  rewrite Nat.add_comm, H1 in H2. by injection H2 as -> ->.
Qed.

(** Every call with a valid depth comes to an end. *)
Lemma Host_build_completes obj maxDepth rootName (w : W) :
  valid_depth maxDepth ->
  exists fuel r w',
    Host.buildPropertyTree invoke console_error h fuel obj maxDepth rootName w = Some (r, w').
Proof.
  intros Hv.
  destruct (build_returns (erase_invoke h invoke) (erase_heap h) obj maxDepth rootName w Hv)
    as (fuel & t & w' & Hb).
  exists fuel. unfold Host.buildPropertyTree.
  destruct (Number_lt0 maxDepth || negb (Number_isInteger maxDepth)); [eauto|].
  destruct (Host.getPropertyType h obj) as [ty|e] eqn:Hty; [|eauto].
  apply Host_getPropertyType_Ok in Hty as [_ <-].
  destruct (carries_value (getPropertyType (erase_heap h) obj)) eqn:Hcv; [eauto|].
  destruct (Number_eq0 maxDepth) eqn:H0; [eauto|]. cbn [orb].
  destruct (is_null obj || bool_decide (getPropertyType (erase_heap h) obj = Tfunction));
    [eauto|].
  destruct obj; eauto.
  rewrite build_container in Hb by assumption. unfold initial_state, root_item in Hb.
  destruct (loop (erase_invoke h invoke) (erase_heap h) fuel (Number_toZ maxDepth) _)
    as [st'|] eqn:Hl; [|discriminate].
  destruct (Host_loop_completes invoke console_error h _ _ _ _ Hl) as [[st1|e w1] ->]; eauto.
Qed.

End EraseBuild.

Lemma Host_getPropertyType_total h v :
  revoked h v = false ->
  Host.getPropertyType h v = Host.Ok (getPropertyType (erase_heap h) v).
Proof.
  intros Hr. destruct (Host.getPropertyType h v) as [ty|e] eqn:E.
  - by apply Host_getPropertyType_Ok in E as [_ ->].
  - apply Host_getPropertyType_Err in E as [E _]. congruence.
Qed.

(** ** What leaves the loop *)

(** A value goes to the queue after it was classified. *)

Section Aborts.

Context {W : Type}.
Variable invoke : getter -> W -> Host.outcome * W.
Variable console_error : jsstring -> Host.thrown -> W -> option Host.thrown.
Variable h : Host.heap.

Lemma Host_processChild_classified p key v d D vis (st st' : state W) :
  classified h st -> Host.processChild h p key v d D vis st = Host.Ok st' -> classified h st'.
Proof.
  unfold Host.processChild.
  destruct (Host.getPropertyType h v) as [ty|e] eqn:Hty; [|discriminate].
  apply Host_getPropertyType_Ok in Hty as [Hr _]. cbn zeta. intros Hc.
  destruct ((d + 1 <? D) && _ && negb (is_null v)); [|by intros [= <-]].
  destruct v; try (by intros [= <-]).
  destruct (bool_decide (l ∈ vis)); [by intros [= <-]|].
  intros [= <-] item. simpl. rewrite elem_of_app, list_elem_of_singleton.
  intros [Hi| ->]; [by apply Hc|]. simpl. simpl in Hr. by destruct (h l).
Qed.

Lemma Host_catch_cases message nm p e (st : state W) r :
  Host.catch console_error message nm p e st = r ->
  classified h st ->
  match r with
  | Host.Continue st' => classified h st'
  | Host.Abort e' _ => exists m e0 w0, console_error m e0 w0 = Some e'
  end.
Proof.
  unfold Host.catch. intros <- Hc.
  destruct (console_error message e (world st)) as [e'|] eqn:E; [eauto|exact Hc].
Qed.

Lemma Host_visit_key_cases D item key d (st : state W) :
  classified h st ->
  match Host.visit_key invoke console_error h D item key (Some d) st with
  | Host.Continue st' => classified h st'
  | Host.Abort e' _ => exists m e0 w0, console_error m e0 w0 = Some e'
  end.
Proof.
  intros Hc. unfold Host.visit_key.
  destruct (Host.resolve_descriptor invoke d (world st)) as [[v|e] w].
  - destruct (Host.processChild h _ key v _ D _ (set_world w st)) as [st'|e] eqn:E.
    + exact (Host_processChild_classified _ _ _ _ _ _ (set_world w st) _ Hc E).
    + by eapply (Host_catch_cases _ _ _ _ (set_world w st)).
  - by eapply (Host_catch_cases _ _ _ _ (set_world w st)).
Qed.

Lemma Host_visit_element_cases D item i d (st : state W) :
  classified h st ->
  match Host.visit_element invoke console_error h D item i d st with
  | Host.Continue st' => classified h st'
  | Host.Abort e' _ => exists m e0 w0, console_error m e0 w0 = Some e'
  end.
Proof.
  intros Hc. unfold Host.visit_element.
  destruct (Host.Get invoke d (world st)) as [[v|e] w].
  - destruct (Host.processChild h _ _ v _ D _ (set_world w st)) as [st'|e] eqn:E.
    + exact (Host_processChild_classified _ _ _ _ _ _ (set_world w st) _ Hc E).
    + by eapply (Host_catch_cases _ _ _ _ (set_world w st)).
  - by eapply (Host_catch_cases _ _ _ _ (set_world w st)).
Qed.

Lemma Host_for_keys_classified D item ps : forall (st : state W),
  classified h st ->
  match Host.for_keys invoke console_error h D item ps st with
  | Host.Continue st' => classified h st'
  | Host.Abort e' _ => exists m e0 w0, console_error m e0 w0 = Some e'
  end.
Proof.
  induction ps as [|[key [d|]] ps IH]; intros st Hc; [exact Hc| |by apply IH].
  cbn [Host.for_keys].
  pose proof (Host_visit_key_cases D item key d st Hc) as Hv.
  destruct (Host.visit_key invoke console_error h D item key (Some d) st) as [st'|e w];
    [by apply IH|exact Hv].
Qed.

Lemma Host_for_elements_classified D item els : forall i (st : state W),
  classified h st ->
  match Host.for_elements invoke console_error h D item i els st with
  | Host.Continue st' => classified h st'
  | Host.Abort e' _ => exists m e0 w0, console_error m e0 w0 = Some e'
  end.
Proof.
  induction els as [|d els IH]; intros i st Hc; [exact Hc|].
  cbn [Host.for_elements].
  pose proof (Host_visit_element_cases D item i d st Hc) as Hv.
  destruct (Host.visit_element invoke console_error h D item i d st) as [st'|e w];
    [by apply IH|exact Hv].
Qed.

Lemma Host_process_item_classified D item rest (st : state W) :
  classified h st -> queue st = item :: rest ->
  match Host.process_item invoke console_error h D item (set_queue rest st) with
  | Host.Continue st' => classified h st'
  | Host.Abort e' _ =>
      (exists isArray, h (WorkItem.obj item) = Host.Guarded isArray e')
      \/ exists m e0 w0, console_error m e0 w0 = Some e'
  end.
Proof.
  intros Hc Hq.
  assert (Hrest : classified h (set_queue rest st)).
  { intros x Hx. apply Hc. rewrite Hq. by right. }
  assert (Hitem : h (WorkItem.obj item) <> Host.Revoked).
  { apply Hc. rewrite Hq. by left. }
  unfold Host.process_item.
  destruct (h (WorkItem.obj item)) as [els|ps|b e|] eqn:Hh; try done.
  - pose proof (Host_for_elements_classified D item els O _ Hrest) as H.
    destruct (Host.for_elements _ _ _ _ _ _ _ _); auto.
  - pose proof (Host_for_keys_classified D item ps _ Hrest) as H.
    destruct (Host.for_keys _ _ _ _ _ _ _); auto.
  - left. eauto.
Qed.

(** An error that leaves the loop was thrown by the listing of the
    members of a container taken off the queue, or by [console.error]. *)
Lemma Host_loop_Abort D fuel : forall (st : state W) e w,
  classified h st ->
  Host.loop invoke console_error h fuel D st = Some (Host.Abort e w) ->
  (exists w0 item isArray,
     (w0, item) ∈ Host.dequeued invoke console_error h fuel D st
     /\ h (WorkItem.obj item) = Host.Guarded isArray e)
  \/ exists m e0 w0, console_error m e0 w0 = Some e.
Proof.
  induction fuel as [|fuel IH]; intros st e w Hc; simpl.
  - destruct (queue st); discriminate.
  - destruct (queue st) as [|item rest] eqn:Hq; [discriminate|].
    pose proof (Host_process_item_classified D item rest st Hc Hq) as Hp.
    destruct (Host.process_item invoke console_error h D item (set_queue rest st))
      as [st1|e1 w1].
    + intros Hl. destruct (IH _ _ _ Hp Hl) as [(w0 & x & b & Hx & Hg)|H]; [|by right].
      left. exists w0, x, b. split; [by right|exact Hg].
    + intros [= -> ->]. destruct Hp as [[b Hg]|H]; [|by right].
      left. exists (world st), item, b. split; [by left|exact Hg].
Qed.

(** The containers taken off the queue by a walk that is not left by an
    error list their members. *)
Lemma Host_loop_enumerable D fuel : forall (st st' : state W),
  Host.loop invoke console_error h fuel D st = Some (Host.Continue st') ->
  forall w0 item, (w0, item) ∈ Host.dequeued invoke console_error h fuel D st ->
    enumerable h (WorkItem.obj item).
Proof.
  induction fuel as [|fuel IH]; intros st st'; simpl.
  - destruct (queue st); intros _ w0 item Hx; inversion Hx.
  - destruct (queue st) as [|x rest]; [intros _ w0 item Hx; inversion Hx|].
    destruct (Host.process_item invoke console_error h D x (set_queue rest st))
      as [st1|e1 w1] eqn:Hp; [|discriminate].
    intros Hl w0 item Hin. apply elem_of_cons in Hin as [[= -> ->]|Hin].
    + unfold Host.process_item in Hp. unfold enumerable.
      destruct (h (WorkItem.obj x)); try discriminate; exact I.
    + by apply (IH _ _ Hl w0).
Qed.

(** The two ways in which a call with a valid depth ends: at once, or
    after the loop, for a container and a depth other than 0. *)
Lemma Host_build_cases fuel obj maxDepth rootName (w : W) :
  valid_depth maxDepth ->
  (Host_build_trace invoke console_error h fuel obj maxDepth rootName w = []
   /\ ((revoked h obj = true
        /\ Host.buildPropertyTree invoke console_error h fuel obj maxDepth rootName w
           = Some (Host.Throw (Host.Uncaught Host.TypeError), w))
       \/ exists t,
            Host.buildPropertyTree invoke console_error h fuel obj maxDepth rootName w
            = Some (Host.Normal t, w) /\ children t = None))
  \/ exists r ty,
       obj = JsObject r /\ Number_eq0 maxDepth = false
       /\ Host.getPropertyType h obj = Host.Ok ty
       /\ Host_build_trace invoke console_error h fuel obj maxDepth rootName w
          = Host.dequeued invoke console_error h fuel (Number_toZ maxDepth)
              (mkState W w (mkNode rootName ty None (Some [])) [root_item rootName r])
       /\ Host.buildPropertyTree invoke console_error h fuel obj maxDepth rootName w
          = match Host.loop invoke console_error h fuel (Number_toZ maxDepth)
                    (mkState W w (mkNode rootName ty None (Some []))
                       [root_item rootName r]) with
            | Some (Host.Continue st') => Some (Host.Normal (rootNode st'), world st')
            | Some (Host.Abort e w') => Some (Host.Throw (Host.Uncaught e), w')
            | None => None
            end.
Proof.
  intros [Hlt Hint]. unfold Host.buildPropertyTree, Host_build_trace.
  rewrite Hlt, Hint. cbn [orb negb].
  destruct (Host.getPropertyType h obj) as [ty|e] eqn:Hty.
  2:{ apply Host_getPropertyType_Err in Hty as [Hr ->]. left.
      split; [|left; split; [exact Hr|reflexivity]].
      by destruct (Number_eq0 maxDepth). }
  pose proof Hty as Hty'. apply Host_getPropertyType_Ok in Hty' as [_ <-].
  destruct (carries_value (getPropertyType (erase_heap h) obj)) eqn:Hcv.
  { left. split; [|right; eauto].
    destruct (Number_eq0 maxDepth); [reflexivity|].
    destruct obj; try reflexivity. by rewrite carries_value_object in Hcv. }
  destruct (Number_eq0 maxDepth) eqn:H0; cbn [orb].
  { left. split; [reflexivity|right; eauto]. }
  destruct (is_null obj || bool_decide (getPropertyType (erase_heap h) obj = Tfunction))
    eqn:Hnf.
  { left. split; [|right; eauto]. destruct obj; try reflexivity.
    rewrite getPropertyType_object in Hnf. simpl in Hnf.
    destruct (erase_heap h l); discriminate. }
  destruct obj; try (left; split; [reflexivity|right; eauto]).
  right. exists l, (getPropertyType (erase_heap h) (JsObject l)). auto.
Qed.

(** What a call throws, besides the error of an invalid depth: the
    [TypeError] of a revoked proxy given as argument, what the listing of
    the members of a container taken off the queue threw, or what
    [console.error] threw. *)
Lemma Host_build_Throw fuel obj maxDepth rootName (w : W) x w' :
  Host.buildPropertyTree invoke console_error h fuel obj maxDepth rootName w
  = Some (Host.Throw x, w') ->
  (x = Host.InvalidDepthError maxDepth /\ ~ valid_depth maxDepth /\ w' = w)
  \/ (valid_depth maxDepth
      /\ exists e, x = Host.Uncaught e
         /\ ((revoked h obj = true /\ e = Host.TypeError /\ w' = w)
             \/ (exists w0 item isArray,
                   (w0, item) ∈ Host_build_trace invoke console_error h fuel obj
                                   maxDepth rootName w
                   /\ h (WorkItem.obj item) = Host.Guarded isArray e)
             \/ (exists m e0 w0, console_error m e0 w0 = Some e))).
Proof.
  destruct (Number_lt0 maxDepth || negb (Number_isInteger maxDepth)) eqn:Hbad.
  { unfold Host.buildPropertyTree. rewrite Hbad. intros [= <- <-]. left.
    repeat split; auto. intros [Hlt Hint]. by rewrite Hlt, Hint in Hbad. }
  assert (Hv : valid_depth maxDepth).
  { apply orb_false_iff in Hbad as [Hlt Hint]. split; [exact Hlt|].
    by apply negb_false_iff. }
  intros Hb. right. split; [exact Hv|].
  destruct (Host_build_cases fuel obj maxDepth rootName w Hv)
    as [(_ & [(Hr & E)|(t & E & _)])|(r & ty & -> & H0 & Hty & HT & E)];
    rewrite E in Hb.
  - injection Hb as <- <-. exists Host.TypeError. split; [reflexivity|]. left. auto.
  - discriminate.
  - destruct (Host.loop invoke console_error h fuel (Number_toZ maxDepth) _)
      as [[st'|e w1]|] eqn:Hl; try discriminate.
    injection Hb as <- <-. exists e. split; [reflexivity|]. right. rewrite HT.
    apply Host_loop_Abort in Hl as [(w0 & item & b & Hin & Hg)|H]; [left; eauto|by right|].
    intros item. simpl. rewrite list_elem_of_singleton. intros ->. simpl.
    apply Host_getPropertyType_Ok in Hty as [Hr _]. simpl in Hr. by destruct (h r).
Qed.

(** The containers that a call that returns a tree took off its queue
    list their members. *)
Lemma Host_build_enumerable fuel obj maxDepth rootName (w : W) t w' w0 item :
  Host.buildPropertyTree invoke console_error h fuel obj maxDepth rootName w
  = Some (Host.Normal t, w') ->
  (w0, item) ∈ Host_build_trace invoke console_error h fuel obj maxDepth rootName w ->
  enumerable h (WorkItem.obj item).
Proof.
  intros Hb Hin.
  assert (Hv : valid_depth maxDepth).
  { apply Host_build_Normal in Hb as (Hb & _). by apply build_result in Hb. }
  destruct (Host_build_cases fuel obj maxDepth rootName w Hv)
    as [(HT & _)|(r & ty & -> & H0 & Hty & HT & E)]; rewrite HT in Hin.
  - inversion Hin.
  - rewrite E in Hb.
    destruct (Host.loop invoke console_error h fuel (Number_toZ maxDepth) _)
      as [[st'|e w1]|] eqn:Hl; try discriminate.
    by apply (Host_loop_enumerable _ _ _ _ Hl w0).
Qed.

(** On a host whose [console.error] returns and whose containers list
    their members, a call with a valid depth returns a tree, whatever the
    getters do. *)
Lemma Host_build_quiet obj maxDepth rootName (w : W) :
  valid_depth maxDepth -> quiet console_error ->
  (forall l isArray e, h l <> Host.Guarded isArray e) ->
  revoked h obj = false ->
  exists fuel t w',
    Host.buildPropertyTree invoke console_error h fuel obj maxDepth rootName w
    = Some (Host.Normal t, w').
Proof.
  intros Hv Hq Hg Hr.
  destruct (Host_build_completes invoke console_error h obj maxDepth rootName w Hv)
    as (fuel & [t|x] & w' & Hb); [eauto|].
  exfalso.
  apply Host_build_Throw in Hb
    as [(_ & Hn & _)|(_ & e & _ & [(Hr' & _)|[(w0 & x0 & b & _ & H)|(m & e0 & w0 & H)]])].
  - by apply Hn.
  - congruence.
  - by apply Hg in H.
  - by rewrite Hq in H.
Qed.

End Aborts.

(** ** The tree of a call that returns *)

Lemma reads_erase {W : Type} (invoke : getter -> W -> Host.outcome * W) h items :
  forall w : W,
    reads (erase_invoke h invoke) (erase_heap h) w items = Host_reads invoke h w items.
Proof.
  unfold reads, Host_reads.
  induction items as [|item items IH]; intros w; simpl; [reflexivity|].
  rewrite members_erase, resolve_members_erase_world. apply IH.
Qed.

(** The node of a member in the walk over ordinary values is the node
    that the member is to have. *)
Lemma expected_node_erase h D item key o (expanded : loc -> Prop) c :
  shape c = shape (child_node (erase_heap h) D item (key, erase_outcome h o)) ->
  (forall l, enqueued_container D item (erase_outcome h o) = Some l -> expanded l) ->
  expected_node h D item key o expanded c.
Proof.
  intros Hs He. apply shape_fields in Hs as (Hn & Ht & Hv & Hc & Hc').
  rewrite child_node_name in Hn. split; [exact Hn|].
  unfold child_node in *. cbn [fst snd] in *.
  destruct o as [v|e]; cbn [erase_outcome] in *;
    [|split; [exact Ht|]; split; [exact Hv|by apply Hc]].
  pose proof (Host_getPropertyType_kind h v) as Hkind.
  destruct (revoked h v) eqn:Hr.
  { apply Host_getPropertyType_revoked in Hr. rewrite Hr in Hkind.
    destruct (kind_of h v); [discriminate|].
    split; [exact Ht|]. split; [exact Hv|by apply Hc]. }
  rewrite (Host_getPropertyType_total h v Hr) in Hkind.
  destruct (kind_of h v) as [ty|]; [|discriminate]. injection Hkind as Hkind.
  rewrite <- Hkind. split.
  { destruct v; try exact Ht.
    destruct (WorkItem.depth item + 1 <? D);
      [destruct (bool_decide (l ∈ WorkItem.visited item))|]; exact Ht. }
  destruct v; try (split; [exact Hv|by apply Hc]).
  destruct (WorkItem.depth item + 1 <? D) eqn:Hd.
  - destruct (bool_decide (l ∈ WorkItem.visited item)) eqn:Hvis.
    + split; [exact Hv|by apply Hc].
    + split; [exact Hv|]. split; [by apply Hc'|].
      apply He. unfold enqueued_container. by rewrite Hd, Hvis.
  - split; [exact Hv|by apply Hc].
Qed.

Section CallOverOrdinaryValues.

Context {W : Type}.
Variable invoke : getter -> W -> outcome * W.
Variable h : heap.

(** The first container taken off the queue is the argument of the call. *)
Lemma build_trace_first fuel r maxDepth rootName (w : W) t w' :
  buildPropertyTree invoke h fuel (JsObject r) maxDepth rootName w = Some (Normal t, w') ->
  Number_eq0 maxDepth = false ->
  build_trace invoke h fuel (JsObject r) maxDepth rootName w !! O
  = Some (w, root_item rootName r).
Proof.
  intros Hb H0. pose proof (build_result _ _ _ _ _ _ _ _ _ Hb) as Hv. simpl in Hv.
  rewrite build_container in Hb by assumption.
  unfold build_trace. destruct Hv as [Hlt Hint]. rewrite Hlt, Hint, H0. simpl.
  destruct fuel as [|fuel]; simpl in *; [discriminate|reflexivity].
Qed.

(** The host state in which a container is taken off the queue. *)
Lemma build_trace_reads fuel obj maxDepth rootName (w : W) t w' :
  buildPropertyTree invoke h fuel obj maxDepth rootName w = Some (Normal t, w') ->
  w' = reads invoke h w (build_trace invoke h fuel obj maxDepth rootName w).*2
  /\ forall i wi item,
       build_trace invoke h fuel obj maxDepth rootName w !! i = Some (wi, item) ->
       wi = reads invoke h w
              (take i (build_trace invoke h fuel obj maxDepth rootName w).*2).
Proof.
  intros Hb.
  pose proof (build_result _ _ _ _ _ _ _ _ _ Hb) as Hv. simpl in Hv.
  destruct (build_cases invoke h _ _ _ _ _ _ _ Hb)
    as [(_ & -> & -> & _)|(r & st' & -> & H0 & Hl & Ht & ->)].
  - split; [reflexivity|]. intros i wi item Hi. discriminate.
  - assert (Htr : build_trace invoke h fuel (JsObject r) maxDepth rootName w
                  = [] ++ dequeued invoke h fuel (Number_toZ maxDepth)
                            (initial_state h w rootName r)).
    { unfold build_trace. destruct Hv as [-> ->]. rewrite H0. reflexivity. }
    rewrite Htr.
    apply (loop_reads invoke h (Number_toZ maxDepth) w fuel [] _ st'); auto.
    + apply Inv_initial. by apply valid_depth_positive.
    + intros i wi item Hi. discriminate.
Qed.

(** The container that a member sends to the queue is taken off it, for
    the node of that member. *)
Lemma build_enqueued fuel obj maxDepth rootName (w : W) t w' w0 item k lo l :
  buildPropertyTree invoke h fuel obj maxDepth rootName w = Some (Normal t, w') ->
  (w0, item) ∈ build_trace invoke h fuel obj maxDepth rootName w ->
  outcomes invoke h w0 item !! k = Some lo ->
  enqueued_container (Number_toZ maxDepth) item lo.2 = Some l ->
  exists w1 item',
    (w1, item') ∈ build_trace invoke h fuel obj maxDepth rootName w
    /\ WorkItem.parent item' = WorkItem.parent item ++ [k]
    /\ WorkItem.obj item' = l.
Proof.
  intros Hb Hin Hlo He.
  destruct (build_trace_inv _ _ _ _ _ _ _ _ Hin) as (H0 & r & ->).
  pose proof (build_Inv invoke h _ _ _ _ _ _ _ Hb H0) as HI.
  destruct (inv_enqueued _ _ _ _ _ HI w0 item k lo l Hin Hlo He) as (y & Hy & Hyp & Hyo).
  unfold all_items in Hy. simpl in Hy. rewrite app_nil_r in Hy.
  apply list_elem_of_fmap in Hy as ([w1 y'] & -> & Hy). eauto.
Qed.

End CallOverOrdinaryValues.

Section HostCall.

Context {W : Type}.
Variable invoke : getter -> W -> Host.outcome * W.
Variable console_error : jsstring -> Host.thrown -> W -> option Host.thrown.
Variable h : Host.heap.

Lemma Host_build_valid fuel obj maxDepth rootName (w : W) t w' :
  Host.buildPropertyTree invoke console_error h fuel obj maxDepth rootName w
  = Some (Host.Normal t, w') ->
  valid_depth maxDepth.
Proof.
  intros Hb. apply Host_build_Normal in Hb as (Hb & _).
  by apply build_result in Hb.
Qed.

Lemma Host_build_trace_first fuel r maxDepth rootName (w : W) t w' :
  Host.buildPropertyTree invoke console_error h fuel (JsObject r) maxDepth rootName w
  = Some (Host.Normal t, w') ->
  Number_eq0 maxDepth = false ->
  Host_build_trace invoke console_error h fuel (JsObject r) maxDepth rootName w !! O
  = Some (w, root_item rootName r).
Proof.
  intros Hb H0. apply Host_build_Normal in Hb as (Hb & -> & _).
  by apply (build_trace_first _ _ _ _ _ _ _ _ _ Hb).
Qed.

Lemma Host_build_trace_reads fuel obj maxDepth rootName (w : W) t w' :
  Host.buildPropertyTree invoke console_error h fuel obj maxDepth rootName w
  = Some (Host.Normal t, w') ->
  w' = Host_reads invoke h w
         (Host_build_trace invoke console_error h fuel obj maxDepth rootName w).*2
  /\ forall i wi item,
       Host_build_trace invoke console_error h fuel obj maxDepth rootName w !! i
       = Some (wi, item) ->
       wi = Host_reads invoke h w
              (take i (Host_build_trace invoke console_error h fuel obj maxDepth
                         rootName w).*2).
Proof.
  intros Hb. apply Host_build_Normal in Hb as (Hb & -> & _).
  destruct (build_trace_reads _ _ _ _ _ _ _ _ _ Hb) as [H1 H2].
  rewrite reads_erase in H1. split; [exact H1|].
  intros i wi item Hi. rewrite <- reads_erase. by apply (H2 i wi item).
Qed.

(** The children of the node of a container taken off the queue are the
    nodes of its members. *)
Lemma Host_build_children fuel obj maxDepth rootName (w : W) t w' w0 item :
  Host.buildPropertyTree invoke console_error h fuel obj maxDepth rootName w
  = Some (Host.Normal t, w') ->
  (w0, item) ∈ Host_build_trace invoke console_error h fuel obj maxDepth rootName w ->
  exists n cs,
    node_at (WorkItem.parent item) t = Some n
    /\ children n = Some cs
    /\ length cs = length (Host_members (h (WorkItem.obj item)))
    /\ forall k key d,
         Host_members (h (WorkItem.obj item)) !! k = Some (key, d) ->
         exists c,
           cs !! k = Some c
           /\ expected_node h (Number_toZ maxDepth) item key
                (Host_read invoke d
                   (after_reads invoke
                      (take k (Host_members (h (WorkItem.obj item)))) w0))
                (fun l => exists w1 item',
                   (w1, item') ∈ Host_build_trace invoke console_error h fuel obj
                                   maxDepth rootName w
                   /\ WorkItem.parent item' = WorkItem.parent item ++ [k]
                   /\ WorkItem.obj item' = l)
                c.
Proof.
  intros Hb Hin. apply Host_build_Normal in Hb as (Hb & HT & _). rewrite HT in *.
  destruct (build_trace_inv _ _ _ _ _ _ _ _ Hin) as (H0 & r & ->).
  pose proof (build_Inv _ _ _ _ _ _ _ _ _ Hb H0) as HI.
  destruct (inv_done _ _ _ _ _ HI _ _ Hin) as (n & Hn & Hcs). simpl in Hn.
  destruct (children n) as [cs|] eqn:Hc;
    [|unfold child_shapes in Hcs; rewrite Hc in Hcs; discriminate].
  exists n, cs. split; [exact Hn|]. split; [exact Hc|].
  assert (Hlen : length cs = length (Host_members (h (WorkItem.obj item)))).
  { unfold child_shapes in Hcs. rewrite Hc in Hcs. injection Hcs as Hcs.
    apply (f_equal length) in Hcs. rewrite !length_fmap in Hcs. rewrite Hcs.
    unfold outcomes. rewrite resolve_members_length, members_erase. apply length_fmap. }
  split; [exact Hlen|].
  intros k key d Hk.
  assert (Hk' : members (erase_heap h (WorkItem.obj item)) !! k
                = Some (key, erase_descriptor h d)).
  { rewrite members_erase, list_lookup_fmap, Hk. reflexivity. }
  destruct (build_member _ _ _ _ _ _ _ _ _ _ _ k key _ Hb Hin Hk')
    as (n' & cs' & c & Hn' & Hcs' & _ & Hck & Ho & Hs).
  rewrite Hn in Hn'. injection Hn' as <-. rewrite Hc in Hcs'. injection Hcs' as <-.
  exists c. split; [exact Hck|].
  rewrite members_erase, <- fmap_take, resolve_members_erase_world,
    resolve_descriptor_erase_read in Hs, Ho.
  apply expected_node_erase; [exact Hs|].
  intros l He. by apply (build_enqueued _ _ _ _ _ _ _ _ _ _ _ k _ l Hb Hin Ho).
Qed.

(** Every node that has children is the node of a container that was
    taken off the queue: the argument of the call for the root, and for any
    other node the container that the read of its member gave. *)
Lemma Host_build_expanded fuel obj maxDepth rootName (w : W) t w' q n :
  Host.buildPropertyTree invoke console_error h fuel obj maxDepth rootName w
  = Some (Host.Normal t, w') ->
  node_at q t = Some n -> children n <> None ->
  exists w0 item,
    (w0, item) ∈ Host_build_trace invoke console_error h fuel obj maxDepth rootName w
    /\ WorkItem.parent item = q
    /\ Host.getPropertyType h (JsObject (WorkItem.obj item)) = Host.Ok (type n)
    /\ (q = [] -> obj = JsObject (WorkItem.obj item) /\ w0 = w)
    /\ forall p k, q = p ++ [k] ->
         exists w1 above key d,
           (w1, above) ∈ Host_build_trace invoke console_error h fuel obj maxDepth
                            rootName w
           /\ WorkItem.parent above = p
           /\ Host_members (h (WorkItem.obj above)) !! k = Some (key, d)
           /\ Host_read invoke d
                (after_reads invoke (take k (Host_members (h (WorkItem.obj above)))) w1)
              = Host.Returns (JsObject (WorkItem.obj item)).
Proof.
  intros Hb. revert n. induction q as [|k p IH] using rev_ind; intros n Hq Hc.
  - simpl in Hq. injection Hq as <-.
    pose proof Hb as Hb'. apply Host_build_Normal in Hb' as (Hb' & HT & Hty).
    destruct (build_root _ _ _ _ _ _ _ _ _ Hb') as (_ & Hrt & _).
    destruct (build_cases _ _ _ _ _ _ _ _ _ Hb') as [(-> & _)|(r & st' & -> & H0 & _)].
    { by destruct Hc. }
    exists w, (root_item rootName r). split.
    { eapply list_elem_of_lookup_2. by apply (Host_build_trace_first _ _ _ _ _ _ _ Hb). }
    split; [reflexivity|]. split; [by rewrite Hrt|]. split; [auto|].
    intros p k Hp. by destruct p.
  - apply node_at_snoc in Hq as (pn & cs & Hp & Hcs & Hk).
    destruct (IH pn Hp) as (w1 & above & Hin & Hpar & _); [congruence|].
    destruct (Host_build_children _ _ _ _ _ _ _ _ _ Hb Hin)
      as (pn' & cs' & Hpn' & Hcs' & Hlen & Hm).
    rewrite Hpar, Hp in Hpn'. injection Hpn' as <-.
    rewrite Hcs in Hcs'. injection Hcs' as <-.
    destruct (Host_members (h (WorkItem.obj above)) !! k) as [[key d]|] eqn:Hmk.
    2:{ apply lookup_ge_None in Hmk. rewrite <- Hlen in Hmk.
        apply lookup_ge_None in Hmk. congruence. }
    destruct (Hm k key d Hmk) as (c & Hck & Hex).
    rewrite Hk in Hck. injection Hck as <-.
    destruct Hex as [_ Hex].
    destruct (Host_read invoke d _) as [v|e] eqn:Hr; [|by destruct Hex as (_ & _ & ?)].
    pose proof (Host_getPropertyType_kind h v) as Hty.
    destruct (kind_of h v) as [ty|]; [|by destruct Hex as (_ & _ & ?)].
    destruct Hex as [Htn Hex].
    destruct v; try (by destruct Hex as [_ ?]).
    destruct (WorkItem.depth above + 1 <? Number_toZ maxDepth); [|by destruct Hex as [_ ?]].
    destruct (bool_decide (l ∈ WorkItem.visited above)); [by destruct Hex as [_ ?]|].
    destruct Hex as (_ & _ & w0 & item & Hitem & Hip & Hio).
    exists w0, item. split; [exact Hitem|]. split; [by rewrite Hip, Hpar|].
    split; [by rewrite Hio, Htn|].
    split; [intros E; by destruct p|].
    intros p' k' E. apply app_inj_tail in E as [<- <-].
    exists w1, above, key, d. rewrite Hio. auto.
Qed.

End HostCall.

(** * A hostile value, built and rendered *)

Example test_hostile_build :
  Host.buildPropertyTree throwing_getters silent_console hostile_heap 5 (JsObject O)
    (number_of_Z 2) (str "root") tt
  = Some (Host.Normal hostile_tree, tt).
Proof. vm_compute. reflexivity. Qed.

Example test_hostile_format :
  formatPropertyTreeToString print_integral prints_nothing hostile_tree
  = text "└─ root (object)
   ├─ safe (string): 'ok'
   ├─ problematic (error): [Access Error]
   ├─ inner (object)
   │  └─ v (string): 'x'
   └─ gone (error): [Access Error]".
Proof. vm_compute. reflexivity. Qed.

(** * The claims on any host *)

(** C4, as stated, fails: with [maxDepth = 0] the call does fail for one
    value.  The argument is classified before the depth is compared with 0,
    and [Array.isArray] throws a [TypeError] on a revoked proxy. *)
Lemma C4_counterexample :
  Host.buildPropertyTree throwing_getters silent_console revoked_heap 0 (JsObject O)
    (number_of_Z 0) (str "root") tt
  = Some (Host.Throw (Host.Uncaught Host.TypeError), tt).
Proof. reflexivity. Qed.

(** C4, amended.  [buildPropertyTree] throws [InvalidDepthError], carrying
    the rejected depth, exactly when [maxDepth] is negative or not an
    integer.  It does so before it looks at its argument: whatever the value
    and the host, without a single round of the loop and with the host state
    untouched.  With a depth that is neither, the call comes to an end and
    what it may throw is no [InvalidDepthError].  With [maxDepth = 0] it
    ends at once, the host state untouched: for every value but a revoked
    proxy it returns the root alone, of the type of the value, which it
    holds when it is neither an object, an array nor a function; for a
    revoked proxy it throws the [TypeError] of [Array.isArray].  Of the
    integers, the negative ones are rejected and no other; 1.5, NaN and the
    infinities are rejected. *)
Theorem C4_invalid_depth_error :
  forall (W : Type) (invoke : getter -> W -> Host.outcome * W)
         (console_error : jsstring -> Host.thrown -> W -> option Host.thrown)
         (h : Host.heap) (obj : JsValue) (maxDepth : number) (rootName : jsstring) (w : W),
    ((Number_lt0 maxDepth = true \/ Number_isInteger maxDepth = false) ->
       forall fuel,
         Host.buildPropertyTree invoke console_error h fuel obj maxDepth rootName w
         = Some (Host.Throw (Host.InvalidDepthError maxDepth), w))
    /\ (~ (Number_lt0 maxDepth = true \/ Number_isInteger maxDepth = false) ->
         (exists fuel r w',
            Host.buildPropertyTree invoke console_error h fuel obj maxDepth rootName w
            = Some (r, w'))
         /\ (forall fuel depth w',
               Host.buildPropertyTree invoke console_error h fuel obj maxDepth rootName w
               <> Some (Host.Throw (Host.InvalidDepthError depth), w')))
    /\ (Number_eq0 maxDepth = true ->
         forall fuel,
           (revoked h obj = false ->
              exists ty,
                kind_of h obj = Some ty
                /\ Host.buildPropertyTree invoke console_error h fuel obj maxDepth rootName w
                   = Some (Host.Normal
                             (mkNode rootName ty
                                (if carries_value ty then Some obj else None) None), w))
           /\ (revoked h obj = true ->
                 Host.buildPropertyTree invoke console_error h fuel obj maxDepth rootName w
                 = Some (Host.Throw (Host.Uncaught Host.TypeError), w)))
    /\ (forall z : Z,
          (Number_lt0 (number_of_Z z) = true \/ Number_isInteger (number_of_Z z) = false)
          <-> z < 0)
    /\ Number_isInteger (S754_finite false 3 (-1)) = false
    /\ Number_isInteger S754_nan = false
    /\ (forall s, Number_isInteger (S754_infinity s) = false).
Proof.
  intros W invoke console_error h obj maxDepth rootName w.
  split; [|split; [|split; [|split; [|repeat split]]]].
  - intros Hbad fuel. unfold Host.buildPropertyTree.
    destruct Hbad as [-> | ->]; [reflexivity|]. by rewrite orb_true_r.
  - intros Hok.
    assert (Hv : valid_depth maxDepth).
    { split.
      - destruct (Number_lt0 maxDepth); [exfalso; auto|reflexivity].
      - destruct (Number_isInteger maxDepth); [reflexivity|exfalso; auto]. }
    split; [by apply Host_build_completes|].
    intros fuel depth w' Hb.
    apply Host_build_Throw in Hb as [(_ & Hn & _)|(_ & e & He & _)]; [auto|discriminate].
  - intros H0 fuel. unfold Host.buildPropertyTree.
    assert (Hbad : Number_lt0 maxDepth || negb (Number_isInteger maxDepth) = false).
    { destruct maxDepth as [s|s| |s m e]; try discriminate;
        try (destruct s; discriminate). reflexivity. }
    rewrite Hbad, H0. cbn [orb]. split.
    + intros Hr. rewrite Host_getPropertyType_kind.
      destruct (kind_of h obj) as [ty|] eqn:Hk;
        [|apply kind_of_revoked in Hk; congruence].
      exists ty. split; [reflexivity|]. by destruct (carries_value ty).
    + intros Hr. apply Host_getPropertyType_revoked in Hr. by rewrite Hr.
  - intros z. destruct z as [|p|p]; simpl; split; try lia;
      try (intros [?|?]; discriminate); auto.
Qed.

(** C5, as stated, fails.  In each [catch] block the error is first given
    to [console.error], and pushing the error node comes after: when
    printing the value that the getter threw throws in its turn, the call
    throws and returns no tree.  And a sibling that resolves normally, to a
    proxy whose [ownKeys] trap throws, makes [Object.keys] throw outside of
    any [try] when its turn has come to be expanded. *)
Lemma C5_counterexample :
  Host.buildPropertyTree throwing_getters hostile_console hostile_heap 5 (JsObject O)
    (number_of_Z 2) (str "root") tt
  = Some (Host.Throw (Host.Uncaught (Host.Thrown 1%nat)), tt)
  /\ Host.buildPropertyTree throwing_getters silent_console hostile_heap 5
       (JsObject 3%nat) (number_of_Z 2) (str "root") tt
     = Some (Host.Throw (Host.Uncaught (Host.Thrown 2%nat)), tt).
Proof. split; vm_compute; reflexivity. Qed.

(** C5, amended.  On a host whose [console.error] returns, a call with a
    valid depth for a value that is no revoked proxy returns a tree and
    throws nothing, whatever the getters of the value do, when every
    container that it takes off its queue lists its members.  In any tree
    that a call returns, on any host, the first container taken off the
    queue is the argument, in the host state of the call; a container is
    taken off the queue in the host state left by the reads of the members
    of the containers before it; and the children of its node are the nodes
    of its members, one for each and in their order, as [expected_node]
    says of what the read of the member gives in the host state left by the
    reads of the members before it: a member whose read throws, or gives a
    revoked proxy, has a node of type error whose value is the access-error
    marker and which has no children; every other member has the node of
    its value, of the type of that value, expanded in its turn when it is a
    container within the depth bound that is not on the way to it. *)
Theorem C5_access_error_isolation :
  forall (W : Type) (invoke : getter -> W -> Host.outcome * W)
         (console_error : jsstring -> Host.thrown -> W -> option Host.thrown)
         (h : Host.heap) (obj : JsValue) (maxDepth : number) (rootName : jsstring) (w : W),
    valid_depth maxDepth ->
    (quiet console_error ->
     (forall fuel w0 item isArray e,
        (w0, item) ∈ Host_build_trace invoke console_error h fuel obj maxDepth rootName w ->
        h (WorkItem.obj item) <> Host.Guarded isArray e) ->
     revoked h obj = false ->
       (exists fuel t w',
          Host.buildPropertyTree invoke console_error h fuel obj maxDepth rootName w
          = Some (Host.Normal t, w'))
       /\ (forall fuel x w',
             Host.buildPropertyTree invoke console_error h fuel obj maxDepth rootName w
             <> Some (Host.Throw x, w')))
    /\ forall fuel t w',
         Host.buildPropertyTree invoke console_error h fuel obj maxDepth rootName w
         = Some (Host.Normal t, w') ->
         (forall r, obj = JsObject r -> Number_eq0 maxDepth = false ->
            Host_build_trace invoke console_error h fuel obj maxDepth rootName w !! O
            = Some (w, root_item rootName r))
         /\ (forall i wi item,
               Host_build_trace invoke console_error h fuel obj maxDepth rootName w !! i
               = Some (wi, item) ->
               wi = Host_reads invoke h w
                      (take i (Host_build_trace invoke console_error h fuel obj maxDepth
                                 rootName w).*2))
         /\ forall w0 item,
              (w0, item) ∈ Host_build_trace invoke console_error h fuel obj maxDepth
                             rootName w ->
              exists n cs,
                node_at (WorkItem.parent item) t = Some n
                /\ children n = Some cs
                /\ length cs = length (Host_members (h (WorkItem.obj item)))
                /\ forall k key d,
                     Host_members (h (WorkItem.obj item)) !! k = Some (key, d) ->
                     exists c,
                       cs !! k = Some c
                       /\ expected_node h (Number_toZ maxDepth) item key
                            (Host_read invoke d
                               (after_reads invoke
                                  (take k (Host_members (h (WorkItem.obj item)))) w0))
                            (fun l => exists w1 item',
                               (w1, item') ∈ Host_build_trace invoke console_error h fuel
                                               obj maxDepth rootName w
                               /\ WorkItem.parent item' = WorkItem.parent item ++ [k]
                               /\ WorkItem.obj item' = l)
                            c.
Proof.
  intros W invoke console_error h obj maxDepth rootName w Hv. split.
  - intros Hq Hg Hr.
    destruct (Host_build_completes invoke console_error h obj maxDepth rootName w Hv)
      as (fuel & [t|x] & w' & Hb).
    + split; [eauto|]. intros fuel' x w'' Hb'.
      by destruct (Host_build_fuel_independent _ _ _ _ _ _ _ _ _ _ _ _ _ Hb Hb').
    + exfalso.
      apply Host_build_Throw in Hb
        as [(_ & Hn & _)
           |(_ & e & _ & [(Hr' & _)|[(w0 & item & b & Hin & H)|(m & e0 & w0 & H)]])].
      * by apply Hn.
      * congruence.
      * by apply (Hg fuel w0 item b e Hin).
      * by rewrite Hq in H.
  - intros fuel t w' Hb. split; [|split].
    + intros r -> H0. by apply (Host_build_trace_first _ _ _ _ _ _ _ _ _ _ Hb).
    + by apply (Host_build_trace_reads _ _ _ _ _ _ _ _ _ _ Hb).
    + intros w0 item Hin. by apply (Host_build_children _ _ _ _ _ _ _ _ _ _ _ _ Hb).
Qed.

Lemma C5_access_error_isolation_witness :
  (exists fuel t w',
     Host.buildPropertyTree throwing_getters silent_console hostile_heap fuel (JsObject O)
       (number_of_Z 2) (str "root") tt
     = Some (Host.Normal t, w'))
  /\ exists n cs,
       node_at [] hostile_tree = Some n
       /\ children n = Some cs
       /\ length cs = length (Host_members (hostile_heap O))
       /\ forall k key d,
            Host_members (hostile_heap O) !! k = Some (key, d) ->
            exists c,
              cs !! k = Some c
              /\ expected_node hostile_heap (Number_toZ (number_of_Z 2))
                   (root_item (str "root") O) key
                   (Host_read throwing_getters d
                      (after_reads throwing_getters
                         (take k (Host_members (hostile_heap O))) tt))
                   (fun l => exists w1 item',
                      (w1, item') ∈ Host_build_trace throwing_getters silent_console
                                      hostile_heap 5 (JsObject O) (number_of_Z 2)
                                      (str "root") tt
                      /\ WorkItem.parent item' = [] ++ [k]
                      /\ WorkItem.obj item' = l)
                   c.
Proof.
  destruct (C5_access_error_isolation unit throwing_getters silent_console hostile_heap
              (JsObject O) (number_of_Z 2) (str "root") tt) as [Hreturns H].
  { split; reflexivity. }
  split.
  - destruct Hreturns as [Hex _]; [| |reflexivity|exact Hex].
    + intros message e w. reflexivity.
    + intros fuel w0 item isArray e Hin Hg.
      destruct fuel as [|[|[|fuel]]]; vm_compute in Hin;
        repeat (apply elem_of_cons in Hin as [[= -> ->]|Hin]; [discriminate|]);
        inversion Hin.
  - destruct (H 5%nat hostile_tree tt) as (H0 & _ & Hc).
    { vm_compute. reflexivity. }
    apply (Hc tt (root_item (str "root") O)).
    eapply list_elem_of_lookup_2. apply (H0 O); reflexivity.
Defined.

Lemma erase_invoke_stateless {W : Type} (invoke : getter -> W -> Host.outcome * W) h :
  Host_stateless invoke -> stateless (erase_invoke h invoke).
Proof.
  intros Hs [|g] wa wb; simpl; [reflexivity|].
  specialize (Hs g wa wb).
  destruct (invoke g wa) as [oa wa'], (invoke g wb) as [ob wb']. simpl in *.
  by rewrite Hs.
Qed.




(** * Further properties, on any host *)


(** In the tree that [buildPropertyTree] returns every node that has
    children is the expansion of one container of the inspected value, taken
    off the queue for the path of that node: for the root, the argument of
    the call, in the host state of the call; for any other node, the
    container that the read of its member gave, in the container expanded
    at the parent node.  The container is taken off the queue in the host
    state left by the reads of the members of the containers taken off
    before it.  The node has the type of the container, and its children
    are the nodes of the members of the container, one for each and in their
    order, as [expected_node] says of what the read of the member gives in
    the host state left by the reads of the members before it.  The children
    of an array are as many as its elements and are named by their index in
    brackets, [[0]], [[1]] and so on, also where reading the element raised;
    the names of the children of a record are its keys. *)
Theorem children_are_the_members :
  forall (W : Type) (invoke : getter -> W -> Host.outcome * W)
         (console_error : jsstring -> Host.thrown -> W -> option Host.thrown)
         (h : Host.heap) (fuel : nat) (obj : JsValue) (maxDepth : number)
         (rootName : jsstring) (w : W) (t : PropertyTreeNode) (w' : W),
    Host.buildPropertyTree invoke console_error h fuel obj maxDepth rootName w
    = Some (Host.Normal t, w') ->
    forall q n cs, node_at q t = Some n -> children n = Some cs ->
      exists i w0 item,
        Host_build_trace invoke console_error h fuel obj maxDepth rootName w !! i
        = Some (w0, item)
        /\ WorkItem.parent item = q
        /\ w0 = Host_reads invoke h w
                  (take i (Host_build_trace invoke console_error h fuel obj maxDepth
                             rootName w).*2)
        /\ (q = [] -> obj = JsObject (WorkItem.obj item) /\ w0 = w)
        /\ (forall p k, q = p ++ [k] ->
              exists w1 above key d,
                (w1, above) ∈ Host_build_trace invoke console_error h fuel obj maxDepth
                                 rootName w
                /\ WorkItem.parent above = p
                /\ Host_members (h (WorkItem.obj above)) !! k = Some (key, d)
                /\ Host_read invoke d
                     (after_reads invoke
                        (take k (Host_members (h (WorkItem.obj above)))) w1)
                   = Host.Returns (JsObject (WorkItem.obj item)))
        /\ match h (WorkItem.obj item) with
           | Host.Arr elements =>
               type n = Tarray /\ length cs = length elements
               /\ forall k c, cs !! k = Some c -> name c = index_label k
           | Host.Obj properties =>
               type n = Tobject /\ name <$> cs = (described properties).*1
           | _ => False
           end
        /\ forall k key d,
             Host_members (h (WorkItem.obj item)) !! k = Some (key, d) ->
             exists c,
               cs !! k = Some c
               /\ expected_node h (Number_toZ maxDepth) item key
                    (Host_read invoke d
                       (after_reads invoke
                          (take k (Host_members (h (WorkItem.obj item)))) w0))
                    (fun l => exists w1 item',
                       (w1, item') ∈ Host_build_trace invoke console_error h fuel obj
                                       maxDepth rootName w
                       /\ WorkItem.parent item' = q ++ [k]
                       /\ WorkItem.obj item' = l)
                    c.
Proof.
  intros W invoke console_error h fuel obj maxDepth rootName w t w' Hb q n cs Hq Hc.
  destruct (Host_build_expanded invoke console_error h _ _ _ _ _ _ _ q n Hb Hq)
    as (w0 & item & Hin & Hp & Hty & Hroot & Hup); [congruence|].
  pose proof (Host_build_enumerable invoke console_error h _ _ _ _ _ _ _ _ _ Hb Hin) as He.
  destruct (Host_build_children invoke console_error h _ _ _ _ _ _ _ _ _ Hb Hin)
    as (n' & cs' & Hn' & Hcs' & Hlen & Hm).
  rewrite Hp, Hq in Hn'. injection Hn' as <-. rewrite Hc in Hcs'. injection Hcs' as <-.
  pose proof Hin as Hi. apply list_elem_of_lookup in Hi as [i Hi].
  exists i, w0, item. split; [exact Hi|]. split; [exact Hp|].
  split.
  { destruct (Host_build_trace_reads invoke console_error h _ _ _ _ _ _ _ Hb) as [_ Hr].
    by apply (Hr i w0 item). }
  split; [exact Hroot|]. split; [exact Hup|]. split.
  - assert (Hnames : forall k c, cs !! k = Some c ->
              exists d, Host_members (h (WorkItem.obj item)) !! k = Some (name c, d)).
    { intros k c Hk.
      destruct (Host_members (h (WorkItem.obj item)) !! k) as [[key d]|] eqn:Hmk.
      - destruct (Hm k key d Hmk) as (c' & Hk' & Hn' & _).
        rewrite Hk in Hk'. injection Hk' as <-. rewrite Hn'. eauto.
      - apply lookup_ge_None in Hmk. rewrite <- Hlen in Hmk.
        apply lookup_ge_None in Hmk. congruence. }
    unfold enumerable in He. unfold Host.getPropertyType, Host.Array_isArray in Hty.
    simpl in Hty.
    destruct (h (WorkItem.obj item)) as [elements|properties|b e|] eqn:Hh;
      try (by destruct He); simpl in *.
    + injection Hty as <-. split; [reflexivity|].
      rewrite labelled_length in Hlen. split; [exact Hlen|].
      intros k c Hk. destruct (Hnames k c Hk) as [d Hd].
      by apply labelled_lookup in Hd as [-> _].
    + injection Hty as <-. split; [reflexivity|].
      apply list_eq. intros k. rewrite !list_lookup_fmap.
      destruct (cs !! k) as [c|] eqn:Hk; simpl.
      * destruct (Hnames k c Hk) as [d ->]. reflexivity.
      * apply lookup_ge_None in Hk. rewrite Hlen in Hk.
        apply lookup_ge_None in Hk. by rewrite Hk.
  - rewrite <- Hp. exact Hm.
Qed.

Lemma children_are_the_members_witness :
  exists n cs i w0 item,
    node_at [2%nat] hostile_tree = Some n
    /\ children n = Some cs
    /\ Host_build_trace throwing_getters silent_console hostile_heap 5 (JsObject O)
         (number_of_Z 2) (str "root") tt !! i = Some (w0, item)
    /\ WorkItem.parent item = [2%nat]
    /\ (forall p k, [2%nat] = p ++ [k] ->
          exists w1 above key d,
            (w1, above) ∈ Host_build_trace throwing_getters silent_console hostile_heap 5
                             (JsObject O) (number_of_Z 2) (str "root") tt
            /\ WorkItem.parent above = p
            /\ Host_members (hostile_heap (WorkItem.obj above)) !! k = Some (key, d)
            /\ Host_read throwing_getters d
                 (after_reads throwing_getters
                    (take k (Host_members (hostile_heap (WorkItem.obj above)))) w1)
               = Host.Returns (JsObject (WorkItem.obj item)))
    /\ match hostile_heap (WorkItem.obj item) with
       | Host.Arr elements =>
           type n = Tarray /\ length cs = length elements
           /\ forall k c, cs !! k = Some c -> name c = index_label k
       | Host.Obj properties => type n = Tobject /\ name <$> cs = (described properties).*1
       | _ => False
       end.
Proof.
  destruct (children_are_the_members unit throwing_getters silent_console hostile_heap 5
              (JsObject O) (number_of_Z 2) (str "root") tt hostile_tree tt)
    with (q := [2%nat])
         (n := mkNode (str "inner") Tobject None
                 (Some [mkNode (str "v") Tstring (Some (JsString (str "x"))) None]))
         (cs := [mkNode (str "v") Tstring (Some (JsString (str "x"))) None])
    as (i & w0 & item & H1 & H2 & _ & _ & H3 & H4 & _).
  { vm_compute. reflexivity. }
  { reflexivity. }
  { reflexivity. }
  eexists _, _, i, w0, item. split; [reflexivity|]. split; [reflexivity|]. auto.
Defined.

(** In the tree that [buildPropertyTree] returns a node of type error is
    never the root, and a node below the root stands for one member of the
    container expanded at its parent node, of which it bears the name: it is
    of type error exactly when the read of that member, in the host state
    left by the reads of the members before it, threw or gave a value on
    which [Array.isArray] throws, a revoked proxy.  A node of type error
    holds the access-error marker and has no children.  When no getter
    throws and the inspected value holds no revoked proxy, the tree has no
    node of type error. *)
Theorem error_nodes_are_failed_reads :
  forall (W : Type) (invoke : getter -> W -> Host.outcome * W)
         (console_error : jsstring -> Host.thrown -> W -> option Host.thrown)
         (h : Host.heap) (fuel : nat) (obj : JsValue) (maxDepth : number)
         (rootName : jsstring) (w : W) (t : PropertyTreeNode) (w' : W),
    Host.buildPropertyTree invoke console_error h fuel obj maxDepth rootName w
    = Some (Host.Normal t, w') ->
    type t <> Terror
    /\ (forall p k c, node_at (p ++ [k]) t = Some c ->
          exists i w0 item key d,
            Host_build_trace invoke console_error h fuel obj maxDepth rootName w !! i
            = Some (w0, item)
            /\ w0 = Host_reads invoke h w
                      (take i (Host_build_trace invoke console_error h fuel obj maxDepth
                                 rootName w).*2)
            /\ WorkItem.parent item = p
            /\ Host_members (h (WorkItem.obj item)) !! k = Some (key, d)
            /\ name c = key
            /\ (type c = Terror <->
                exists e,
                  failure h
                    (Host_read invoke d
                       (after_reads invoke
                          (take k (Host_members (h (WorkItem.obj item)))) w0))
                  = Some e)
            /\ (type c = Terror ->
                value c = Some (JsString ACCESS_ERROR_MARKER) /\ children c = None))
    /\ ((forall g w1 e, (invoke g w1).1 <> Host.Raises e) ->
        (forall l, h l <> Host.Revoked) ->
        forall q n, node_at q t = Some n -> type n <> Terror).
Proof.
  intros W invoke console_error h fuel obj maxDepth rootName w t w' Hb.
  assert (Hroot : type t <> Terror).
  { pose proof Hb as Hb'. apply Host_build_Normal in Hb' as (Hb' & _).
    destruct (build_root _ _ _ _ _ _ _ _ _ Hb') as (_ & -> & _).
    apply getPropertyType_not_error. }
  assert (Hmain : forall p k c, node_at (p ++ [k]) t = Some c ->
          exists i w0 item key d,
            Host_build_trace invoke console_error h fuel obj maxDepth rootName w !! i
            = Some (w0, item)
            /\ w0 = Host_reads invoke h w
                      (take i (Host_build_trace invoke console_error h fuel obj maxDepth
                                 rootName w).*2)
            /\ WorkItem.parent item = p
            /\ Host_members (h (WorkItem.obj item)) !! k = Some (key, d)
            /\ name c = key
            /\ (type c = Terror <->
                exists e,
                  failure h
                    (Host_read invoke d
                       (after_reads invoke
                          (take k (Host_members (h (WorkItem.obj item)))) w0))
                  = Some e)
            /\ (type c = Terror ->
                value c = Some (JsString ACCESS_ERROR_MARKER) /\ children c = None)).
  { intros p k c Hq.
    apply node_at_snoc in Hq as (pn & cs & Hp & Hcs & Hk).
    destruct (Host_build_expanded invoke console_error h _ _ _ _ _ _ _ p pn Hb Hp)
      as (w0 & item & Hin & Hpar & _); [congruence|].
    destruct (Host_build_children invoke console_error h _ _ _ _ _ _ _ _ _ Hb Hin)
      as (n' & cs' & Hn' & Hcs' & Hlen & Hm).
    rewrite Hpar, Hp in Hn'. injection Hn' as <-.
    rewrite Hcs in Hcs'. injection Hcs' as <-.
    destruct (Host_members (h (WorkItem.obj item)) !! k) as [[key d]|] eqn:Hmk.
    2:{ apply lookup_ge_None in Hmk. rewrite <- Hlen in Hmk.
        apply lookup_ge_None in Hmk. congruence. }
    destruct (Hm k key d Hmk) as (c' & Hk' & Hname & Hex).
    rewrite Hk in Hk'. injection Hk' as <-.
    pose proof Hin as Hi. apply list_elem_of_lookup in Hi as [i Hi].
    exists i, w0, item, key, d. split; [exact Hi|].
    split.
    { destruct (Host_build_trace_reads invoke console_error h _ _ _ _ _ _ _ Hb) as [_ Hr].
    by apply (Hr i w0 item). }
    split; [exact Hpar|]. split; [exact Hmk|]. split; [exact Hname|].
    unfold failure.
    destruct (Host_read invoke d _) as [v|e].
    - pose proof (Host_getPropertyType_kind h v) as Hty.
      destruct (kind_of h v) as [ty|].
      + apply Host_getPropertyType_Ok in Hty as [Hr Hne].
        rewrite Hr. destruct Hex as [Ht _].
        assert (Hno : type c <> Terror).
        { rewrite Ht, <- Hne. apply getPropertyType_not_error. }
        split; [|intros H; by destruct Hno]. split; [intros H; by destruct Hno|].
        intros [e [=]].
      + apply Host_getPropertyType_Err in Hty as [-> _].
        destruct Hex as (Ht & Hv & Hch). split; [|auto]. split; [eauto|auto].
    - destruct Hex as (Ht & Hv & Hch). split; [|auto]. split; [eauto|auto]. }
  split; [exact Hroot|]. split; [exact Hmain|].
  intros Hnever Hnone q n Hq Hty.
  destruct q as [|k p _] using rev_ind.
  - simpl in Hq. injection Hq as <-. by apply Hroot.
  - destruct (Hmain p k n Hq) as (i & w0 & item & key & d & _ & _ & _ & _ & _ & [Hf _] & _).
    destruct (Hf Hty) as [e He]. unfold failure in He.
    destruct d as [v|[g|]]; simpl in He.
    + destruct v; simpl in He; try discriminate.
      pose proof (Hnone l). by destruct (h l).
    + destruct ((invoke g _).1) as [v|e'] eqn:Hg; [|by apply Hnever in Hg].
      destruct v; simpl in He; try discriminate.
      pose proof (Hnone l). by destruct (h l).
    + discriminate.
Qed.

Lemma error_nodes_are_failed_reads_witness :
  exists c i w0 item key d,
    node_at ([] ++ [3%nat]) hostile_tree = Some c
    /\ Host_build_trace throwing_getters silent_console hostile_heap 5 (JsObject O)
         (number_of_Z 2) (str "root") tt !! i = Some (w0, item)
    /\ WorkItem.parent item = []
    /\ Host_members (hostile_heap (WorkItem.obj item)) !! 3%nat = Some (key, d)
    /\ name c = key
    /\ (type c = Terror <->
        exists e,
          failure hostile_heap
            (Host_read throwing_getters d
               (after_reads throwing_getters
                  (take 3 (Host_members (hostile_heap (WorkItem.obj item)))) w0))
          = Some e).
Proof.
  destruct (error_nodes_are_failed_reads unit throwing_getters silent_console hostile_heap
              5 (JsObject O) (number_of_Z 2) (str "root") tt hostile_tree tt)
    as (_ & H & _).
  { vm_compute. reflexivity. }
  destruct (H [] 3%nat (error_node (str "gone")) eq_refl)
    as (i & w0 & item & key & d & H1 & _ & H2 & H3 & H4 & H5 & _).
  exists (error_node (str "gone")), i, w0, item, key, d.
  split; [reflexivity|]. auto 10.
Defined.
